(** * tomatoesLand.SocketIo: the lobby registry and the Agar.io session engine

    A shallow embedding of [sockets/index.js] and [sockets/games/agarIo.js].

    JavaScript objects that the server shares between data structures are kept
    in stores and named by their address: room objects live in the store of
    the world, bullet objects in the store of their session.  The registry
    objects ([games], [game.rooms], [game.activeRooms], [userList]) and the
    [Map] and [Set] of a session are association lists in insertion order.
    A [Map] and a [Set] are enumerated in that order; a plain object is
    enumerated as [entries] tells, and answers for the names of
    [Object.prototype] as [obj_index] tells.  Numbers are IEEE 754 binary64
    values, as in JavaScript. *)

From Stdlib Require Import Floats ZArith.
From stdpp Require Import base option list strings relations.

#[local] Set Warnings "-register-all,-clear-no-such-hyp".

(** ** JavaScript values *)

Module Js.

(** A value received in an event payload. *)
Inductive val :=
| Undefined
| Null
| Bool (b : bool)
| Num (n : float)
| Str (s : string)
| Obj (props : list (string * val)).

Definition nan : float := PrimFloat.nan.
Definition Infinity : float := PrimFloat.infinity.

(** [ToBoolean] on a number: [0], [-0] and [NaN] are falsy. *)
Definition truthy_num (n : float) : bool :=
  negb (PrimFloat.eqb n 0 || PrimFloat.is_nan n).

Definition truthy_str (s : string) : bool :=
  negb (bool_decide (s = ""%string)).

Definition truthy (v : val) : bool :=
  match v with
  | Undefined | Null => false
  | Bool b => b
  | Num n => truthy_num n
  | Str s => truthy_str s
  | Obj _ => true
  end.

(** [typeof v === "number"]. *)
Definition is_number (v : val) : bool :=
  match v with Num _ => true | _ => false end.

(** [Number.isFinite]. *)
Definition is_finite (n : float) : bool :=
  negb (PrimFloat.is_nan n || PrimFloat.is_infinity n).

Fixpoint assoc (k : string) (props : list (string * val)) : val :=
  match props with
  | [] => Undefined
  | (k', v) :: rest => if bool_decide (k' = k) then v else assoc k rest
  end.

(** [v.k] on a value that is neither [undefined] nor [null]; a primitive
    has no own property of the names read here. *)
Definition get (v : val) (k : string) : val :=
  match v with
  | Obj props => assoc k props
  | _ => Undefined
  end.

(** An optional string ([undefined] or [null] when absent) and the
    operators the server applies to it. *)
Definition truthy_opt (o : option string) : bool :=
  match o with Some s => truthy_str s | None => false end.

(** [a || b] *)
Definition or_else (a b : option string) : option string :=
  if truthy_opt a then a else b.

(** Interpolation in a template string. *)
Definition show (o : option string) : string :=
  default "undefined"%string o.

(** [ToInt32], the conversion behind [~~v]. *)
Definition to_int32 (n : float) : float :=
  match Prim2SF n with
  | S754_finite sg m e =>
      let mag := if (0 <=? e)%Z then (Z.pos m * 2 ^ e)%Z
                 else (Z.pos m / 2 ^ (- e))%Z in
      let r := ((if sg then - mag else mag) mod 2 ^ 32)%Z in
      if (r <? 2 ^ 31)%Z then PrimFloat.of_uint63 (Uint63.of_Z r)
      else PrimFloat.opp (PrimFloat.of_uint63 (Uint63.of_Z (2 ^ 32 - r)))
  | _ => 0%float
  end.

End Js.

(** ** Arrays and keyed collections *)

Section Collections.
Context {A : Type}.

(** [Array.prototype.pop]: the last element and the rest. *)
Definition pop (l : list A) : option (A * list A) :=
  match reverse l with
  | [] => None
  | x :: r => Some (x, reverse r)
  end.

(** [map.get(k)], and [obj[k]] as far as the own properties go. *)
Fixpoint obj_get (k : string) (o : list (string * A)) : option A :=
  match o with
  | [] => None
  | (k', v) :: rest => if bool_decide (k' = k) then Some v else obj_get k rest
  end.

(** [obj[k] = v] and [map.set(k, v)]: an existing key keeps its place. *)
Fixpoint obj_set (k : string) (v : A) (o : list (string * A)) : list (string * A) :=
  match o with
  | [] => [(k, v)]
  | (k', v') :: rest =>
      if bool_decide (k' = k) then (k', v) :: rest
      else (k', v') :: obj_set k v rest
  end.

(** [delete obj[k]]. *)
Definition obj_delete (k : string) (o : list (string * A)) : list (string * A) :=
  filter (λ kv, kv.1 ≠ k) o.

(** [Array.prototype.findIndex], [None] standing for [-1]. *)
Definition findIndex (P : A → bool) (l : list A) : option nat :=
  fst <$> list_find (λ x, P x = true) l.

End Collections.

(** What [obj[k]] finds on a plain object: an own property; or, under a name
    of [Object.prototype], one of its built-in functions or the prototype
    itself, which is truthy and has none of the fields the server reads; or
    nothing. *)
Inductive Slot (A : Type) :=
| Own (a : A)
| Inherited
| Missing.
Arguments Own {A} a.
Arguments Inherited {A}.
Arguments Missing {A}.

(** The property names every plain object inherits from [Object.prototype]. *)
Definition prototype_keys : list string :=
  ["constructor"; "__defineGetter__"; "__defineSetter__"; "hasOwnProperty";
   "__lookupGetter__"; "__lookupSetter__"; "isPrototypeOf";
   "propertyIsEnumerable"; "toString"; "valueOf"; "__proto__";
   "toLocaleString"].

(** [obj[k]] on a plain object: an own property hides an inherited one. *)
Definition obj_index {A} (k : string) (o : list (string * A)) : Slot A :=
  match obj_get k o with
  | Some a => Own a
  | None => if bool_decide (k ∈ prototype_keys) then Inherited else Missing
  end.

(** *** The order of the properties of a plain object *)

(** The digit a character stands for. *)
Definition digit (c : Ascii.ascii) : option N :=
  let n := Ascii.N_of_ascii c in
  if ((48 <=? n) && (n <=? 57))%N then Some (n - 48)%N else None.

(** The number a string of decimal digits stands for, after [acc]. *)
Fixpoint decimal (acc : N) (s : string) : option N :=
  match s with
  | EmptyString => Some acc
  | String c rest =>
      match digit c with
      | Some d => decimal (10 * acc + d) rest
      | None => None
      end
  end.

(** An array index: the decimal form, with no leading zero, of an integer
    below [2^32 - 1]. *)
Definition array_index (k : string) : option N :=
  if String.eqb k "" then None
  else if String.prefix "0" k && negb (String.eqb k "0") then None
  else
    match decimal 0 k with
    | Some n => if (n <? 4294967295)%N then Some n else None
    | None => None
    end.

Fixpoint insert_indexed {B} (x : N * B) (l : list (N * B)) : list (N * B) :=
  match l with
  | [] => [x]
  | y :: rest =>
      if (x.1 <? y.1)%N then x :: l else y :: insert_indexed x rest
  end.

(** [Object.entries(obj)], and the order of [Object.keys(obj)] and
    [Object.values(obj)]: the properties named by an array index come first,
    in ascending numeric order, then the others as they were created. *)
Definition entries {A} (o : list (string * A)) : list (string * A) :=
  let indexed : list (N * (string * A)) :=
    omap (λ kv, match array_index kv.1 with
                | Some n => Some (n, kv)
                | None => None
                end) o in
  (snd <$> foldl (λ sorted x, insert_indexed x sorted) [] indexed)
  ++ filter (λ kv, array_index kv.1 = None) o.

(** [set.add(k)] and [set.delete(k)] on a [Set] of strings. *)
Definition set_add (k : string) (s : list string) : list string :=
  if bool_decide (k ∈ s) then s else s ++ [k].

Definition set_delete (k : string) (s : list string) : list string :=
  filter (λ k', k' ≠ k) s.

(** ** Data model *)

(** World constants of [agarIo.js]. *)
Definition WORLD_WIDTH : float := 1080%float.
Definition WORLD_HEIGHT : float := 1080%float.

(** An entry of [room.players], as [joinRoom] pushes it. *)
Module Entry.
Record t := mk {
  socketId : string;
  userName : string;
  isReady : bool;
}.
End Entry.

(** The fields [startAgarIoRoom] adds to a player.  In the source they are
    written on the very object that sits in [room.players]; the lobby code
    reads none of them and the session code reads no [isReady], so the two
    groups of fields are kept in two records. *)
Module Player.
Record t := mk {
  socketId : string;
  userName : string;
  x : float;
  y : float;
  mass : float;
  isDead : bool;
  lastDx : float;
  lastDy : float;
}.

Definition move (x' y' : float) (p : t) : t :=
  mk (socketId p) (userName p) x' y' (mass p) (isDead p) (lastDx p) (lastDy p).
Definition set_last (dx dy : float) (p : t) : t :=
  mk (socketId p) (userName p) (x p) (y p) (mass p) (isDead p) dx dy.
Definition set_isDead (d : bool) (p : t) : t :=
  mk (socketId p) (userName p) (x p) (y p) (mass p) d (lastDx p) (lastDy p).
Definition set_mass (m : float) (p : t) : t :=
  mk (socketId p) (userName p) (x p) (y p) m (isDead p) (lastDx p) (lastDy p).
End Player.

Module Bullet.
Record t := mk {
  id : float;
  ownerId : string;
  x : float;
  y : float;
  vx : float;
  vy : float;
  radius : float;
  traveled : float;
  rangeLimit : float;
  type : string;
  speed : float;
}.
End Bullet.

(** The state [startAgarIoRoom] installs on a room.  It creates all of these
    fields together and nothing else creates any of them, so a room either
    has them all or has none.  [bulletIdCounter] is a number like the others:
    it starts at 1 and a shot adds 1 to it.  [records] is the store of the
    bullet objects this session allocated: [bullets] and [bulletPool] hold
    addresses into it. *)
Module Session.
Record t := mk {
  playersMap : list (string * Player.t);
  alivePlayers : list string;
  records : list Bullet.t;
  bullets : list nat;
  bulletIdCounter : float;
  bulletPool : list nat;
  simulationInterval : option nat;
  broadcastInterval : option nat;
  winner : option string;
}.

Definition set_playersMap (v : list (string * Player.t)) (s : t) : t :=
  mk v (alivePlayers s) (records s) (bullets s) (bulletIdCounter s)
     (bulletPool s) (simulationInterval s) (broadcastInterval s) (winner s).
Definition set_alivePlayers (v : list string) (s : t) : t :=
  mk (playersMap s) v (records s) (bullets s) (bulletIdCounter s)
     (bulletPool s) (simulationInterval s) (broadcastInterval s) (winner s).
Definition set_records (v : list Bullet.t) (s : t) : t :=
  mk (playersMap s) (alivePlayers s) v (bullets s) (bulletIdCounter s)
     (bulletPool s) (simulationInterval s) (broadcastInterval s) (winner s).
Definition set_bullets (v : list nat) (s : t) : t :=
  mk (playersMap s) (alivePlayers s) (records s) v (bulletIdCounter s)
     (bulletPool s) (simulationInterval s) (broadcastInterval s) (winner s).
Definition set_bulletIdCounter (v : float) (s : t) : t :=
  mk (playersMap s) (alivePlayers s) (records s) (bullets s) v
     (bulletPool s) (simulationInterval s) (broadcastInterval s) (winner s).
Definition set_bulletPool (v : list nat) (s : t) : t :=
  mk (playersMap s) (alivePlayers s) (records s) (bullets s)
     (bulletIdCounter s) v (simulationInterval s) (broadcastInterval s)
     (winner s).
Definition set_simulationInterval (v : option nat) (s : t) : t :=
  mk (playersMap s) (alivePlayers s) (records s) (bullets s)
     (bulletIdCounter s) (bulletPool s) v (broadcastInterval s) (winner s).
Definition set_broadcastInterval (v : option nat) (s : t) : t :=
  mk (playersMap s) (alivePlayers s) (records s) (bullets s)
     (bulletIdCounter s) (bulletPool s) (simulationInterval s) v (winner s).
Definition set_winner (v : option string) (s : t) : t :=
  mk (playersMap s) (alivePlayers s) (records s) (bullets s)
     (bulletIdCounter s) (bulletPool s) (simulationInterval s)
     (broadcastInterval s) v.
End Session.

(** A room object: a lobby room, and after [startAgarIoRoom] a session. *)
Module Room.
Record t := mk {
  id : option string;
  players : list Entry.t;
  session : option Session.t;
}.

Definition set_id (v : option string) (r : t) : t :=
  mk v (players r) (session r).
Definition set_players (v : list Entry.t) (r : t) : t :=
  mk (id r) v (session r).
Definition set_session (v : option Session.t) (r : t) : t :=
  mk (id r) (players r) v.
End Room.

(** [games[gameId]]: the registry of one game type.  [rooms] and
    [activeRooms] map a room id to the address of a room object; [io] tells
    whether the [io] reference has been stored on the game. *)
Module Game.
Record t := mk {
  rooms : list (string * nat);
  activeRooms : list (string * nat);
  id : option string;
  io : bool;
}.

Definition set_rooms (v : list (string * nat)) (g : t) : t :=
  mk v (activeRooms g) (id g) (io g).
Definition set_activeRooms (v : list (string * nat)) (g : t) : t :=
  mk (rooms g) v (id g) (io g).
Definition set_id (v : option string) (g : t) : t :=
  mk (rooms g) (activeRooms g) v (io g).
Definition set_io (v : bool) (g : t) : t :=
  mk (rooms g) (activeRooms g) (id g) v.
End Game.

(** The two periodic tasks of a session.  The closures given to
    [setInterval] capture the game and the room object themselves. *)
Inductive Task := Simulation | Broadcast.

Module Timer.
Record t := mk {
  handle : nat;
  task : Task;
  game : string;
  room : nat;
}.
End Timer.

(** What [broadcastGameState] sends. *)
Module Snapshot.
Record player := mk_player {
  p_socketId : string;
  p_userName : string;
  p_x : float;
  p_y : float;
  p_mass : float;
}.
Record bullet := mk_bullet {
  b_id : float;
  b_ownerId : string;
  b_x : float;
  b_y : float;
  b_radius : float;
}.
Record t := mk {
  roomId : option string;
  players : list player;
  bullets : list bullet;
  winner : option string;
  worldSize : float * float;
}.
End Snapshot.

(** An emission on the transport: the channel and the event with its
    payload.  [RoomList] and [RoomCount] are what the lobby helpers send. *)
Inductive Event :=
| GameStateUpdate (channel : string) (snap : Snapshot.t)
| BulletCreated (channel : string) (b : Bullet.t)
| GameEnded (channel : string) (roomId : option string) (winner : option string)
| Users (users : list (string * string))
| RoomList (gameId : string) (summary : list (string * nat * nat))
| RoomCount (gameId : string) (count : nat).

(** The connected client a handler runs for. *)
Module Socket.
Record t := mk {
  id : string;
  userName : option string;
}.
End Socket.

(** The state of the server process. *)
Module World.
Record t := mk {
  heap : list Room.t;
  games : list (string * Game.t);
  userList : list (string * string);
  joined : list (string * string);
  timers : list Timer.t;
  nextTimer : nat;
  sent : list Event;
}.

Definition set_heap (v : list Room.t) (w : t) : t :=
  mk v (games w) (userList w) (joined w) (timers w) (nextTimer w) (sent w).
Definition set_games (v : list (string * Game.t)) (w : t) : t :=
  mk (heap w) v (userList w) (joined w) (timers w) (nextTimer w) (sent w).
Definition set_userList (v : list (string * string)) (w : t) : t :=
  mk (heap w) (games w) v (joined w) (timers w) (nextTimer w) (sent w).
Definition set_joined (v : list (string * string)) (w : t) : t :=
  mk (heap w) (games w) (userList w) v (timers w) (nextTimer w) (sent w).
Definition set_timers (v : list Timer.t) (w : t) : t :=
  mk (heap w) (games w) (userList w) (joined w) v (nextTimer w) (sent w).
Definition set_nextTimer (v : nat) (w : t) : t :=
  mk (heap w) (games w) (userList w) (joined w) (timers w) v (sent w).
Definition set_sent (v : list Event) (w : t) : t :=
  mk (heap w) (games w) (userList w) (joined w) (timers w) (nextTimer w) v.
End World.


(** ** Handlers as state transformers that may throw *)

(** The outcome of running a piece of JavaScript on a state: it returns a
    value, or it throws (here always a [TypeError]) and leaves the state as
    it was at the throw. *)
Inductive Res (S A : Type) :=
| Done (a : A) (s : S)
| Threw (s : S).
Arguments Done {S A} a s.
Arguments Threw {S A} s.

Definition M (S A : Type) : Type := S → Res S A.

#[global] Instance M_ret {S} : MRet (M S) := λ A a s, Done a s.
#[global] Instance M_bind {S} : MBind (M S) := λ A B f m s,
  match m s with
  | Done a s' => f a s'
  | Threw s' => Threw s'
  end.

Definition get_state {S} : M S S := λ s, Done s s.
Definition modify {S} (f : S → S) : M S unit := λ s, Done () (f s).
Definition throw {S A} : M S A := λ s, Threw s.

(** The state a run ends in, whether it returned or threw. *)
Definition final {S A} (r : Res S A) : S :=
  match r with Done _ s => s | Threw s => s end.

Definition returned {S A} (r : Res S A) : bool :=
  match r with Done _ _ => true | Threw _ => false end.

(** [l.forEach(f)] *)
Fixpoint for_each {S A} (l : list A) (f : A → M S unit) : M S unit :=
  match l with
  | [] => mret ()
  | x :: rest => f x;; for_each rest f
  end.

(** Object references never dangle; a lookup outside a store yields an
    arbitrary object, which no well-formed world reaches. *)
#[global] Instance Bullet_inhabited : Inhabited Bullet.t :=
  populate (Bullet.mk 0 "" 0 0 0 0 0 0 0 "" 0).
#[global] Instance Room_inhabited : Inhabited Room.t :=
  populate (Room.mk None [] None).
#[global] Instance Game_inhabited : Inhabited Game.t :=
  populate (Game.mk [] [] None false).

(** Reading and writing through a room reference. *)
Definition deref (a : nat) : M World.t Room.t :=
  λ w, Done (World.heap w !!! a) w.

Definition update_room (a : nat) (f : Room.t → Room.t) : M World.t unit :=
  modify (λ w, World.set_heap (alter f a (World.heap w)) w).

Definition update_session (a : nat) (f : Session.t → Session.t) : M World.t unit :=
  update_room a (λ r, Room.set_session (f <$> Room.session r) r).

(** [new] of a room object. *)
Definition alloc_room (r : Room.t) : M World.t nat :=
  λ w, Done (length (World.heap w)) (World.set_heap (World.heap w ++ [r]) w).

(** Reading a session field of room [a]: on a room that was never started
    the field is [undefined], and reading into it throws. *)
Definition session_of (a : nat) : M World.t Session.t := λ w,
  match Room.session (World.heap w !!! a) with
  | Some s => Done s w
  | None => Threw w
  end.

(** Running session code on the session of room [a]. *)
Definition in_session {A} (a : nat) (m : M Session.t A) : M World.t A := λ w,
  match Room.session (World.heap w !!! a) with
  | None => Threw w
  | Some s =>
      let put s' := World.set_heap
        (alter (Room.set_session (Some s')) a (World.heap w)) w in
      match m s with
      | Done x s' => Done x (put s')
      | Threw s' => Threw (put s')
      end
  end.

(** Reading and writing through a game reference: [games[gameId]] is the
    first entry under that key. *)
Fixpoint obj_alter {A} (f : A → A) (k : string) (o : list (string * A)) :
    list (string * A) :=
  match o with
  | [] => []
  | (k', v) :: rest =>
      if bool_decide (k' = k) then (k', f v) :: rest
      else (k', v) :: obj_alter f k rest
  end.

Definition the_game (gameId : string) : M World.t Game.t :=
  λ w, Done (default inhabitant (obj_get gameId (World.games w))) w.

Definition update_game (gameId : string) (f : Game.t → Game.t) : M World.t unit :=
  modify (λ w, World.set_games (obj_alter f gameId (World.games w)) w).

(** [io.to(channel).emit(...)], [io.emit(...)] *)
Definition emit (e : Event) : M World.t unit :=
  modify (λ w, World.set_sent (World.sent w ++ [e]) w).

(** [socket.join(channel)], [socket.leave(channel)] *)
Definition socket_join (socket : Socket.t) (channel : string) : M World.t unit :=
  modify (λ w, World.set_joined
    (if bool_decide ((Socket.id socket, channel) ∈ World.joined w)
     then World.joined w
     else World.joined w ++ [(Socket.id socket, channel)]) w).

Definition socket_leave (socket : Socket.t) (channel : string) : M World.t unit :=
  modify (λ w, World.set_joined
    (filter (λ sc, sc ≠ (Socket.id socket, channel)) (World.joined w)) w).

(** [setInterval] and [clearInterval] *)
Definition setInterval (t : Task) (gameId : string) (a : nat) : M World.t nat :=
  λ w, let h := World.nextTimer w in
       Done h (World.set_nextTimer (S h)
                 (World.set_timers (World.timers w ++ [Timer.mk h t gameId a]) w)).

Definition clearInterval (h : nat) : M World.t unit :=
  modify (λ w, World.set_timers
    (filter (λ t, Timer.handle t ≠ h) (World.timers w)) w).

Definition channel_of (gameId roomId : option string) : string :=
  Js.show gameId +:+ "-" +:+ Js.show roomId.

(** ** utils/gameUtils.js *)

(** Modelled from the spec: [getGame] of utils/gameUtils.js is not among the
    sources.  "GameType: ... Owns a mapping of room-id → LobbyRoom and
    session-id → GameSession.  Created on first reference, lives for the
    process lifetime." *)
Definition getGame (gameId : string) : M World.t Game.t := λ w,
  match obj_get gameId (World.games w) with
  | Some g => Done g w
  | None =>
      let g := Game.mk [] [] None false in
      Done g (World.set_games (World.games w ++ [(gameId, g)]) w)
  end.

Definition is_empty_room (w : World.t) (a : nat) : bool :=
  bool_decide (length (Room.players (World.heap w !!! a)) = 0).

(** The rooms of [game.rooms] with no player: the [emptyRooms] the handlers
    compute with [Object.values(game.rooms).filter(...)], in the order of
    insertion; the handlers read their number only. *)
Definition emptyRooms (w : World.t) (game : Game.t) : list (string * nat) :=
  filter (λ ka, is_empty_room w ka.2 = true) (Game.rooms game).

(** An id longer than every id in use. *)
Fixpoint filler (n : nat) : string :=
  match n with
  | 0 => ""
  | S n => "r" +:+ filler n
  end.

Definition fresh_id (used : list string) : string :=
  filler (S (max_list (String.length <$> used))).

(** Modelled from the spec: [ensureSingleEmptyRoom] of utils/gameUtils.js is
    not among the sources.  "ensureJoinableRoom(gameType) — guarantees at
    least one zero-occupancy room exists, creating one with a fresh id if
    none does; idempotent." *)
Definition ensureSingleEmptyRoom (gameId : string) : M World.t unit :=
  game ← getGame gameId;
  w ← get_state;
  match emptyRooms w game with
  | _ :: _ => mret ()
  | [] =>
      let roomId := fresh_id ((Game.rooms game).*1 ++ (Game.activeRooms game).*1) in
      a ← alloc_room (Room.mk (Some roomId) [] None);
      update_game gameId (λ g, Game.set_rooms (obj_set roomId a (Game.rooms g)) g)
  end.

(** Modelled from the spec: [broadcastRooms] of utils/gameUtils.js is not
    among the sources.  "a broadcast of the current room list (id,
    occupancy, ready counts) to every client subscribed to that GameType's
    lobby channel". *)
Definition broadcastRooms (gameId : string) : M World.t unit :=
  game ← the_game gameId;
  w ← get_state;
  emit (RoomList gameId
    ((λ ka, let ps := Room.players (World.heap w !!! ka.2) in
            (ka.1, length ps, length (filter (λ e, Entry.isReady e = true) ps)))
       <$> Game.rooms game)).

(** Modelled from the spec: [updateRoomCountForEveryone] of
    utils/gameUtils.js is not among the sources.  "every structural change
    (create/delete/occupancy change) triggers a re-broadcast". *)
Definition updateRoomCountForEveryone (gameId : string) : M World.t unit :=
  game ← the_game gameId;
  emit (RoomCount gameId (length (Game.rooms game))).

(** ** sockets/games/agarIo.js *)

Definition clamp (value min max : float) : float :=
  if PrimFloat.ltb value min then min
  else if PrimFloat.ltb max value then max
  else value.

(** The body of [room.players.forEach] in [startAgarIoRoom]; [rnd] gives the
    successive results of [Math.random()]. *)
Definition spawn_player (rnd : nat → float) (i : nat) (e : Entry.t) : Player.t :=
  Player.mk (Entry.socketId e) (Entry.userName e)
    (Js.to_int32 (PrimFloat.mul (rnd (2 * i)) WORLD_WIDTH))
    (Js.to_int32 (PrimFloat.mul (rnd (2 * i + 1)) WORLD_HEIGHT))
    10 false 0 0.

Definition startAgarIoRoom (rnd : nat → float) (gameId : string) (a : nat) :
    M World.t unit :=
  room ← deref a;
  let ps := imap (spawn_player rnd) (Room.players room) in
  let playersMap := foldl (λ m p, obj_set (Player.socketId p) p m) [] ps in
  let alivePlayers := foldl (λ s p, set_add (Player.socketId p) s) [] ps in
  match Room.session room ≫= Session.simulationInterval with
  | Some h => clearInterval h
  | None => mret ()
  end;;
  match Room.session room ≫= Session.broadcastInterval with
  | Some h => clearInterval h
  | None => mret ()
  end;;
  sim ← setInterval Simulation gameId a;
  bc ← setInterval Broadcast gameId a;
  update_room a (Room.set_session (Some
    (Session.mk playersMap alivePlayers [] [] 1 [] (Some sim) (Some bc) None))).

Definition snapshot_player (p : Player.t) : Snapshot.player :=
  Snapshot.mk_player (Player.socketId p) (Player.userName p)
    (Player.x p) (Player.y p) (Player.mass p).

Definition snapshot_bullet (b : Bullet.t) : Snapshot.bullet :=
  Snapshot.mk_bullet (Bullet.id b) (Bullet.ownerId b)
    (Bullet.x b) (Bullet.y b) (Bullet.radius b).

(** The snapshot of a session; [None] when an alive id has no player in
    [playersMap], where reading [p.socketId] throws. *)
Definition snapshot (roomId : option string) (s : Session.t) : option Snapshot.t :=
  playersData ← mapM (λ socketId,
      snapshot_player <$> obj_get socketId (Session.playersMap s))
    (Session.alivePlayers s);
  Some (Snapshot.mk roomId playersData
    ((λ ba, snapshot_bullet (Session.records s !!! ba)) <$> Session.bullets s)
    (Js.or_else (Session.winner s) None)
    (WORLD_WIDTH, WORLD_HEIGHT)).

(** [room.alivePlayers] and [room.bullets] are [undefined] on a room that
    was never started: [Array.from(undefined)] throws. *)
Definition broadcastGameState (io : bool) (gameId roomId : option string)
    (a : nat) : M World.t unit :=
  if negb io then mret ()
  else
    room ← deref a;
    match Room.session room with
    | None => throw
    | Some s =>
        match snapshot roomId s with
        | None => throw
        | Some snap => emit (GameStateUpdate (channel_of gameId roomId) snap)
        end
    end.

(** [game.activeRooms[roomId] || game.rooms[roomId]]: what [activeRooms]
    inherits is truthy, so [rooms] is then not looked at. *)
Definition find_room (game : Game.t) (roomId : string) : Slot nat :=
  match obj_index roomId (Game.activeRooms game) with
  | Missing => obj_index roomId (Game.rooms game)
  | found => found
  end.

(** The [switch (direction)] of [handlePlayerMove]. *)
Definition move_delta (direction : Js.val) : float * float :=
  let step := 4%float in
  match direction with
  | Js.Str d =>
      if String.eqb d "up-left" then (PrimFloat.opp step, PrimFloat.opp step)
      else if String.eqb d "up-right" then (step, PrimFloat.opp step)
      else if String.eqb d "down-left" then (PrimFloat.opp step, step)
      else if String.eqb d "down-right" then (step, step)
      else if String.eqb d "up" then (0%float, PrimFloat.opp step)
      else if String.eqb d "down" then (0%float, step)
      else if String.eqb d "left" then (PrimFloat.opp step, 0%float)
      else if String.eqb d "right" then (step, 0%float)
      else (0%float, 0%float)
  | _ => (0%float, 0%float)
  end.

(** [room.playersMap] is [undefined] on a room that was never started:
    [room.playersMap.get] throws.  So it is on what [activeRooms] inherits
    under [roomId], and what [games] inherits under [gameId] has no
    [activeRooms] to index. *)
Definition handlePlayerMove (socket : Socket.t) (gameId roomId : string)
    (direction : Js.val) : M World.t unit :=
  w ← get_state;
  match obj_index gameId (World.games w) with
  | Missing => mret ()
  | Inherited => throw
  | Own game =>
  match find_room game roomId with
  | Missing => mret ()
  | Inherited => throw
  | Own a =>
  s ← session_of a;
  match obj_get (Socket.id socket) (Session.playersMap s) with
  | None => mret ()
  | Some player =>
  if Player.isDead player then mret ()
  else
    let '(dx, dy) := move_delta direction in
    let player := Player.move
      (clamp (PrimFloat.add (Player.x player) dx) 0 WORLD_WIDTH)
      (clamp (PrimFloat.add (Player.y player) dy) 0 WORLD_HEIGHT) player in
    let player :=
      if Js.truthy_num dx || Js.truthy_num dy
      then Player.set_last dx dy player else player in
    update_session a (λ s, Session.set_playersMap
      (obj_set (Socket.id socket) player (Session.playersMap s)) s)
  end end end.

(** [["charged", "fullyCharged"].includes(bulletType)] *)
Definition known_bulletType (bulletType : Js.val) : bool :=
  match bulletType with
  | Js.Str t => String.eqb t "charged" || String.eqb t "fullyCharged"
  | _ => false
  end.

(** The [switch (bulletType)] of [handleShootBullet]: the type tag with
    [speedValue], [radius] and [rangeLimit]. *)
Definition bullet_params (bulletType : Js.val) :
    option (string * float * float * float) :=
  match bulletType with
  | Js.Str t =>
      if String.eqb t "fullyCharged" then Some (t, 30%float, 25%float, Js.Infinity)
      else if String.eqb t "charged" then Some (t, 30%float, 5%float, Js.Infinity)
      else None
  | _ => None
  end.

(** The number held by a value that passed [typeof v === "number"]. *)
Definition num_of (v : Js.val) : float :=
  match v with Js.Num n => n | _ => Js.nan end.

(** The validation of the payload of a shot. *)
Definition shot_rejected (bulletType direction : Js.val) : bool :=
  negb (Js.truthy direction)
  || negb (Js.is_number (Js.get direction "x"))
  || negb (Js.is_number (Js.get direction "y"))
  || negb (known_bulletType bulletType).

(** The bullet a shot produces, before it gets its id. *)
Definition make_bullet (id : float) (player : Player.t) (type : string)
    (speedValue radius rangeLimit : float) (direction : Js.val) : Bullet.t :=
  let dx := num_of (Js.get direction "x") in
  let dy := num_of (Js.get direction "y") in
  let len :=
    let l := PrimFloat.sqrt (PrimFloat.add (PrimFloat.mul dx dx) (PrimFloat.mul dy dy)) in
    if Js.truthy_num l then l else 1%float in
  let vx := PrimFloat.mul (PrimFloat.div dx len) speedValue in
  let vy := PrimFloat.mul (PrimFloat.div dy len) speedValue in
  Bullet.mk id (Player.socketId player) (Player.x player) (Player.y player)
    vx vy radius 0 rangeLimit type speedValue.

(** Taking a record for a new bullet: the last one of the pool, all of its
    fields overwritten, or else a new object.  Either way its id is
    [room.bulletIdCounter++]: the value of the counter, to which 1 is then
    added.  Returns the address of the record and the bullet now stored
    there. *)
Definition acquire (mk : float → Bullet.t) : M Session.t (nat * Bullet.t) := λ s,
  let bullet := mk (Session.bulletIdCounter s) in
  let s := Session.set_bulletIdCounter
             (PrimFloat.add (Session.bulletIdCounter s) 1) s in
  match pop (Session.bulletPool s) with
  | Some (ba, rest) =>
      Done (ba, bullet)
           (Session.set_records (<[ba := bullet]> (Session.records s))
              (Session.set_bulletPool rest s))
  | None =>
      Done (length (Session.records s), bullet)
           (Session.set_records (Session.records s ++ [bullet]) s)
  end.

Definition handleShootBullet (socket : Socket.t) (gameId roomId : string)
    (bulletType direction : Js.val) : M World.t unit :=
  w ← get_state;
  match obj_index gameId (World.games w) with
  | Missing => mret ()
  | Inherited => throw
  | Own game =>
  match find_room game roomId with
  | Missing => mret ()
  | Inherited => throw
  | Own a =>
  s ← session_of a;
  match obj_get (Socket.id socket) (Session.playersMap s) with
  | None => mret ()
  | Some player =>
  if Player.isDead player then mret ()
  else if shot_rejected bulletType direction then mret ()
  else
    match bullet_params bulletType with
    | None => mret ()
    | Some (type, speedValue, radius, rangeLimit) =>
        bullet ← in_session a (
          '(ba, bullet) ← acquire (λ id, make_bullet id player type speedValue
                                           radius rangeLimit direction);
          modify (λ s, Session.set_bullets (Session.bullets s ++ [ba]) s);;
          mret bullet);
        room ← deref a;
        emit (BulletCreated (channel_of (Game.id game) (Room.id room)) bullet)
    end
  end end end.

(** One step of a bullet: [b.x += b.vx; b.y += b.vy; b.traveled += b.speed]. *)
Definition advance (b : Bullet.t) : Bullet.t :=
  Bullet.mk (Bullet.id b) (Bullet.ownerId b)
    (PrimFloat.add (Bullet.x b) (Bullet.vx b))
    (PrimFloat.add (Bullet.y b) (Bullet.vy b))
    (Bullet.vx b) (Bullet.vy b) (Bullet.radius b)
    (PrimFloat.add (Bullet.traveled b) (Bullet.speed b))
    (Bullet.rangeLimit b) (Bullet.type b) (Bullet.speed b).

(** The test that retires a bullet: out of the world, or out of range. *)
Definition out_of_play (b : Bullet.t) : bool :=
  PrimFloat.ltb (Bullet.x b) 0
  || PrimFloat.ltb WORLD_WIDTH (Bullet.x b)
  || PrimFloat.ltb (Bullet.y b) 0
  || PrimFloat.ltb WORLD_HEIGHT (Bullet.y b)
  || (negb (PrimFloat.eqb (Bullet.rangeLimit b) Js.Infinity)
      && PrimFloat.leb (Bullet.rangeLimit b) (Bullet.traveled b)).

Definition collides (b : Bullet.t) (player : Player.t) : bool :=
  let dx := PrimFloat.sub (Bullet.x b) (Player.x player) in
  let dy := PrimFloat.sub (Bullet.y b) (Player.y player) in
  let collisionDistance := PrimFloat.add (Bullet.radius b) (Player.mass player) in
  PrimFloat.ltb (PrimFloat.add (PrimFloat.mul dx dx) (PrimFloat.mul dy dy))
                (PrimFloat.mul collisionDistance collisionDistance).

(** The [for (const player of room.playersMap.values())] of [updateBullets]:
    the first player hit is marked dead and the scan stops.  Returns the map
    with that player updated, and the player. *)
Fixpoint hit (b : Bullet.t) (ps : list (string * Player.t)) :
    option (list (string * Player.t) * Player.t) :=
  match ps with
  | [] => None
  | (k, player) :: rest =>
      if String.eqb (Player.socketId player) (Bullet.ownerId b)
         || Player.isDead player
      then prod_map (cons (k, player)) id <$> hit b rest
      else if collides b player
      then Some ((k, Player.set_isDead true player) :: rest, player)
      else prod_map (cons (k, player)) id <$> hit b rest
  end.

(** [room.bulletPool.push(b); room.bullets.splice(i, 1)] *)
Definition retire (i ba : nat) : M Session.t unit :=
  modify (λ s, Session.set_bullets (delete i (Session.bullets s))
                 (Session.set_bulletPool (Session.bulletPool s ++ [ba]) s)).

(** The [for (let i = room.bullets.length - 1; i >= 0; i--)] loop, entered
    with [n = i + 1].  The value returned is the list of the records the loop
    visited, in the order it visited them; the source returns nothing. *)
Fixpoint bullets_loop (n : nat) : M Session.t (list nat) :=
  match n with
  | 0 => mret []
  | S i =>
      s ← get_state;
      match Session.bullets s !! i with
      | None => throw
      | Some ba =>
          let b := advance (Session.records s !!! ba) in
          modify (Session.set_records (<[ba := b]> (Session.records s)));;
          (if out_of_play b then retire i ba
           else
             match hit b (Session.playersMap s) with
             | Some (playersMap, player) =>
                 modify (λ s, Session.set_alivePlayers
                   (set_delete (Player.socketId player) (Session.alivePlayers s))
                   (Session.set_playersMap playersMap s));;
                 retire i ba
             | None => mret ()
             end);;
          visited ← bullets_loop i;
          mret (ba :: visited)
      end
  end.

Definition reset_player (player : Player.t) : Player.t :=
  Player.set_mass 10 (Player.set_isDead false player).

Definition endAgarIoRoom (gameId : string) (a : nat) : M World.t unit :=
  room ← deref a;
  match Room.session room ≫= Session.simulationInterval with
  | Some h =>
      clearInterval h;;
      update_session a (Session.set_simulationInterval None)
  | None => mret ()
  end;;
  match Room.session room ≫= Session.broadcastInterval with
  | Some h =>
      clearInterval h;;
      update_session a (Session.set_broadcastInterval None)
  | None => mret ()
  end;;
  update_session a (λ s, Session.set_bullets []
    (Session.set_bulletPool (Session.bulletPool s ++ Session.bullets s) s));;
  update_session a (λ s, Session.set_playersMap
    (prod_map id reset_player <$> Session.playersMap s) s);;
  game ← the_game gameId;
  match obj_get (Js.show (Room.id room)) (Game.activeRooms game) with
  | Some _ =>
      update_game gameId (λ g, Game.set_activeRooms
        (obj_delete (Js.show (Room.id room)) (Game.activeRooms g)) g)
  | None => mret ()
  end;;
  if negb (Game.io game) then throw
  else
    room ← deref a;
    emit (GameEnded (channel_of (Game.id game) (Room.id room)) (Room.id room)
            (Room.session room ≫= Session.winner)).

(** The winner the tick records: the name of the only player left. *)
Definition sole_winner (s : Session.t) : option string :=
  if bool_decide (length (Session.alivePlayers s) = 1) then
    winnerId ← head (Session.alivePlayers s);
    Player.userName <$> obj_get winnerId (Session.playersMap s)
  else None.

Definition updateBullets (gameId : string) (a : nat) : M World.t unit :=
  room ← deref a;
  match Room.session room with
  | None => mret ()
  | Some s =>
      in_session a (bullets_loop (length (Session.bullets s)));;
      s ← session_of a;
      if bool_decide (length (Session.alivePlayers s) ≤ 1)
         && negb (Js.truthy_opt (Session.winner s))
      then
        update_session a (Session.set_winner (sole_winner s));;
        endAgarIoRoom gameId a
      else mret ()
  end.

(** ** sockets/index.js *)

(** [socket.on("requestRooms", ...)] *)
Definition requestRooms (socket : Socket.t) (gameId : string) : M World.t unit :=
  socket_join socket gameId;;
  ensureSingleEmptyRoom gameId;;
  broadcastRooms gameId.

Definition is_socket (socket : Socket.t) (p : Entry.t) : bool :=
  String.eqb (Entry.socketId p) (Socket.id socket).

(** [socket.on("joinRoom", ...)].  What [game.rooms] inherits under [roomId]
    passes the test for a room and has no [players] to search. *)
Definition joinRoom (socket : Socket.t) (gameId roomId : string)
    (userName : option string) : M World.t unit :=
  game ← getGame gameId;
  match obj_index roomId (Game.rooms game) with
  | Missing => mret ()
  | Inherited => throw
  | Own a =>
      room ← deref a;
      match find (is_socket socket) (Room.players room) with
      | Some existingPlayer => mret ()
      | None =>
          update_room a (λ r, Room.set_players (Room.players r ++ [
            Entry.mk (Socket.id socket)
              (default "Unknown" (Js.or_else
                 (Js.or_else userName (Socket.userName socket)) (Some "Unknown")))
              false]) r);;
          socket_join socket (channel_of (Some gameId) (Some roomId));;
          room ← deref a;
          if bool_decide (length (Room.players room) = 1)
          then ensureSingleEmptyRoom gameId
          else mret ()
      end;;
      broadcastRooms gameId
  end.

(** [socket.on("leaveRoom", ...)].  On what [game.rooms] inherits under
    [roomId] the socket leaves the channel before [room.players.filter]
    throws. *)
Definition leaveRoom (socket : Socket.t) (gameId roomId : string) : M World.t unit :=
  game ← getGame gameId;
  match obj_index roomId (Game.rooms game) with
  | Missing => mret ()
  | Inherited =>
      socket_leave socket (channel_of (Some gameId) (Some roomId));;
      throw
  | Own a =>
      socket_leave socket (channel_of (Some gameId) (Some roomId));;
      update_room a (λ r, Room.set_players
        (filter (λ p, is_socket socket p = false) (Room.players r)) r);;
      w ← get_state;
      game ← the_game gameId;
      room ← deref a;
      (if bool_decide (length (Room.players room) = 0)
          && bool_decide (1 < length (emptyRooms w game))
       then
         update_game gameId (λ g, Game.set_rooms
           (obj_delete roomId (Game.rooms g)) g);;
         updateRoomCountForEveryone gameId
       else mret ());;
      broadcastRooms gameId
  end.

(** [socket.on("joinGameChannel", ...)].  What [games] inherits under
    [gameId] takes the [io] and the [id] and has no [rooms] to index; what
    [rooms] or [activeRooms] inherits under [roomId] takes the [id].  These
    stores land on a built-in object of the runtime, which the world does not
    hold: they are not kept here. *)
Definition joinGameChannel (socket : Socket.t) (gameId roomId : string) :
    M World.t unit :=
  socket_join socket (channel_of (Some gameId) (Some roomId));;
  w ← get_state;
  match obj_index gameId (World.games w) with
  | Missing => mret ()
  | Inherited => throw
  | Own _ =>
      update_game gameId (λ g, Game.set_id (Some gameId) (Game.set_io true g));;
      game ← the_game gameId;
      match obj_get roomId (Game.rooms game) with
      | Some a => update_room a (Room.set_id (Some roomId))
      | None => mret ()
      end;;
      match obj_get roomId (Game.activeRooms game) with
      | Some a => update_room a (Room.set_id (Some roomId))
      | None => mret ()
      end
  end.

(** [socket.on("requestGameState", ...)].  What the registry inherits under
    [roomId] has no [alivePlayers], like a room that was never started. *)
Definition requestGameState (gameId roomId : string) : M World.t unit :=
  game ← getGame gameId;
  match find_room game roomId with
  | Missing => mret ()
  | Inherited => throw
  | Own a => broadcastGameState true (Some gameId) (Some roomId) a
  end.

(** [socket.on("playerMove", ...)] *)
Definition playerMove (socket : Socket.t) (gameId roomId : string)
    (direction : Js.val) : M World.t unit :=
  handlePlayerMove socket gameId roomId direction.

(** [socket.on("shoot", ...)] *)
Definition shoot (socket : Socket.t) (gameId roomId : string)
    (bulletType direction : Js.val) : M World.t unit :=
  handleShootBullet socket gameId roomId bulletType direction.

(** [endAgarIoRoom(game, room, games)] on a built-in object in the place of
    the room: it has no intervals, bullets or players to clear, and its [id]
    and [winner] are [undefined]. *)
Definition endAgarIoRoom_builtin (gameId : string) : M World.t unit :=
  game ← the_game gameId;
  match obj_get (Js.show None) (Game.activeRooms game) with
  | Some _ =>
      update_game gameId (λ g, Game.set_activeRooms
        (obj_delete (Js.show None) (Game.activeRooms g)) g)
  | None => mret ()
  end;;
  if negb (Game.io game) then throw
  else emit (GameEnded (channel_of (Game.id game) None) None None).

(** [socket.on("endGame", ...)].  What [activeRooms] inherits under [roomId]
    passes for an active room. *)
Definition endGame (gameId roomId : string) : M World.t unit :=
  game ← getGame gameId;
  match obj_index roomId (Game.activeRooms game) with
  | Missing => mret ()
  | Inherited => endAgarIoRoom_builtin gameId
  | Own a => endAgarIoRoom gameId a
  end.

(** The lobby branch of the disconnect handler, for one entry of
    [Object.entries(game.rooms)]. *)
Definition disconnect_lobby (socket : Socket.t) (gameId : string)
    (entry : string * nat) : M World.t unit :=
  let '(roomId, a) := entry in
  room ← deref a;
  match findIndex (is_socket socket) (Room.players room) with
  | None => mret ()
  | Some playerIndex =>
      update_room a (λ r, Room.set_players
        (delete playerIndex (Room.players r)) r);;
      w ← get_state;
      game ← the_game gameId;
      room ← deref a;
      (if bool_decide (length (Room.players room) = 0)
          && bool_decide (1 < length (emptyRooms w game))
       then
         update_game gameId (λ g, Game.set_rooms
           (obj_delete roomId (Game.rooms g)) g);;
         ensureSingleEmptyRoom gameId
       else mret ());;
      broadcastRooms gameId
  end.

(** The active-room branch, for one entry of
    [Object.entries(game.activeRooms)]. *)
Definition disconnect_active (socket : Socket.t) (gameId : string)
    (entry : string * nat) : M World.t unit :=
  let '(roomId, a) := entry in
  room ← deref a;
  match findIndex (is_socket socket) (Room.players room) with
  | None => mret ()
  | Some playerIndex =>
      update_room a (λ r, Room.set_players
        (delete playerIndex (Room.players r)) r);;
      room ← deref a;
      if bool_decide (length (Room.players room) = 0)
      then
        update_game gameId (λ g, Game.set_activeRooms
          (obj_delete roomId (Game.activeRooms g)) g);;
        broadcastRooms gameId
      else mret ()
  end.

(** [socket.on("disconnect", ...)] *)
Definition disconnect (socket : Socket.t) : M World.t unit :=
  modify (λ w, World.set_userList
    (obj_delete (Socket.id socket) (World.userList w)) w);;
  w ← get_state;
  emit (Users (entries (World.userList w)));;
  for_each (entries (World.games w)).*1 (λ gameId,
    game ← the_game gameId;
    for_each (entries (Game.rooms game)) (disconnect_lobby socket gameId);;
    game ← the_game gameId;
    for_each (entries (Game.activeRooms game)) (disconnect_active socket gameId)).

(** A periodic task comes due: the callback [startAgarIoRoom] gave to
    [setInterval] runs, if the task is still scheduled. *)
Definition fire (h : nat) : M World.t unit :=
  w ← get_state;
  match find (λ t, bool_decide (Timer.handle t = h)) (World.timers w) with
  | None => mret ()
  | Some t =>
      match Timer.task t with
      | Simulation => updateBullets (Timer.game t) (Timer.room t)
      | Broadcast =>
          game ← the_game (Timer.game t);
          room ← deref (Timer.room t);
          broadcastGameState (Game.io game) (Game.id game) (Room.id room)
            (Timer.room t)
      end
  end.

(** The events the server reacts to with the code above.  Of the other
    handlers of [sockets/index.js], ["user name"] and ["chat message"] touch
    neither the registry nor a session, and ["toggleReady"] and ["playCard"]
    run [startCountdown] of utils/gameUtils.js and games/biggestTomato.js,
    which are not among the sources. *)
Inductive Action :=
| RequestRooms (socket : Socket.t) (gameId : string)
| JoinRoom (socket : Socket.t) (gameId roomId : string) (userName : option string)
| LeaveRoom (socket : Socket.t) (gameId roomId : string)
| JoinGameChannel (socket : Socket.t) (gameId roomId : string)
| RequestGameState (gameId roomId : string)
| PlayerMove (socket : Socket.t) (gameId roomId : string) (direction : Js.val)
| Shoot (socket : Socket.t) (gameId roomId : string) (bulletType direction : Js.val)
| EndGame (gameId roomId : string)
| Disconnect (socket : Socket.t)
| Fire (h : nat).

Definition perform (act : Action) : M World.t unit :=
  match act with
  | RequestRooms socket gameId => requestRooms socket gameId
  | JoinRoom socket gameId roomId userName => joinRoom socket gameId roomId userName
  | LeaveRoom socket gameId roomId => leaveRoom socket gameId roomId
  | JoinGameChannel socket gameId roomId => joinGameChannel socket gameId roomId
  | RequestGameState gameId roomId => requestGameState gameId roomId
  | PlayerMove socket gameId roomId direction =>
      playerMove socket gameId roomId direction
  | Shoot socket gameId roomId bulletType direction =>
      shoot socket gameId roomId bulletType direction
  | EndGame gameId roomId => endGame gameId roomId
  | Disconnect socket => disconnect socket
  | Fire h => fire h
  end.

(** ** Sample worlds *)

Definition alice : Socket.t := Socket.mk "A" (Some "alice").
Definition bob : Socket.t := Socket.mk "B" (Some "bob").

(** One game type, ["1"], with the [io] reference stored on it.  Room ["r"]
    holds alice and bob and is among the active rooms, not yet started; room
    ["lobby"] is an empty lobby room. *)
Definition lobby_world : World.t :=
  World.mk
    [Room.mk (Some "r") [Entry.mk "A" "alice" true; Entry.mk "B" "bob" true] None;
     Room.mk (Some "lobby") [] None]
    [("1", Game.mk [("lobby", 1)] [("r", 0)] (Some "1") true)]
    [("A", "alice"); ("B", "bob")]
    [("A", "1-r"); ("B", "1-r")]
    [] 0 [].

(** [Math.random()] results that put alice at (109, 540) and bob at
    (135, 540). *)
Definition sample_rnd (i : nat) : float :=
  match i with
  | 0 => 0.1015625%float
  | 2 => 0.125%float
  | _ => 0.5%float
  end.

(** Room ["r"] started. *)
Definition session_world : World.t :=
  final (startAgarIoRoom sample_rnd "1" 0 lobby_world).

Definition east : Js.val := Js.Obj [("x", Js.Num 1); ("y", Js.Num 0)].
Definition west : Js.val := Js.Obj [("x", Js.Num (-1)); ("y", Js.Num 0)].

(** Alice and bob have each fired one bullet at the other. *)
Definition duel_world : World.t :=
  final (shoot bob "1" "r" (Js.Str "charged") west
    (final (shoot alice "1" "r" (Js.Str "charged") east session_world))).

(** Alice has fired two bullets at bob. *)
Definition volley_world : World.t :=
  final (shoot alice "1" "r" (Js.Str "charged") east
    (final (shoot alice "1" "r" (Js.Str "charged") east session_world))).

(** Observations on a world. *)
Definition session_at (w : World.t) (a : nat) : option Session.t :=
  Room.session (World.heap w !!! a).

Definition is_GameEnded (e : Event) : bool :=
  match e with GameEnded _ _ _ => true | _ => false end.

Definition gameEnded_events (w : World.t) : list Event :=
  filter (λ e, is_GameEnded e = true) (World.sent w).

Definition scheduled (w : World.t) (h : nat) : bool :=
  bool_decide (h ∈ Timer.handle <$> World.timers w).

(** The value a run returned, if it returned. *)
Definition result {S A} (r : Res S A) : option A :=
  match r with Done a _ => Some a | Threw _ => None end.

(** ** Transitions of a session and of the room store *)

(** What the handlers do to the bullets of a session, step by step.  Every
    change to the other fields is one step, [bstep_others]. *)
Inductive bullet_step : Session.t → Session.t → Prop :=
| bstep_others s playersMap alivePlayers sim bc winner :
    bullet_step s
      (Session.mk playersMap alivePlayers (Session.records s)
         (Session.bullets s) (Session.bulletIdCounter s)
         (Session.bulletPool s) sim bc winner)
| bstep_advance s ba :
    bullet_step s
      (Session.set_records
         (<[ba := advance (Session.records s !!! ba)]> (Session.records s)) s)
| bstep_retire s i ba :
    Session.bullets s !! i = Some ba →
    bullet_step s
      (Session.set_bullets (delete i (Session.bullets s))
         (Session.set_bulletPool (Session.bulletPool s ++ [ba]) s))
| bstep_spawn s mk ba b s1 :
    (∀ id, Bullet.id (mk id) = id) →
    acquire mk s = Done (ba, b) s1 →
    bullet_step s (Session.set_bullets (Session.bullets s1 ++ [ba]) s1)
| bstep_drain s :
    bullet_step s
      (Session.set_bullets []
         (Session.set_bulletPool (Session.bulletPool s ++ Session.bullets s) s)).

(** [w'] has every room object of [w], with its session related by [T] (a
    room without session still has none), and the room objects created since
    have no session. *)
Definition sessions_related (T : Session.t → Session.t → Prop)
    (w w' : World.t) : Prop :=
  ∀ a,
    match World.heap w !! a with
    | Some r =>
        ∃ r', World.heap w' !! a = Some r' ∧
          match Room.session r with
          | Some s => ∃ s', Room.session r' = Some s' ∧ T s s'
          | None => Room.session r' = None
          end
    | None => ∀ r', World.heap w' !! a = Some r' → Room.session r' = None
    end.

(** A property of every session in the store. *)
Definition all_sessions (P : Session.t → Prop) (w : World.t) : Prop :=
  ∀ a r s, World.heap w !! a = Some r → Room.session r = Some s → P s.

(** Every run of [m] ends in a state related to the one it started in. *)
Definition preserves {S A} (R : S → S → Prop) (m : M S A) : Prop :=
  ∀ s, R s (final (m s)).

(** The session of room [a], for worlds in which it has one. *)
Definition the_session (w : World.t) (a : nat) : Session.t :=
  default (Session.mk [] [] [] [] 0 [] None None None) (session_at w a).

(** A direction with a [NaN] component. *)
Definition nowhere : Js.val := Js.Obj [("x", Js.Num Js.nan); ("y", Js.Num 0)].


(** What [endAgarIoRoom] leaves of a session, and of the world. *)
Definition ended (s : Session.t) : Session.t :=
  Session.mk (prod_map id reset_player <$> Session.playersMap s)
    (Session.alivePlayers s) (Session.records s) [] (Session.bulletIdCounter s)
    (Session.bulletPool s ++ Session.bullets s) None None (Session.winner s).

Definition cleared (h : option nat) (timers : list Timer.t) : list Timer.t :=
  match h with
  | Some h => filter (λ t, Timer.handle t ≠ h) timers
  | None => timers
  end.

Definition end_world (gameId : string) (a : nat) (w : World.t) : World.t :=
  let room := World.heap w !!! a in
  let game := default inhabitant (obj_get gameId (World.games w)) in
  World.mk
    (alter (λ r, Room.set_session (ended <$> Room.session r) r) a (World.heap w))
    (obj_alter (λ g, Game.set_activeRooms
       (obj_delete (Js.show (Room.id room)) (Game.activeRooms g)) g)
       gameId (World.games w))
    (World.userList w) (World.joined w)
    (cleared (Room.session room ≫= Session.broadcastInterval)
       (cleared (Room.session room ≫= Session.simulationInterval) (World.timers w)))
    (World.nextTimer w)
    (World.sent w ++
       if Game.io game
       then [GameEnded (channel_of (Game.id game) (Room.id room)) (Room.id room)
               (Room.session room ≫= Session.winner)]
       else []).

(** World [w] with [s] as the session of room [a]. *)
Definition with_session (a : nat) (s : Session.t) (w : World.t) : World.t :=
  World.set_heap (alter (Room.set_session (Some s)) a (World.heap w)) w.

(** The win condition the tick tests: at most one player alive and no
    winner recorded. *)
Definition win_check (s : Session.t) : bool :=
  bool_decide (length (Session.alivePlayers s) ≤ 1)
  && negb (Js.truthy_opt (Session.winner s)).

(** What a disconnect leaves of a world: every room object keeps its session
    and its id and loses players at most; the scheduled tasks stay; no
    [gameEnded] is emitted; a game loses entries of [activeRooms] at most. *)
Definition disconnect_frame (w w' : World.t) : Prop :=
  (∀ a r, World.heap w !! a = Some r →
     ∃ r', World.heap w' !! a = Some r'
           ∧ Room.session r' = Room.session r
           ∧ Room.id r' = Room.id r
           ∧ Room.players r' `sublist_of` Room.players r)
  ∧ World.timers w' = World.timers w
  ∧ gameEnded_events w' = gameEnded_events w
  ∧ (∀ gameId game, obj_get gameId (World.games w) = Some game →
       ∃ game', obj_get gameId (World.games w') = Some game'
                ∧ Game.activeRooms game' `sublist_of` Game.activeRooms game).

(** What the active-room branch of a disconnect does for one entry
    [(roomId, a)] of [game.activeRooms]. *)
Definition disconnect_active_effect (socket : Socket.t) (gameId roomId : string)
    (a : nat) (w : World.t) : World.t :=
  match findIndex (is_socket socket) (Room.players (World.heap w !!! a)) with
  | None => w
  | Some playerIndex =>
      let w1 := World.set_heap
        (alter (λ r, Room.set_players (delete playerIndex (Room.players r)) r) a
           (World.heap w)) w in
      if bool_decide (length (Room.players (World.heap w1 !!! a)) = 0)
      then final (broadcastRooms gameId
             (World.set_games
                (obj_alter (λ g, Game.set_activeRooms
                   (obj_delete roomId (Game.activeRooms g)) g) gameId
                   (World.games w1)) w1))
      else w1
  end.

(** The bullet records of a session are conserved: every record the session
    allocated is in the live list or in the pool, and in one place only. *)
Definition conserved (s : Session.t) : Prop :=
  Session.bullets s ++ Session.bulletPool s ≡ₚ seq 0 (length (Session.records s)).

(** Adding 1 to the counter yields a larger number.  The counter is a
    binary64 number: this is so at every integer below [2^53]; at [2^53]
    adding 1 changes it no more. *)
Definition advances (c : float) : Prop :=
  PrimFloat.ltb c (PrimFloat.add c 1) = true.

(** [q] with [j] zero bits appended. *)
Definition shift_left (q : positive) (j : nat) : positive := Nat.iter j xO q.

(** The bits that the 53-bit mantissa of a binary64 number has to spare for
    [q]. *)
Definition spare_bits (q : positive) : nat := 53 - Pos.to_nat (digits2_pos q).

(** The binary64 number of the positive integer [q], for [q] below [2^53]:
    the mantissa is [q], shifted to fill 53 bits, and the exponent undoes the
    shift. *)
Definition binary64_of (q : positive) : spec_float :=
  S754_finite false (shift_left q (spare_bits q)) (- Z.of_nat (spare_bits q)).

(** The JavaScript number of the positive integer [q]. *)
Definition number (q : positive) : float := SF2Prim (binary64_of q).

(** No two records carry the same id, and every id was issued: it is below
    the counter. *)
Definition ids_issued (s : Session.t) : Prop :=
  NoDup (Bullet.id <$> Session.records s)
  ∧ Forall (λ b, PrimFloat.ltb (Bullet.id b) (Session.bulletIdCounter s) = true)
      (Session.records s).

Definition wf_bullets (s : Session.t) : Prop := conserved s ∧ ids_issued s.

(** From [s] to [s'] no bullet was spawned: the counter and the id of every
    record are as they were, and no record became live. *)
Definition no_spawn (s s' : Session.t) : Prop :=
  Session.bulletIdCounter s' = Session.bulletIdCounter s
  ∧ Bullet.id <$> Session.records s' = Bullet.id <$> Session.records s
  ∧ Session.bullets s' ⊆ Session.bullets s.

(** From [s] to [s'] one bullet was spawned, in record [ba]: the record was
    the last of the pool, or is new; it got the value of the counter as its
    id and went to the end of the live list; 1 was added to the counter; and
    every other record kept its id. *)
Definition spawned (ba : nat) (s s' : Session.t) : Prop :=
  Session.bulletIdCounter s' = PrimFloat.add (Session.bulletIdCounter s) 1
  ∧ Session.bullets s' = Session.bullets s ++ [ba]
  ∧ Bullet.id <$> Session.records s' !! ba = Some (Session.bulletIdCounter s)
  ∧ (∀ i, i ≠ ba →
       Bullet.id <$> Session.records s' !! i = Bullet.id <$> Session.records s !! i)
  ∧ (Session.bulletPool s = Session.bulletPool s' ++ [ba]
     ∨ (Session.bulletPool s = [] ∧ Session.bulletPool s' = []
        ∧ ba = length (Session.records s))).

(** What one event does to the bullets of a session whose records are
    conserved: it spawns none, or one. *)
Definition ids_step (s s' : Session.t) : Prop :=
  conserved s → no_spawn s s' ∨ ∃ ba, spawned ba s s'.

(** The started room of [session_world] with its counter at [2^53]. *)
Definition worn_world : World.t :=
  with_session 0
    (Session.set_bulletIdCounter 9007199254740992 (the_session session_world 0))
    session_world.

(** Four ticks after alice fired west: her bullet has left the world and its
    record is in the pool. *)
Definition recycle_world : World.t :=
  final (fire 0 (final (fire 0 (final (fire 0 (final (fire 0
    (final (shoot alice "1" "r" (Js.Str "charged") west session_world))))))))).

(** ** The lobby registry *)

(** [game] has a lobby room with no player. *)
Definition has_empty_room (w : World.t) (game : Game.t) : Prop :=
  emptyRooms w game ≠ [].

(** The registry is well formed: the room ids of a game are distinct keys of
    [game.rooms], every room they name is in the store, and no room object is
    a lobby room of two games. *)
Definition registry_ok (w : World.t) : Prop :=
  (∀ gameId game, obj_get gameId (World.games w) = Some game →
     NoDup (Game.rooms game).*1
     ∧ ∀ a, a ∈ (Game.rooms game).*2 → a < length (World.heap w))
  ∧ ∀ gameId1 gameId2 game1 game2 a,
      gameId1 ≠ gameId2 →
      obj_get gameId1 (World.games w) = Some game1 →
      obj_get gameId2 (World.games w) = Some game2 →
      a ∈ (Game.rooms game1).*2 → a ∉ (Game.rooms game2).*2.

(** From [w] to [w'] the lobby is untouched: every room object keeps its
    players, every game keeps its lobby rooms, and a game that is new has
    none. *)
Definition lobby_unchanged (w w' : World.t) : Prop :=
  (∀ a r, World.heap w !! a = Some r →
     ∃ r', World.heap w' !! a = Some r' ∧ Room.players r' = Room.players r)
  ∧ (∀ gameId game, obj_get gameId (World.games w) = Some game →
       ∃ game', obj_get gameId (World.games w') = Some game'
                ∧ Game.rooms game' = Game.rooms game)
  ∧ (∀ gameId game', obj_get gameId (World.games w') = Some game' →
       obj_get gameId (World.games w) = None → Game.rooms game' = []).

(** From [w] to [w'] the lobby shrank: no room object was created and none
    gained a player, no game was created, and a game kept each lobby room or
    dropped it, empty, with an empty room left. *)
Definition lobby_shrinks (w w' : World.t) : Prop :=
  length (World.heap w') = length (World.heap w)
  ∧ (∀ a r, World.heap w !! a = Some r →
       ∃ r', World.heap w' !! a = Some r'
             ∧ Room.players r' `sublist_of` Room.players r)
  ∧ (∀ gameId, obj_get gameId (World.games w') = None ↔
               obj_get gameId (World.games w) = None)
  ∧ ∀ gameId game, obj_get gameId (World.games w) = Some game →
      ∃ game', obj_get gameId (World.games w') = Some game'
        ∧ Game.rooms game' `sublist_of` Game.rooms game
        ∧ (has_empty_room w game → has_empty_room w' game')
        ∧ ∀ entry, entry ∈ Game.rooms game →
            entry ∈ Game.rooms game'
            ∨ (is_empty_room w' entry.2 = true ∧ has_empty_room w' game').

(** What an event keeps of the lobby: every game is still there; a game
    that had an empty room has one; a game kept each lobby room or dropped
    it, empty, with an empty room left. *)
Definition lobby_kept (w w' : World.t) : Prop :=
  ∀ gameId game, obj_get gameId (World.games w) = Some game →
    ∃ game', obj_get gameId (World.games w') = Some game'
      ∧ (has_empty_room w game → has_empty_room w' game')
      ∧ ∀ entry, entry ∈ Game.rooms game →
          entry ∈ Game.rooms game'
          ∨ (is_empty_room w' entry.2 = true ∧ has_empty_room w' game').

(** The well-formed registry across a handler that only shrinks the lobby. *)
Definition shrinking (w w' : World.t) : Prop :=
  registry_ok w → registry_ok w' ∧ lobby_shrinks w w'.

(** From [w] to [w'] the lobby grew: the registry stays well formed, the room
    objects of [w] are still there with the same players, and every game kept
    its lobby rooms. *)
Definition lobby_grows (w w' : World.t) : Prop :=
  registry_ok w →
  registry_ok w'
  ∧ (∀ a r, World.heap w !! a = Some r →
       ∃ r', World.heap w' !! a = Some r' ∧ Room.players r' = Room.players r)
  ∧ (∀ gameId game, obj_get gameId (World.games w) = Some game →
       ∃ game', obj_get gameId (World.games w') = Some game'
                ∧ ∀ entry, entry ∈ Game.rooms game → entry ∈ Game.rooms game').

(** A game of [w'] with lobby rooms has an empty one, or had lobby rooms
    already in [w]. *)
Definition lobby_from (w w' : World.t) : Prop :=
  ∀ gameId game', obj_get gameId (World.games w') = Some game' →
    Game.rooms game' ≠ [] →
    has_empty_room w' game'
    ∨ ∃ game, obj_get gameId (World.games w) = Some game ∧ Game.rooms game ≠ [].

(** The invariant of the lobby: the registry is well formed, and a game type
    with lobby rooms has an empty one. *)
Definition lobby_ok (w : World.t) : Prop :=
  registry_ok w
  ∧ ∀ gameId game, obj_get gameId (World.games w) = Some game →
      Game.rooms game ≠ [] → has_empty_room w game.

(** The server as [module.exports] leaves it: [games] and [userList] are
    empty objects. *)
Definition initial_world : World.t := World.mk [] [] [] [] [] 0 [].

(** The server reacting to a sequence of events, a handler that throws
    leaving the state as it is at the throw. *)
Definition run (acts : list Action) (w : World.t) : World.t :=
  foldl (λ w act, final (perform act w)) w acts.

(** ** Players and bullets of a session *)

(** The players a bullet passes over: its owner, the dead, and those out of
    its reach. *)
Definition spared (b : Bullet.t) (player : Player.t) : Prop :=
  Player.socketId player = Bullet.ownerId b
  ∨ Player.isDead player = true
  ∨ collides b player = false.

(** [v] is neither below [0] nor above [max]. *)
Definition within (max v : float) : Prop :=
  PrimFloat.ltb v 0 = false ∧ PrimFloat.ltb max v = false.

(** A bullet as [handleShootBullet] makes them: speed 30, radius 5 or 25, no
    range limit. *)
Definition stock_bullet (b : Bullet.t) : Prop :=
  Bullet.speed b = 30%float
  ∧ (Bullet.radius b = 5%float ∨ Bullet.radius b = 25%float)
  ∧ Bullet.rangeLimit b = Js.Infinity.

Definition stock_bullets (s : Session.t) : Prop :=
  Forall stock_bullet (Session.records s).

(** The first four tests of the retirement check of [updateBullets]: the
    bullet has left the world. *)
Definition outside (b : Bullet.t) : bool :=
  PrimFloat.ltb (Bullet.x b) 0
  || PrimFloat.ltb WORLD_WIDTH (Bullet.x b)
  || PrimFloat.ltb (Bullet.y b) 0
  || PrimFloat.ltb WORLD_HEIGHT (Bullet.y b).

(** A property of sessions that holds again after a step. *)
Definition keeps (P : Session.t → Prop) (s s' : Session.t) : Prop := P s → P s'.

(** The players of a session are well formed: [playersMap] has one entry for
    each socket id, filed under the id of the player; no id is twice in
    [alivePlayers]; and every alive id names a player that is not dead. *)
Definition roster_ok (s : Session.t) : Prop :=
  NoDup (Session.playersMap s).*1
  ∧ Forall (λ kp, Player.socketId kp.2 = kp.1) (Session.playersMap s)
  ∧ NoDup (Session.alivePlayers s)
  ∧ ∀ k, k ∈ Session.alivePlayers s →
      ∃ p, obj_get k (Session.playersMap s) = Some p ∧ Player.isDead p = false.

(** From [s] to [s'] the players are the same, under the same names and in
    the same order, and nobody came back to life in [alivePlayers]. *)
Definition same_roster (s s' : Session.t) : Prop :=
  (λ kp, (kp.1, Player.userName kp.2)) <$> Session.playersMap s'
  = (λ kp, (kp.1, Player.userName kp.2)) <$> Session.playersMap s
  ∧ Session.alivePlayers s' `sublist_of` Session.alivePlayers s.

Definition roster_step (s s' : Session.t) : Prop :=
  same_roster s s' ∧ (roster_ok s → roster_ok s').

(** A player as [startAgarIoRoom] leaves it: filed under its id, alive, of
    mass 10 and at rest. *)
Definition fresh_player (kp : string * Player.t) : Prop :=
  Player.socketId kp.2 = kp.1
  ∧ Player.isDead kp.2 = false
  ∧ Player.mass kp.2 = 10%float
  ∧ Player.lastDx kp.2 = 0%float
  ∧ Player.lastDy kp.2 = 0%float.

(** ** Sockets in the rooms *)

(** No socket is twice in the [players] of a room. *)
Definition players_unique (w : World.t) : Prop :=
  ∀ a r, World.heap w !! a = Some r → NoDup (Entry.socketId <$> Room.players r).

Definition unique_kept (w w' : World.t) : Prop :=
  players_unique w → players_unique w'.

(** [socket] is not among the [players] of room [a]. *)
Definition absent (socket : Socket.t) (w : World.t) (a : nat) : Prop :=
  Socket.id socket ∉ Entry.socketId <$> Room.players (World.heap w !!! a).

(** [socket] is in no room of the registry, lobby or active, and not in the
    user list. *)
Definition gone (socket : Socket.t) (w : World.t) : Prop :=
  obj_get (Socket.id socket) (World.userList w) = None
  ∧ ∀ gameId game entry,
      obj_get gameId (World.games w) = Some game →
      entry ∈ Game.rooms game ++ Game.activeRooms game →
      absent socket w entry.2.

(** From [w] to [w'] the user list stayed, no room gained [socket], no room
    got a socket twice, and a room of the registry of [w'] was one of the
    same game in [w] or is without [socket]. *)
Definition cleaning (socket : Socket.t) (w w' : World.t) : Prop :=
  World.userList w' = World.userList w
  ∧ (∀ a, absent socket w a → absent socket w' a)
  ∧ (players_unique w → players_unique w')
  ∧ (∀ gameId game' entry,
       obj_get gameId (World.games w') = Some game' →
       entry ∈ Game.rooms game' →
       absent socket w' entry.2
       ∨ ∃ game, obj_get gameId (World.games w) = Some game ∧ entry ∈ Game.rooms game)
  ∧ (∀ gameId game' entry,
       obj_get gameId (World.games w') = Some game' →
       entry ∈ Game.activeRooms game' →
       absent socket w' entry.2
       ∨ ∃ game, obj_get gameId (World.games w) = Some game
                 ∧ entry ∈ Game.activeRooms game).

(** ** The start of a session, as a function of the world *)

(** The session [startAgarIoRoom] installs on a room, given the handles of
    its two timers. *)
Definition started (rnd : nat → float) (room : Room.t) (sim bc : nat) : Session.t :=
  let ps := imap (spawn_player rnd) (Room.players room) in
  Session.mk (foldl (λ m p, obj_set (Player.socketId p) p m) [] ps)
    (foldl (λ s p, set_add (Player.socketId p) s) [] ps)
    [] [] 1 [] (Some sim) (Some bc) None.

(** The world [startAgarIoRoom] leaves. *)
Definition start_world (rnd : nat → float) (gameId : string) (a : nat)
    (w : World.t) : World.t :=
  let room := World.heap w !!! a in
  let n := World.nextTimer w in
  World.mk
    (alter (Room.set_session (Some (started rnd room n (S n)))) a (World.heap w))
    (World.games w) (World.userList w) (World.joined w)
    (cleared (Room.session room ≫= Session.broadcastInterval)
       (cleared (Room.session room ≫= Session.simulationInterval) (World.timers w))
     ++ [Timer.mk n Simulation gameId a; Timer.mk (S n) Broadcast gameId a])
    (S (S n)) (World.sent w).

(** Every scheduled timer has a handle that [setInterval] gave out. *)
Definition timers_ok (w : World.t) : Prop :=
  Forall (λ t, Timer.handle t < World.nextTimer w) (World.timers w).

(** ** sockets/index.js: the user list *)

(** What the callback of an event was called with. *)
Module Reply.
Record t := mk {
  success : bool;
  error : string;
}.
End Reply.

(** [socket.on("user name", ...)].  [callback] tells whether the client
    passed an acknowledgement function; calling one that is not there throws.
    Returns the socket as the handler leaves it and what the callback was
    called with, if it was called. *)
Definition user_name (socket : Socket.t) (userName : Js.val) (callback : bool) :
    M World.t (Socket.t * option Reply.t) :=
  match userName with
  | Js.Str name =>
      let socket := Socket.mk (Socket.id socket) (Some name) in
      modify (λ w, World.set_userList
        (obj_set (Socket.id socket) name (World.userList w)) w);;
      w ← get_state;
      emit (Users (entries (World.userList w)));;
      mret (socket, None)
  | _ =>
      if callback
      then mret (socket, Some (Reply.mk false "Invalid user name."))
      else throw
  end.

(** The name [joinRoom] files a player under:
    [userName || socket.userName || "Unknown"]. *)
Definition display_name (userName : option string) (socket : Socket.t) : string :=
  default "Unknown"
    (Js.or_else (Js.or_else userName (Socket.userName socket)) (Some "Unknown")).

(** ** The periodic tasks *)

(** Every scheduled task belongs to a room that holds a session. *)
Definition timers_live (w : World.t) : Prop :=
  ∀ t, t ∈ World.timers w → is_Some (session_at w (Timer.room t)).

(** From [w] to [w'] no task was scheduled, and no handle was given out. *)
Definition timers_shrink (w w' : World.t) : Prop :=
  World.timers w' `sublist_of` World.timers w
  ∧ World.nextTimer w' = World.nextTimer w.

(** The game holds the [io] reference. *)
Definition holds_io (w : World.t) (gameId : string) : Prop :=
  Game.io (default inhabitant (obj_get gameId (World.games w))) = true.
(** * Properties *)

Ltac munfold :=
  unfold mbind, M_bind, mret, M_ret, get_state, modify, throw, retire, obj_index in *.

(** ** Arrays and objects *)

Lemma take_delete_same {A} (l : list A) (i : nat) :
  take i (delete i l) = take i l.
Proof.
  revert i. induction l as [|x l IH]; intros [|i]; simpl; auto. by rewrite IH.
Qed.

Lemma pop_snoc {A} (l : list A) (x : A) : pop (l ++ [x]) = Some (x, l).
Proof. unfold pop. by rewrite reverse_snoc, reverse_involutive. Qed.

Lemma pop_Some {A} (l l' : list A) (x : A) :
  pop l = Some (x, l') → l = l' ++ [x].
Proof.
  unfold pop. destruct (reverse l) as [|y r] eqn:E; [done|].
  intros [= <- <-]. apply (inj reverse). by rewrite reverse_snoc, reverse_involutive.
Qed.

Lemma pop_None {A} (l : list A) : pop l = None → l = [].
Proof.
  unfold pop. destruct (reverse l) eqn:E; [|done].
  intros _. apply (inj reverse). by rewrite E.
Qed.

Lemma obj_index_Own {A} (k : string) (o : list (string * A)) (a : A) :
  obj_get k o = Some a ↔ obj_index k o = Own a.
Proof.
  unfold obj_index. destruct (obj_get k o); [|case_bool_decide]; naive_solver.
Qed.

Lemma obj_index_Missing {A} (k : string) (o : list (string * A)) :
  obj_get k o = None ∧ k ∉ prototype_keys ↔ obj_index k o = Missing.
Proof.
  unfold obj_index. destruct (obj_get k o); [|case_bool_decide]; naive_solver.
Qed.

Lemma obj_index_Inherited {A} (k : string) (o : list (string * A)) :
  obj_get k o = None ∧ k ∈ prototype_keys ↔ obj_index k o = Inherited.
Proof.
  unfold obj_index. destruct (obj_get k o); [|case_bool_decide]; naive_solver.
Qed.

Lemma insert_indexed_perm {B} (x : N * B) (l : list (N * B)) :
  insert_indexed x l ≡ₚ x :: l.
Proof.
  induction l as [|y l IH]; simpl; [done|].
  case_match; [done|]. rewrite IH. apply Permutation_swap.
Qed.

Lemma foldl_insert_indexed_perm {B} (l sorted : list (N * B)) :
  foldl (λ sorted x, insert_indexed x sorted) sorted l ≡ₚ sorted ++ l.
Proof.
  revert sorted. induction l as [|x l IH]; intros sorted; simpl.
  - by rewrite app_nil_r.
  - rewrite IH, insert_indexed_perm. simpl. apply Permutation_middle.
Qed.

(** [Object.entries] lists every property once. *)
Lemma entries_perm {A} (o : list (string * A)) : entries o ≡ₚ o.
Proof.
  unfold entries. rewrite foldl_insert_indexed_perm. simpl.
  assert (snd <$> omap (λ kv : string * A,
            match array_index kv.1 with
            | Some n => Some (n, kv)
            | None => None
            end) o
          = filter (λ kv, ¬ array_index kv.1 = None) o) as ->.
  { induction o as [|kv o IH]; [done|]. simpl. rewrite filter_cons.
    destruct (array_index kv.1) eqn:Hk; simpl.
    - f_equal. apply IH.
    - apply IH. }
  rewrite Permutation_app_comm. apply filter_app_complement.
Qed.

Lemma elem_of_entries {A} (o : list (string * A)) (kv : string * A) :
  kv ∈ entries o ↔ kv ∈ o.
Proof. by rewrite entries_perm. Qed.

Lemma entries_keys_perm {A} (o : list (string * A)) : (entries o).*1 ≡ₚ o.*1.
Proof. by rewrite entries_perm. Qed.

(** Array indices first, in numeric order, then the other names as they were
    created: ["01"] and ["-1"] are no array indices. *)
Example entries_order :
  entries [("b", 1); ("10", 2); ("a", 3); ("9", 4); ("01", 5); ("0", 6); ("-1", 7)]
  = [("0", 6); ("9", 4); ("10", 2); ("b", 1); ("a", 3); ("01", 5); ("-1", 7)].
Proof. by vm_compute. Qed.

Lemma plain_r : "r" ∉ prototype_keys.
Proof. apply (bool_decide_eq_false_1 ("r" ∈ prototype_keys)). by vm_compute. Qed.

(** ** The projectile loop *)

Lemma bstep_same_bullets (s s' : Session.t) :
  Session.records s' = Session.records s →
  Session.bullets s' = Session.bullets s →
  Session.bulletIdCounter s' = Session.bulletIdCounter s →
  Session.bulletPool s' = Session.bulletPool s →
  bullet_step s s'.
Proof.
  destruct s, s'; simpl; intros -> -> -> ->.
  apply (bstep_others (Session.mk _ _ _ _ _ _ _ _ _)).
Qed.

(** The loop entered at index [n - 1] returns, having visited the first [n]
    live records from the last to the first, by steps of [bullet_step]. *)
Lemma bullets_loop_spec (n : nat) (s : Session.t) :
  n ≤ length (Session.bullets s) →
  ∃ s', bullets_loop n s = Done (reverse (take n (Session.bullets s))) s'
        ∧ rtc bullet_step s s'
        ∧ length (Session.bullets s') ≤ length (Session.bullets s).
Proof.
  revert s. induction n as [|i IH]; intros s Hn.
  - exists s. rewrite take_0. split_and!; [done|done|lia].
  - destruct (lookup_lt_is_Some_2 (Session.bullets s) i) as [ba Hba]; [lia|].
    cbn [bullets_loop]. munfold. rewrite Hba.
    set (s1 := Session.set_records _ s).
    assert (rtc bullet_step s s1) as H1 by (apply rtc_once, bstep_advance).
    assert (∀ s2, Session.bullets s2 = Session.bullets s1 → rtc bullet_step s s2 →
      ∃ s', match bullets_loop i (Session.set_bullets (delete i (Session.bullets s2))
                  (Session.set_bulletPool (Session.bulletPool s2 ++ [ba]) s2)) with
            | Done a s'0 => Done (ba :: a) s'0 | Threw s'0 => Threw s'0 end
            = Done (reverse (take (S i) (Session.bullets s))) s'
            ∧ rtc bullet_step s s'
            ∧ length (Session.bullets s') ≤ length (Session.bullets s))
      as Hret.
    { intros s2 Hb Hs2.
      set (s3 := Session.set_bullets _ _).
      destruct (IH s3) as (s' & Heq & Hrt & Hlen).
      { subst s3. simpl. rewrite Hb. simpl. rewrite length_delete; [lia|eauto]. }
      exists s'. rewrite Heq. split_and!.
      - subst s3; simpl. rewrite Hb; simpl. rewrite take_delete_same.
        by rewrite (take_S_r _ _ _ Hba), reverse_snoc.
      - etrans; [exact Hs2|]. etrans; [|exact Hrt].
        apply rtc_once. subst s3. apply bstep_retire. by rewrite Hb.
      - etrans; [exact Hlen|]. subst s3; simpl. rewrite Hb; simpl.
        rewrite length_delete; [lia|eauto]. }
    destruct (out_of_play _).
    + apply (Hret s1); done.
    + destruct (hit _ _) as [[pm p]|].
      * apply (Hret (Session.set_alivePlayers _ (Session.set_playersMap pm s1))); [done|].
        etrans; [exact H1|]. apply rtc_once. by apply bstep_same_bullets.
      * destruct (IH s1) as (s' & Heq & Hrt & Hlen); [simpl; lia|].
        exists s'. rewrite Heq. split_and!.
        -- simpl. by rewrite (take_S_r _ _ _ Hba), reverse_snoc.
        -- by etrans.
        -- done.
Qed.

(** C7, as amended: within one simulation tick the live projectiles are
    processed in reverse insertion order.  For every session, the loop of the
    tick returns after visiting each record of the live list once, the one
    appended last first. *)
Theorem bullets_loop_visits_in_reverse (s : Session.t) :
  result (bullets_loop (length (Session.bullets s)) s)
  = Some (reverse (Session.bullets s)).
Proof.
  destruct (bullets_loop_spec (length (Session.bullets s)) s) as (s' & -> & _);
    [done|].
  simpl. by rewrite firstn_all.
Qed.

(** C7 fails as stated: alice has fired records 0 and then 1 at bob.  The
    tick visits record 1 before record 0; record 1 kills bob and is retired,
    and record 0, fired first, finds nobody left to hit and stays live. *)
Lemma volley_processed_last_first :
  Session.bullets (the_session volley_world 0) = [0; 1]
  ∧ result (bullets_loop 2 (the_session volley_world 0)) = Some [1; 0]
  ∧ Session.bullets (final (bullets_loop 2 (the_session volley_world 0))) = [0]
  ∧ Session.bulletPool (final (bullets_loop 2 (the_session volley_world 0))) = [1].
Proof. by vm_compute. Qed.

(** ** Events that name a room without session *)

(** C4: a move or a shot that names a lobby room which was never started
    makes the handler throw: [room.playersMap] is [undefined] there. *)
Theorem move_and_shoot_throw_on_lobby_room :
  playerMove alice "1" "lobby" (Js.Str "up") session_world = Threw session_world
  ∧ shoot alice "1" "lobby" (Js.Str "charged") east session_world
    = Threw session_world.
Proof. by vm_compute. Qed.

(** C5: a request for the state of a lobby room which was never started
    makes [broadcastGameState] throw: [room.alivePlayers] is [undefined]
    there. *)
Theorem requestGameState_throws_on_lobby_room :
  requestGameState "1" "lobby" session_world = Threw session_world.
Proof. by vm_compute. Qed.

(** ** Validation of a shot *)

Lemma known_bulletType_false (bulletType : Js.val) :
  bulletType ≠ Js.Str "charged" → bulletType ≠ Js.Str "fullyCharged" →
  known_bulletType bulletType = false.
Proof.
  intros H1 H2. destruct bulletType as [| | | |t|]; simpl; try done.
  apply orb_false_intro; apply String.eqb_neq; congruence.
Qed.

(** C6, as amended: a shot aimed at a started room is dropped, with no
    change of state and nothing emitted, whenever the shooter is unknown or
    dead, the direction is missing, one of its components [x], [y] is not of
    type number, or the kind is neither ["charged"] nor ["fullyCharged"]. *)
Theorem handleShootBullet_rejects (w : World.t) (socket : Socket.t)
    (gameId roomId : string) (bulletType direction : Js.val)
    (game : Game.t) (a : nat) (s : Session.t) :
  obj_get gameId (World.games w) = Some game →
  find_room game roomId = Own a →
  session_at w a = Some s →
  obj_get (Socket.id socket) (Session.playersMap s) = None
  ∨ (∃ player, obj_get (Socket.id socket) (Session.playersMap s) = Some player
               ∧ Player.isDead player = true)
  ∨ Js.truthy direction = false
  ∨ Js.is_number (Js.get direction "x") = false
  ∨ Js.is_number (Js.get direction "y") = false
  ∨ (bulletType ≠ Js.Str "charged" ∧ bulletType ≠ Js.Str "fullyCharged") →
  handleShootBullet socket gameId roomId bulletType direction w = Done () w.
Proof.
  intros Hg Hr Hs Hrej. unfold handleShootBullet, session_of. munfold.
  rewrite Hg, Hr. unfold session_at in Hs. rewrite Hs.
  destruct (obj_get (Socket.id socket) _) as [player|] eqn:Hp; [|done].
  destruct (Player.isDead player) eqn:Hd; [done|].
  assert (shot_rejected bulletType direction = true) as ->; [|done].
  unfold shot_rejected.
  destruct Hrej as [?|[(p & ? & ?)|[->|[->|[->|[H1 H2]]]]]];
    [done|congruence|done| | |].
  - by rewrite orb_true_r.
  - by rewrite !orb_true_r.
  - rewrite known_bulletType_false by done. by rewrite !orb_true_r.
Qed.

Lemma handleShootBullet_rejects_witness :
  handleShootBullet alice "1" "r" (Js.Str "huge") east session_world
  = Done () session_world.
Proof.
  apply (handleShootBullet_rejects session_world alice "1" "r" (Js.Str "huge") east
           (Game.mk [("lobby", 1)] [("r", 0)] (Some "1"%string) true) 0
           (the_session session_world 0)).
  - reflexivity.
  - reflexivity.
  - reflexivity.
  - do 5 right. split; discriminate.
Defined.

(** C6 fails as stated: a direction whose [x] is [NaN] passes the check, and
    the shot puts a bullet with a [NaN] velocity in the live list and emits
    it. *)
Lemma shoot_accepts_nan_direction :
  Js.is_finite (num_of (Js.get nowhere "x")) = false
  ∧ Session.bullets (the_session session_world 0) = []
  ∧ Session.bullets (the_session
      (final (shoot alice "1" "r" (Js.Str "charged") nowhere session_world)) 0) = [0]
  ∧ (PrimFloat.is_nan ∘ Bullet.vx <$>
       Session.records (the_session
         (final (shoot alice "1" "r" (Js.Str "charged") nowhere session_world)) 0))
    = [true]
  ∧ length (World.sent
      (final (shoot alice "1" "r" (Js.Str "charged") nowhere session_world))) = 1.
Proof. by vm_compute. Qed.

(** ** Teardown *)

Lemma obj_get_delete_eq {A} (k : string) (o : list (string * A)) :
  obj_get k (obj_delete k o) = None.
Proof.
  unfold obj_delete. induction o as [|[k' v] o IH]; [done|].
  rewrite filter_cons. simpl. destruct (decide (k' ≠ k)) as [Hne|Heq]; simpl.
  - by rewrite bool_decide_eq_false_2.
  - done.
Qed.

Lemma obj_get_delete_ne {A} (k k' : string) (o : list (string * A)) :
  k' ≠ k → obj_get k' (obj_delete k o) = obj_get k' o.
Proof.
  intros Hne. unfold obj_delete. induction o as [|[k0 v] o IH]; [done|].
  rewrite filter_cons. simpl. destruct (decide (k0 ≠ k)) as [?|Heq]; simpl.
  - by rewrite IH.
  - apply dec_stable in Heq. subst k0. by rewrite bool_decide_eq_false_2.
Qed.

Lemma obj_delete_absent {A} (k : string) (o : list (string * A)) :
  obj_get k o = None → obj_delete k o = o.
Proof.
  unfold obj_delete. induction o as [|[k' v] o IH]; [done|]. simpl.
  case_bool_decide; [done|]. intros H0. rewrite filter_cons. simpl.
  rewrite decide_True by done. by rewrite IH.
Qed.

Lemma obj_alter_id {A} (f : A → A) (k : string) (o : list (string * A)) :
  (∀ x, obj_get k o = Some x → f x = x) → obj_alter f k o = o.
Proof.
  induction o as [|[k' v] o IH]; [done|]. simpl. intros Hf.
  case_bool_decide.
  - by rewrite Hf.
  - by rewrite IH.
Qed.

Lemma obj_get_alter {A} (f : A → A) (k k' : string) (o : list (string * A)) :
  obj_get k' (obj_alter f k o) =
  if bool_decide (k' = k) then f <$> obj_get k' o else obj_get k' o.
Proof.
  induction o as [|[k0 v] o IH]; simpl.
  - by case_bool_decide.
  - repeat (case_bool_decide; simpl; subst); try done; congruence.
Qed.

Lemma lookup_total_alter_proj {A B} `{Inhabited A} (P : A → B) (f : A → A)
    (a : nat) (l : list A) :
  (∀ x, P (f x) = P x) → P (alter f a l !!! a) = P (l !!! a).
Proof.
  intros Hf. destruct (decide (a < length l)).
  - by rewrite list_lookup_total_alter_eq.
  - rewrite !list_lookup_total_alt. rewrite !lookup_ge_None_2; [done|lia|].
    rewrite length_alter. lia.
Qed.

Lemma lookup_total_alter {A} `{Inhabited A} (f : A → A) (a b : nat) (l : list A) :
  alter f a l !!! b = if decide (a = b ∧ a < length l) then f (l !!! b) else l !!! b.
Proof.
  case_decide as Hd.
  - destruct Hd as [-> ?]. by apply list_lookup_total_alter_eq.
  - destruct (decide (a = b)) as [->|].
    + rewrite !list_lookup_total_alt. rewrite !lookup_ge_None_2; [done|lia|].
      rewrite length_alter. lia.
    + by apply list_lookup_total_alter_ne.
Qed.

Lemma set_activeRooms_eta g : Game.set_activeRooms (Game.activeRooms g) g = g.
Proof. by destruct g. Qed.

Lemma world_eq (w1 w2 : World.t) :
  World.heap w1 = World.heap w2 → World.games w1 = World.games w2 →
  World.userList w1 = World.userList w2 → World.joined w1 = World.joined w2 →
  World.timers w1 = World.timers w2 → World.nextTimer w1 = World.nextTimer w2 →
  World.sent w1 = World.sent w2 → w1 = w2.
Proof. destruct w1, w2; simpl; congruence. Qed.

Lemma obj_alter_absent {A} (f : A → A) (k : string) (o : list (string * A)) :
  obj_get k o = None → obj_alter f k o = o.
Proof. intros Hk. apply obj_alter_id. by rewrite Hk. Qed.

Lemma endAgarIoRoom_spec (gameId : string) (a : nat) (w : World.t) :
  endAgarIoRoom gameId a w =
  (if Game.io (default inhabitant (obj_get gameId (World.games w)))
   then Done () else Threw) (end_world gameId a w).
Proof.
  unfold endAgarIoRoom, end_world, deref, update_session, update_room,
    clearInterval, the_game, emit, update_game. munfold.
  assert (∀ r, World.heap w !! a = Some r → r = World.heap w !!! a) as Hroom.
  { intros r Hr. by rewrite (list_lookup_total_correct _ _ _ Hr). }
  assert (∀ F : Room.t → Room.t, (∀ r, Room.id (F r) = Room.id r) →
    Room.id (alter F a (World.heap w) !!! a) = Room.id (World.heap w !!! a)) as Hid.
  { intros F HF. by apply (lookup_total_alter_proj Room.id). }
  assert (∀ F : Room.t → Room.t,
    (∀ r, Room.session (F r) ≫= Session.winner = Room.session r ≫= Session.winner) →
    Room.session (alter F a (World.heap w) !!! a) ≫= Session.winner
    = Room.session (World.heap w !!! a) ≫= Session.winner) as Hwin.
  { intros F HF. by apply (lookup_total_alter_proj (λ r, Room.session r ≫= Session.winner)). }
  revert Hroom Hid Hwin. generalize (World.heap w !!! a). intros room Hroom Hid Hwin.
  destruct (Room.session room) as [s|] eqn:Hs; simpl;
    [destruct (Session.simulationInterval s) as [h1|] eqn:H1;
     destruct (Session.broadcastInterval s) as [h2|] eqn:H2|]; simpl;
    (destruct (obj_get gameId (World.games w)) as [game|] eqn:Hg; simpl;
     [destruct (obj_get (Js.show (Room.id room)) (Game.activeRooms game)) eqn:Hk;
      destruct (Game.io game) eqn:Hio|]); simpl; f_equal; apply world_eq; simpl;
    try done.
  all: rewrite ?list_alter_alter_eq.
  all: try (apply list_alter_ext; [|done]; intros r Hr;
            rewrite (Hroom r Hr); clear Hroom Hid Hwin;
            destruct room as [? ? [?|]]; simpl in *; [|done];
            simplify_eq; destruct s; simpl in *; by subst).
  all: try (symmetry; apply list_alter_id; intros r; 
            by destruct r as [? ? [?|]]).
  all: try (symmetry; apply obj_alter_id; intros g Hg';
            assert (g = game) as -> by congruence;
            rewrite obj_delete_absent by done; by destruct game).
  all: try (symmetry; by apply obj_alter_absent).
  all: try (rewrite Hid by (by intros [? ? [?|]])).
  all: try (change (option_bind _ _ Session.winner ?x) with (x ≫= Session.winner);
            rewrite Hwin by (by intros [? ? [?|]])).
  all: try done.
  all: by rewrite app_nil_r.
Qed.

Lemma obj_alter_alter {A} (f g : A → A) (k : string) (o : list (string * A)) :
  obj_alter f k (obj_alter g k o) = obj_alter (f ∘ g) k o.
Proof.
  induction o as [|[k' v] o IH]; [done|]. simpl.
  case_bool_decide; simpl; case_bool_decide; try done. by rewrite IH.
Qed.

Lemma obj_alter_ext {A} (f g : A → A) (k : string) (o : list (string * A)) :
  (∀ x, obj_get k o = Some x → f x = g x) → obj_alter f k o = obj_alter g k o.
Proof.
  induction o as [|[k' v] o IH]; [done|]. simpl. intros Hf.
  case_bool_decide.
  - by rewrite Hf.
  - by rewrite IH.
Qed.

Lemma reset_player_idemp p : reset_player (reset_player p) = reset_player p.
Proof. by destruct p. Qed.

Lemma ended_idemp s : ended (ended s) = ended s.
Proof.
  destruct s; unfold ended; simpl. rewrite app_nil_r. f_equal.
  rewrite <-list_fmap_compose. apply list_fmap_ext. intros _ [k p] _.
  simpl. unfold prod_map. simpl. by rewrite reset_player_idemp.
Qed.

Lemma session_at_end_world gameId a w :
  session_at (end_world gameId a w) a = ended <$> session_at w a.
Proof.
  unfold session_at, end_world. simpl.
  rewrite lookup_total_alter. case_decide as Hd; [done|].
  assert (World.heap w !!! a = inhabitant) as ->; [|done].
  rewrite list_lookup_total_alt, lookup_ge_None_2; [done|]. 
  destruct (decide (a < length (World.heap w))); [|lia]. naive_solver.
Qed.

Lemma id_at_end_world gameId a w :
  Room.id (World.heap (end_world gameId a w) !!! a) = Room.id (World.heap w !!! a).
Proof.
  unfold end_world; simpl. apply (lookup_total_alter_proj Room.id). by intros [].
Qed.

Lemma not_scheduled_cleared (h : nat) (o : option nat) (l : list Timer.t) :
  h ∉ Timer.handle <$> l → h ∉ Timer.handle <$> cleared o l.
Proof.
  destruct o as [h'|]; [|done]. simpl. rewrite !list_elem_of_fmap.
  intros Hn (t & -> & Ht). apply list_elem_of_filter in Ht as [_ Ht]. naive_solver.
Qed.

Lemma not_scheduled_cleared_eq (h : nat) (l : list Timer.t) :
  h ∉ Timer.handle <$> cleared (Some h) l.
Proof.
  simpl. rewrite list_elem_of_fmap.
  intros (t & -> & Ht). apply list_elem_of_filter in Ht as [Ht _]. done.
Qed.

Lemma endGame_first (w : World.t) (gameId roomId : string) (game : Game.t) (a : nat) :
  obj_get gameId (World.games w) = Some game →
  obj_get roomId (Game.activeRooms game) = Some a →
  endGame gameId roomId w = endAgarIoRoom gameId a w.
Proof.
  intros Hg Ha. unfold endGame, getGame. munfold. by rewrite Hg, Ha.
Qed.

Lemma obj_delete_idemp {A} (k : string) (o : list (string * A)) :
  obj_delete k (obj_delete k o) = obj_delete k o.
Proof. apply obj_delete_absent, obj_get_delete_eq. Qed.

(** A second [endAgarIoRoom] changes nothing but emits once more. *)
Lemma end_world_twice (gameId : string) (a : nat) (w : World.t) :
  end_world gameId a (end_world gameId a w)
  = World.set_sent
      (World.sent (end_world gameId a w) ++
       drop (length (World.sent w)) (World.sent (end_world gameId a w)))
      (end_world gameId a w).
Proof.
  apply world_eq; simpl.
  - rewrite list_alter_alter_eq. apply list_alter_ext; [|done].
    intros [i p [s|]] _; [|done]. simpl. by rewrite ended_idemp.
  - rewrite (lookup_total_alter_proj Room.id) by (by intros []).
    rewrite obj_alter_alter. apply obj_alter_ext. intros g Hg.
    destruct g; unfold compose, Game.set_activeRooms; simpl.
    by rewrite obj_delete_idemp.
  - done.
  - done.
  - pose proof (session_at_end_world gameId a w) as Hs. unfold session_at, end_world in Hs.
    simpl in Hs. rewrite Hs. by destruct (Room.session (World.heap w !!! a)).
  - done.
  - rewrite drop_app_length. f_equal.
    rewrite obj_get_alter. rewrite bool_decide_eq_true_2 by done.
    pose proof (session_at_end_world gameId a w) as Hs. unfold session_at, end_world in Hs.
    simpl in Hs. rewrite Hs. rewrite (lookup_total_alter_proj Room.id) by (by intros []).
    destruct (obj_get gameId (World.games w)) as [g|]; simpl; [|done].
    destruct (Game.io g); [|done]. do 2 f_equal.
    by destruct (Room.session (World.heap w !!! a)).
Qed.

(** C1, as amended: ending a session through the end request is idempotent.
    When the room is active under its own id and the game holds the [io]
    reference, the first [endGame] returns, emits one [gameEnded] and leaves
    both interval fields empty and neither task scheduled; a second [endGame]
    for an id that names no property of [Object.prototype] finds the room
    gone from the active rooms and changes nothing.  Under a name of
    [Object.prototype] the second lookup finds what [activeRooms] inherits,
    and the second [endGame] returns and emits a [gameEnded] that names no
    room.  A second direct call of [endAgarIoRoom] leaves the state as it
    is, but emits [gameEnded] once more. *)
Theorem endGame_twice (w : World.t) (gameId roomId : string) (game : Game.t)
    (a : nat) (room : Room.t) :
  obj_get gameId (World.games w) = Some game →
  obj_get roomId (Game.activeRooms game) = Some a →
  World.heap w !! a = Some room →
  Room.id room = Some roomId →
  Game.io game = true →
  ∃ w1 ended_event,
    ended_event = GameEnded (channel_of (Game.id game) (Some roomId)) (Some roomId)
                    (Room.session room ≫= Session.winner)
    ∧ endGame gameId roomId w = Done () w1
    ∧ (roomId ∉ prototype_keys → endGame gameId roomId w1 = Done () w1)
    ∧ (roomId ∈ prototype_keys →
       ∃ w2, endGame gameId roomId w1 = Done () w2
         ∧ gameEnded_events w2
           = gameEnded_events w1 ++ [GameEnded (channel_of (Game.id game) None) None None])
    ∧ gameEnded_events w1 = gameEnded_events w ++ [ended_event]
    ∧ (∀ s1, session_at w1 a = Some s1 →
         Session.simulationInterval s1 = None ∧ Session.broadcastInterval s1 = None)
    ∧ (∀ s h, Room.session room = Some s →
         Session.simulationInterval s = Some h ∨ Session.broadcastInterval s = Some h →
         scheduled w1 h = false)
    ∧ endAgarIoRoom gameId a w1
      = Done () (World.set_sent (World.sent w1 ++ [ended_event]) w1).
Proof.
  intros Hg Ha Hr Hid Hio.
  pose proof (list_lookup_total_correct _ _ _ Hr) as Hr'.
  exists (end_world gameId a w). eexists. split; [done|].
  assert (World.sent (end_world gameId a w) = World.sent w ++
    [GameEnded (channel_of (Game.id game) (Some roomId)) (Some roomId)
       (Room.session room ≫= Session.winner)]) as Hsent.
  { unfold end_world; simpl. by rewrite Hg, Hr', Hid; simpl; rewrite Hio. }
  assert (obj_get gameId (World.games (end_world gameId a w))
          = Some (Game.set_activeRooms (obj_delete roomId (Game.activeRooms game)) game))
    as Hg1.
  { unfold end_world; simpl. rewrite obj_get_alter, bool_decide_eq_true_2 by done.
    by rewrite Hg, Hr', Hid. }
  split_and!.
  - rewrite (endGame_first _ _ _ _ _ Hg Ha), endAgarIoRoom_spec, Hg. simpl.
    by rewrite Hio.
  - intros Hown. unfold endGame, getGame. munfold. rewrite Hg1. simpl.
    by rewrite obj_get_delete_eq, bool_decide_eq_false_2.
  - intros Hown. unfold endGame, getGame, endAgarIoRoom_builtin, the_game. munfold.
    rewrite Hg1. simpl. rewrite obj_get_delete_eq, bool_decide_eq_true_2 by done.
    rewrite Hg1. simpl. rewrite Hio. simpl.
    destruct (obj_get "undefined" (obj_delete roomId (Game.activeRooms game)));
      simpl; eexists; (split; [done|]); unfold gameEnded_events; simpl;
      by rewrite filter_app.
  - unfold gameEnded_events. by rewrite Hsent, filter_app.
  - intros s1. rewrite session_at_end_world. unfold session_at. rewrite Hr'.
    destruct (Room.session room); [|done]. by intros [= <-].
  - intros s h Hs Hh. unfold scheduled. apply bool_decide_eq_false_2.
    unfold end_world; simpl. rewrite Hr', Hs; simpl.
    destruct Hh as [-> | ->].
    + apply not_scheduled_cleared, not_scheduled_cleared_eq.
    + apply not_scheduled_cleared_eq.
  - rewrite endAgarIoRoom_spec, Hg1. simpl. rewrite Hio. f_equal.
    rewrite end_world_twice. f_equal. f_equal.
    by rewrite Hsent, drop_app_length.
Qed.

Lemma endGame_twice_witness :
  ∃ w1 ended_event,
    ended_event = GameEnded "1-r" (Some "r"%string) None
    ∧ endGame "1" "r" session_world = Done () w1
    ∧ endGame "1" "r" w1 = Done () w1
    ∧ gameEnded_events w1 = gameEnded_events session_world ++ [ended_event]
    ∧ (∀ s1, session_at w1 0 = Some s1 →
         Session.simulationInterval s1 = None ∧ Session.broadcastInterval s1 = None)
    ∧ (∀ s h, session_at session_world 0 = Some s →
         Session.simulationInterval s = Some h ∨ Session.broadcastInterval s = Some h →
         scheduled w1 h = false)
    ∧ endAgarIoRoom "1" 0 w1
      = Done () (World.set_sent (World.sent w1 ++ [ended_event]) w1).
Proof.
  destruct (endGame_twice session_world "1" "r"
              (Game.mk [("lobby", 1)] [("r", 0)] (Some "1"%string) true) 0
              (World.heap session_world !!! 0))
    as (w1 & ended_event & He & H1 & H2 & _ & H3 & H4 & H5 & H6);
    [reflexivity..|].
  exists w1, ended_event.
  exact (conj He (conj H1 (conj (H2 plain_r) (conj H3 (conj H4 (conj H5 H6)))))).
Defined.

(** C1 fails as stated: two calls of [endAgarIoRoom] on the started room emit
    two [gameEnded] events. *)
Lemma endAgarIoRoom_twice_emits_twice :
  gameEnded_events session_world = []
  ∧ gameEnded_events
      (final (endAgarIoRoom "1" 0 (final (endAgarIoRoom "1" 0 session_world))))
    = [GameEnded "1-r" (Some "r"%string) None; GameEnded "1-r" (Some "r"%string) None].
Proof. by vm_compute. Qed.

(** ** The win condition *)

Lemma session_at_lt (w : World.t) (a : nat) (s : Session.t) :
  session_at w a = Some s → a < length (World.heap w).
Proof.
  unfold session_at. intros Hs. destruct (decide (a < length (World.heap w))); [done|].
  rewrite list_lookup_total_alt, lookup_ge_None_2 in Hs by lia. done.
Qed.

Lemma session_at_with_session (w : World.t) (a : nat) (s : Session.t) :
  a < length (World.heap w) → session_at (with_session a s w) a = Some s.
Proof.
  intros Ha. unfold session_at, with_session. simpl.
  by rewrite list_lookup_total_alter_eq.
Qed.

Lemma in_session_Done {A} (a : nat) (m : M Session.t A) (w : World.t)
    (s s' : Session.t) (x : A) :
  session_at w a = Some s → m s = Done x s' →
  in_session a m w = Done x (with_session a s' w).
Proof. unfold in_session, session_at. by intros -> ->. Qed.

Lemma with_session_twice (a : nat) (s s' : Session.t) (w : World.t) :
  with_session a s' (with_session a s w) = with_session a s' w.
Proof.
  unfold with_session. apply world_eq; simpl; try done.
  rewrite list_alter_alter_eq. by apply list_alter_ext.
Qed.

Lemma update_session_with (a : nat) (f : Session.t → Session.t) (w : World.t)
    (s : Session.t) :
  session_at w a = Some s →
  update_session a f w = Done () (with_session a (f s) w).
Proof.
  intros Hs. unfold update_session, update_room, with_session. munfold. f_equal.
  apply world_eq; simpl; try done. apply list_alter_ext; [|done].
  intros r Hr. unfold session_at in Hs.
  rewrite (list_lookup_total_correct _ _ _ Hr) in Hs. by rewrite Hs.
Qed.

(** C3: in every simulation tick of a started room the projectile loop runs
    to its end and the win condition is then evaluated once, on the session
    the loop left.  When at most one player is alive and no winner is
    recorded, the tick records the name of the only player left, or no winner
    when none is left, and runs [endAgarIoRoom] on that state; otherwise the
    tick ends with the state the loop left.  Two last players who die in the
    same tick leave the alive set empty, so that the recorded winner is
    none. *)
Theorem updateBullets_win_condition (w : World.t) (gameId : string) (a : nat)
    (s : Session.t) :
  session_at w a = Some s →
  ∃ visited s1,
    bullets_loop (length (Session.bullets s)) s = Done visited s1
    ∧ if win_check s1
      then
        updateBullets gameId a w
        = endAgarIoRoom gameId a
            (with_session a (Session.set_winner (sole_winner s1) s1) w)
        ∧ session_at (final (updateBullets gameId a w)) a
          = Some (ended (Session.set_winner (sole_winner s1) s1))
        ∧ (Session.alivePlayers s1 = [] → sole_winner s1 = None)
        ∧ (∀ k p, Session.alivePlayers s1 = [k] →
             obj_get k (Session.playersMap s1) = Some p →
             sole_winner s1 = Some (Player.userName p))
      else updateBullets gameId a w = Done () (with_session a s1 w).
Proof.
  intros Hs. pose proof (session_at_lt _ _ _ Hs) as Ha.
  destruct (bullets_loop_spec (length (Session.bullets s)) s) as (s1 & Hloop & _);
    [done|].
  eexists _, s1. split; [exact Hloop|].
  assert (∀ k : M World.t unit,
    updateBullets gameId a w =
    (if win_check s1
     then update_session a (Session.set_winner (sole_winner s1));;
          endAgarIoRoom gameId a
     else mret ()) (with_session a s1 w)) as Hub.
  { intros _. unfold updateBullets, deref, session_of. munfold.
    unfold session_at in Hs. rewrite Hs.
    rewrite (in_session_Done a _ w s s1 _ Hs Hloop).
    pose proof (session_at_with_session w a s1 Ha) as Hs1.
    unfold session_at in Hs1. rewrite Hs1. done. }
  rewrite (Hub (mret ())). clear Hub.
  destruct (win_check s1) eqn:Hwin; [|done].
  munfold.
  rewrite (update_session_with a _ _ s1) by (by apply session_at_with_session).
  rewrite with_session_twice. split_and!.
  - done.
  - rewrite endAgarIoRoom_spec.
    destruct (Game.io _); simpl; rewrite session_at_end_world,
      session_at_with_session by done; done.
  - unfold sole_winner. by intros ->.
  - unfold sole_winner. intros k p -> Hp. simpl. by rewrite Hp.
Qed.

Lemma updateBullets_win_condition_witness :
  ∃ visited s1,
    bullets_loop 2 (the_session duel_world 0) = Done visited s1
    ∧ if win_check s1
      then
        updateBullets "1" 0 duel_world
        = endAgarIoRoom "1" 0
            (with_session 0 (Session.set_winner (sole_winner s1) s1) duel_world)
        ∧ session_at (final (updateBullets "1" 0 duel_world)) 0
          = Some (ended (Session.set_winner (sole_winner s1) s1))
        ∧ (Session.alivePlayers s1 = [] → sole_winner s1 = None)
        ∧ (∀ k p, Session.alivePlayers s1 = [k] →
             obj_get k (Session.playersMap s1) = Some p →
             sole_winner s1 = Some (Player.userName p))
      else updateBullets "1" 0 duel_world = Done () (with_session 0 s1 duel_world).
Proof.
  exact (updateBullets_win_condition duel_world "1" 0 (the_session duel_world 0) eq_refl).
Defined.

(** Alice and bob kill each other in the same tick: the session ends with
    no winner. *)
Example duel_ends_without_winner :
  Session.alivePlayers <$> session_at duel_world 0 = Some ["A"; "B"]%string
  ∧ Session.alivePlayers <$> session_at (final (fire 0 duel_world)) 0 = Some []
  ∧ Session.winner <$> session_at (final (fire 0 duel_world)) 0 = Some None
  ∧ gameEnded_events (final (fire 0 duel_world))
    = [GameEnded "1-r" (Some "r"%string) None].
Proof. by vm_compute. Qed.

(** Alice kills bob: the session ends with alice as the winner. *)
Example volley_ends_with_winner :
  Session.alivePlayers <$> session_at (final (fire 0 volley_world)) 0 = Some ["A"%string]
  ∧ gameEnded_events (final (fire 0 volley_world))
    = [GameEnded "1-r" (Some "r"%string) (Some "alice"%string)].
Proof. by vm_compute. Qed.

(** ** Frame properties *)

Section Preserves.
Context {S : Type} (R : S → S → Prop) `{!Reflexive R, !Transitive R}.

Lemma preserves_ret {A} (x : A) : preserves R (mret x : M S A).
Proof. intros s. simpl. reflexivity. Qed.

Lemma preserves_get_state : preserves R (get_state : M S S).
Proof. intros s. simpl. reflexivity. Qed.

Lemma preserves_throw {A} : preserves R (throw : M S A).
Proof. intros s. simpl. reflexivity. Qed.

Lemma preserves_modify (f : S → S) : (∀ s, R s (f s)) → preserves R (modify f).
Proof. intros Hf s. apply Hf. Qed.

Lemma preserves_bind {A B} (m : M S A) (f : A → M S B) :
  preserves R m → (∀ x, preserves R (f x)) → preserves R (m ≫= f).
Proof.
  intros Hm Hf s. specialize (Hm s). unfold mbind, M_bind.
  destruct (m s) as [x s1|s1]; simpl in *; [|done].
  etrans; [exact Hm|]. apply Hf.
Qed.

Lemma preserves_for_each {A} (l : list A) (f : A → M S unit) :
  (∀ x, preserves R (f x)) → preserves R (for_each l f).
Proof.
  intros Hf. induction l as [|x l IH]; simpl.
  - apply preserves_ret.
  - apply preserves_bind; [apply Hf|]. intros _. apply IH.
Qed.

End Preserves.

(** Steps the proofs of frame properties repeat. *)
Ltac preserve :=
  repeat first
    [ progress (unfold deref, the_game)
    | match goal with
      | |- preserves ?R (mret _) => apply (preserves_ret R)
      | |- preserves ?R get_state => apply (preserves_get_state R)
      | |- preserves ?R throw => apply (preserves_throw R)
      | |- preserves ?R (_ ≫= _) => apply (preserves_bind R); [|intros ?]
      | |- preserves ?R (for_each _ _) => apply (preserves_for_each R); intros ?
      | |- preserves _ (λ w, Done _ w) => intros ?; simpl; reflexivity
      | |- preserves _ (match ?x with _ => _ end) => destruct x
      | |- preserves _ (if ?x then _ else _) => destruct x
      | |- preserves _ (let '(_, _) := ?x in _) => destruct x
      end ].

#[local] Instance disconnect_frame_refl : Reflexive disconnect_frame.
Proof.
  intros w. split_and!; try done.
  - intros a r Hr. exists r. done.
  - intros gameId game Hg. exists game. done.
Qed.

#[local] Instance disconnect_frame_trans : Transitive disconnect_frame.
Proof.
  intros w1 w2 w3 (Hh & Ht & He & Hg) (Hh' & Ht' & He' & Hg'). split_and!.
  - intros a r Hr. destruct (Hh a r Hr) as (r2 & Hr2 & ? & ? & ?).
    destruct (Hh' a r2 Hr2) as (r3 & Hr3 & ? & ? & ?).
    exists r3. split_and!; [done|congruence|congruence|by etrans].
  - congruence.
  - congruence.
  - intros gameId game Hgame. destruct (Hg _ _ Hgame) as (g2 & Hg2 & ?).
    destruct (Hg' _ _ Hg2) as (g3 & Hg3 & ?). exists g3. split; [done|by etrans].
Qed.

Lemma frame_update_room (a : nat) (f : Room.t → Room.t) :
  (∀ r, Room.session (f r) = Room.session r ∧ Room.id (f r) = Room.id r
        ∧ Room.players (f r) `sublist_of` Room.players r) →
  preserves disconnect_frame (update_room a f).
Proof.
  intros Hf. apply preserves_modify. intros w. split_and!; try done.
  - intros b r Hr. simpl. rewrite list_lookup_alter.
    destruct (Hf r) as (? & ? & ?).
    case_decide; subst; rewrite Hr; simpl; eauto.
  - intros gameId game Hg. exists game. done.
Qed.

Lemma frame_alloc_room (r : Room.t) : preserves disconnect_frame (alloc_room r).
Proof.
  intros w. simpl. split_and!; try done.
  - intros b r' Hr. exists r'. split_and!; try done. by apply lookup_app_l_Some.
  - intros gameId game Hg. exists game. done.
Qed.

Lemma frame_update_game (gameId : string) (f : Game.t → Game.t) :
  (∀ g, Game.activeRooms (f g) `sublist_of` Game.activeRooms g) →
  preserves disconnect_frame (update_game gameId f).
Proof.
  intros Hf. apply preserves_modify. intros w. split_and!; try done.
  - intros a r Hr. exists r. done.
  - intros k game Hg. simpl. rewrite obj_get_alter, Hg.
    case_bool_decide; eauto.
Qed.

Lemma frame_emit (e : Event) :
  is_GameEnded e = false → preserves disconnect_frame (emit e).
Proof.
  intros He. apply preserves_modify. intros w. split_and!; try done.
  - intros a r Hr. exists r. done.
  - unfold gameEnded_events. simpl. rewrite filter_app, filter_cons_False, filter_nil.
    + by rewrite app_nil_r.
    + by rewrite He.
  - intros k game Hg. exists game. done.
Qed.

Lemma obj_get_app_l {A} (k : string) (o o' : list (string * A)) (v : A) :
  obj_get k o = Some v → obj_get k (o ++ o') = Some v.
Proof.
  induction o as [|[k' v'] o IH]; simpl; [done|]. by case_bool_decide.
Qed.

Lemma frame_getGame (gameId : string) : preserves disconnect_frame (getGame gameId).
Proof.
  intros w. unfold getGame. destruct (obj_get gameId (World.games w)) eqn:Hg; simpl.
  - reflexivity.
  - split_and!; try done.
    + intros a r Hr. exists r. done.
    + intros k game Hk. exists game. simpl. split; [|done]. by apply obj_get_app_l.
Qed.

Lemma frame_ensureSingleEmptyRoom (gameId : string) :
  preserves disconnect_frame (ensureSingleEmptyRoom gameId).
Proof.
  unfold ensureSingleEmptyRoom.
  apply (preserves_bind disconnect_frame); [apply frame_getGame|]. intros game.
  preserve. - apply frame_alloc_room. - by apply frame_update_game.
Qed.

Lemma frame_broadcastRooms (gameId : string) :
  preserves disconnect_frame (broadcastRooms gameId).
Proof. unfold broadcastRooms. preserve. by apply frame_emit. Qed.

Lemma frame_disconnect_lobby (socket : Socket.t) (gameId : string) entry :
  preserves disconnect_frame (disconnect_lobby socket gameId entry).
Proof.
  unfold disconnect_lobby. preserve.
  all: first
    [ apply frame_update_room; intros r; split_and!; try done; apply sublist_delete
    | by apply frame_update_game
    | apply frame_ensureSingleEmptyRoom
    | apply frame_broadcastRooms ].
Qed.

Lemma frame_disconnect_active (socket : Socket.t) (gameId : string) entry :
  preserves disconnect_frame (disconnect_active socket gameId entry).
Proof.
  unfold disconnect_active. preserve.
  all: first
    [ apply frame_update_room; intros r; split_and!; try done; apply sublist_delete
    | apply frame_update_game; intros g; simpl; apply sublist_filter
    | apply frame_broadcastRooms ].
Qed.

Lemma disconnect_active_spec (socket : Socket.t) (gameId roomId : string)
    (a : nat) (w : World.t) :
  disconnect_active socket gameId (roomId, a) w
  = Done () (disconnect_active_effect socket gameId roomId a w).
Proof.
  unfold disconnect_active, disconnect_active_effect, deref, update_room, update_game,
    broadcastRooms, the_game, emit.
  munfold. destruct (findIndex _ _); [|done]. simpl.
  by case_bool_decide.
Qed.

(** C10: a disconnect leaves every session as it was.  Each room object
    keeps its session (so [playersMap], [alivePlayers] and both interval
    fields) and its id, and loses entries of [players] at most; every
    scheduled task stays scheduled; no [gameEnded] is emitted; a game loses
    entries of [activeRooms] at most.  For one entry of [game.activeRooms] the
    handler removes the socket from [room.players] and, when that leaves the
    array empty, deletes the entry and broadcasts the room list; it does
    nothing else. *)
Theorem disconnect_leaves_sessions_running (socket : Socket.t) (w : World.t) :
  disconnect_frame w (final (disconnect socket w))
  ∧ ∀ (gameId roomId : string) (a : nat) (w0 : World.t),
      disconnect_active socket gameId (roomId, a) w0
      = Done () (disconnect_active_effect socket gameId roomId a w0).
Proof.
  split; [|intros; apply disconnect_active_spec].
  revert w. change (preserves disconnect_frame (disconnect socket)).
  unfold disconnect. preserve.
  - apply preserves_modify. intros w. split_and!; try done.
    + intros a r Hr. exists r. done.
    + intros k game Hg. exists game. done.
  - by apply frame_emit.
  - apply frame_disconnect_lobby.
  - apply frame_disconnect_active.
Qed.

(** After alice and bob both disconnect, room ["r"] is gone from the active
    rooms, yet both of its tasks are scheduled, both players are still in its
    alive set, and its simulation tick still runs. *)
Example orphaned_session_keeps_running :
  Game.activeRooms <$>
    obj_get "1" (World.games (final (disconnect bob (final (disconnect alice duel_world)))))
  = Some []
  ∧ Timer.handle <$> World.timers (final (disconnect bob (final (disconnect alice duel_world))))
    = [0; 1]
  ∧ Session.alivePlayers <$>
      session_at (final (disconnect bob (final (disconnect alice duel_world)))) 0
    = Some ["A"; "B"]%string
  ∧ gameEnded_events (final (disconnect bob (final (disconnect alice duel_world)))) = []
  ∧ gameEnded_events
      (final (fire 0 (final (disconnect bob (final (disconnect alice duel_world))))))
    = [GameEnded "1-r" (Some "r"%string) None].
Proof. by vm_compute. Qed.

(** ** Bullet records and their ids *)

Lemma elem_of_insert_inv {A} (l : list A) (i : nat) (x y : A) :
  y ∈ <[i:=x]> l → y = x ∨ y ∈ l.
Proof.
  revert i. induction l as [|z l IH]; intros [|i]; simpl; try (by right).
  - rewrite !elem_of_cons. naive_solver.
  - rewrite !elem_of_cons. intros [->|H]; [by right; left|].
    destruct (IH _ H); [by left|by right; right].
Qed.

Lemma NoDup_insert_fresh {A} (l : list A) (i : nat) (x : A) :
  NoDup l → x ∉ l → NoDup (<[i:=x]> l).
Proof.
  revert i. induction l as [|z l IH]; intros [|i] Hnd Hx; simpl; try done.
  - apply NoDup_cons in Hnd as [? ?]. apply NoDup_cons. split; [|done].
    rewrite not_elem_of_cons in Hx. naive_solver.
  - apply NoDup_cons in Hnd as [Hz ?]. rewrite not_elem_of_cons in Hx.
    destruct Hx as [? ?]. apply NoDup_cons. split; [|by apply IH].
    intros Hin. apply elem_of_insert_inv in Hin as [->|?]; done.
Qed.

Lemma advance_id (b : Bullet.t) : Bullet.id (advance b) = Bullet.id b.
Proof. done. Qed.

Lemma ids_insert_advance (records : list Bullet.t) (ba : nat) :
  Bullet.id <$> <[ba := advance (records !!! ba)]> records = Bullet.id <$> records.
Proof.
  rewrite list_fmap_insert. apply list_insert_id'. intros Hlt.
  rewrite length_fmap in Hlt. rewrite list_lookup_fmap.
  by rewrite (list_lookup_lookup_total_lt _ _ Hlt).
Qed.

Lemma conserved_lt (s : Session.t) (ba : nat) :
  conserved s → ba ∈ Session.bullets s ++ Session.bulletPool s →
  ba < length (Session.records s).
Proof.
  unfold conserved. intros Hc Hin. rewrite Hc in Hin.
  apply elem_of_seq in Hin. lia.
Qed.

Lemma acquire_cases (mk : float → Bullet.t) (s : Session.t) :
  (∃ ba rest, Session.bulletPool s = rest ++ [ba]
     ∧ acquire mk s = Done (ba, mk (Session.bulletIdCounter s))
         (Session.set_records (<[ba := mk (Session.bulletIdCounter s)]> (Session.records s))
            (Session.set_bulletPool rest
               (Session.set_bulletIdCounter (PrimFloat.add (Session.bulletIdCounter s) 1) s))))
  ∨ (Session.bulletPool s = []
     ∧ acquire mk s = Done (length (Session.records s), mk (Session.bulletIdCounter s))
         (Session.set_records (Session.records s ++ [mk (Session.bulletIdCounter s)])
            (Session.set_bulletIdCounter (PrimFloat.add (Session.bulletIdCounter s) 1) s))).
Proof.
  unfold acquire. simpl. destruct (pop (Session.bulletPool s)) as [[ba rest]|] eqn:Hp.
  - left. exists ba, rest. split; [by apply pop_Some|done].
  - right. split; [by apply pop_None|done].
Qed.

Lemma conserved_step (s s' : Session.t) :
  conserved s → bullet_step s s' → conserved s'.
Proof.
  unfold conserved. intros Hc Hstep. destruct Hstep as
    [s pm al sim bc win|s ba|s i ba Hi|s mk ba b s1 Hmk Hacq|s]; simpl.
  - done.
  - by rewrite length_insert.
  - transitivity (ba :: (delete i (Session.bullets s) ++ Session.bulletPool s)).
    { rewrite (assoc (++)). symmetry. apply Permutation_cons_append. }
    rewrite <-Hc.
    change (ba :: (?l ++ ?k)) with ((ba :: l) ++ k). f_equiv.
    symmetry. by apply delete_Permutation.
  - destruct (acquire_cases mk s) as [(ba' & rest & Hpool & Heq)|[Hpool Heq]];
      rewrite Heq in Hacq; injection Hacq as <- <- <-; simpl.
    + rewrite length_insert, <-Hc, Hpool.
      rewrite <-!(assoc (++)). f_equiv. apply Permutation_app_comm.
    + rewrite length_app. simpl. rewrite Nat.add_1_r, seq_S. simpl.
      rewrite Hpool, app_nil_r in Hc |- *. by rewrite Hc.
  - rewrite <-Hc. apply Permutation_app_comm.
Qed.

(** ** What the handlers do to the sessions *)

Section Related.
Context (T : Session.t → Session.t → Prop) `{!Reflexive T, !Transitive T}.

#[global] Instance sessions_related_refl : Reflexive (sessions_related T).
Proof.
  intros w a. destruct (World.heap w !! a) as [r|] eqn:Hr.
  - exists r. split; [done|]. destruct (Room.session r); eauto.
  - done.
Qed.

#[global] Instance sessions_related_trans : Transitive (sessions_related T).
Proof.
  intros w1 w2 w3 H12 H23 a. specialize (H12 a). specialize (H23 a).
  destruct (World.heap w1 !! a) as [r1|] eqn:Hr1.
  - destruct H12 as (r2 & Hr2 & H12). rewrite Hr2 in H23.
    destruct H23 as (r3 & Hr3 & H23). exists r3. split; [done|].
    destruct (Room.session r1) as [s1|].
    + destruct H12 as (s2 & Hs2 & ?). rewrite Hs2 in H23.
      destruct H23 as (s3 & Hs3 & ?). exists s3. split; [done|by etrans].
    + by rewrite H12 in H23.
  - destruct (World.heap w2 !! a) as [r2|] eqn:Hr2.
    + destruct H23 as (r3 & Hr3 & H23). rewrite (H12 r2 eq_refl) in H23.
      intros r' Hr'. congruence.
    + done.
Qed.

Lemma related_heap_unchanged {A} (m : M World.t A) :
  (∀ w, World.heap (final (m w)) = World.heap w) →
  preserves (sessions_related T) m.
Proof.
  intros Hm w a. rewrite Hm. destruct (World.heap w !! a) as [r|] eqn:Hr.
  - exists r. split; [done|]. destruct (Room.session r); eauto.
  - done.
Qed.

Lemma related_update_room (a : nat) (f : Room.t → Room.t) :
  (∀ r, match Room.session r with
        | Some s => ∃ s', Room.session (f r) = Some s' ∧ T s s'
        | None => Room.session (f r) = None
        end) →
  preserves (sessions_related T) (update_room a f).
Proof.
  intros Hf w b. simpl. rewrite list_lookup_alter.
  destruct (World.heap w !! b) as [r|] eqn:Hr.
  - case_decide; subst; simpl.
    + exists (f r). split; [by rewrite Hr|]. apply Hf.
    + exists r. split; [done|]. destruct (Room.session r); eauto.
  - case_decide; subst; rewrite ?Hr; done.
Qed.

Lemma related_update_session (a : nat) (f : Session.t → Session.t) :
  (∀ s, T s (f s)) → preserves (sessions_related T) (update_session a f).
Proof.
  intros Hf. apply related_update_room. intros [i p [s|]]; simpl; eauto.
Qed.

Lemma related_in_session {A} (a : nat) (m : M Session.t A) :
  (∀ s, T s (final (m s))) → preserves (sessions_related T) (in_session a m).
Proof.
  intros Hm w. unfold in_session.
  destruct (Room.session (World.heap w !!! a)) as [s|] eqn:Hs; [|simpl; reflexivity].
  assert (sessions_related T w (with_session a (final (m s)) w)) as Hrel.
  { pose proof (related_update_room a (Room.set_session (Some (final (m s))))) as Hu.
    intros b. simpl. rewrite list_lookup_alter.
    destruct (World.heap w !! b) as [r|] eqn:Hr.
    - case_decide; subst; simpl.
      + exists (Room.set_session (Some (final (m s))) r). split; [by rewrite Hr|].
        rewrite (list_lookup_total_correct _ _ _ Hr) in Hs. rewrite Hs. simpl. eauto.
      + exists r. split; [done|]. destruct (Room.session r); eauto.
    - case_decide; subst; rewrite ?Hr; done. }
  destruct (m s); exact Hrel.
Qed.

Lemma related_alloc_room (r : Room.t) :
  Room.session r = None → preserves (sessions_related T) (alloc_room r).
Proof.
  intros Hr w a. simpl. destruct (World.heap w !! a) as [r0|] eqn:Hr0.
  - exists r0. split; [by apply lookup_app_l_Some|].
    destruct (Room.session r0); eauto.
  - intros r'. rewrite lookup_app_r by (by apply lookup_ge_None).
    intros Hl. apply list_lookup_singleton_Some in Hl as [_ <-]. done.
Qed.

End Related.

Lemma bullets_loop_steps (n : nat) (s : Session.t) :
  rtc bullet_step s (final (bullets_loop n s)).
Proof.
  revert s. induction n as [|i IH]; intros s; [done|].
  cbn [bullets_loop]. munfold.
  destruct (Session.bullets s !! i) as [ba|] eqn:Hba; [|done].
  set (s1 := Session.set_records _ s).
  assert (rtc bullet_step s s1) as H1 by (apply rtc_once, bstep_advance).
  assert (∀ s2, Session.bullets s2 = Session.bullets s1 → rtc bullet_step s s2 →
    rtc bullet_step s
      (final match bullets_loop i (Session.set_bullets (delete i (Session.bullets s2))
                  (Session.set_bulletPool (Session.bulletPool s2 ++ [ba]) s2)) with
             | Done a s'0 => Done (ba :: a) s'0 | Threw s'0 => Threw s'0 end)) as Hret.
  { intros s2 Hb Hs2. set (s3 := Session.set_bullets _ _).
    specialize (IH s3).
    assert (rtc bullet_step s s3).
    { etrans; [exact Hs2|]. apply rtc_once. subst s3. apply bstep_retire. by rewrite Hb. }
    destruct (bullets_loop i s3); simpl in *; by etrans. }
  destruct (out_of_play _).
  - by apply (Hret s1).
  - destruct (hit _ _) as [[pm p]|].
    + apply (Hret (Session.set_alivePlayers _ (Session.set_playersMap pm s1))); [done|].
      etrans; [exact H1|]. apply rtc_once. by apply bstep_same_bullets.
    + specialize (IH s1). destruct (bullets_loop i s1); simpl in *; by etrans.
Qed.

Lemma make_bullet_id id player type speedValue radius rangeLimit direction :
  Bullet.id (make_bullet id player type speedValue radius rangeLimit direction) = id.
Proof. done. Qed.

Lemma spawn_steps (mk : float → Bullet.t) (s : Session.t) :
  (∀ id, Bullet.id (mk id) = id) →
  rtc bullet_step s
    (final ((('(ba, bullet) ← acquire mk;
              modify (λ s, Session.set_bullets (Session.bullets s ++ [ba]) s);;
              mret bullet) : M Session.t Bullet.t) s)).
Proof.
  intros Hmk. munfold.
  destruct (acquire_cases mk s) as [(ba' & rest & Hpool & Heq)|[Hpool Heq]];
    rewrite Heq; simpl; apply rtc_once;
    by apply (bstep_spawn s mk _ _ _ Hmk Heq).
Qed.

Ltac related_prim :=
  first
    [ apply related_heap_unchanged; intros ?;
      unfold emit, socket_join, socket_leave, clearInterval, update_game, getGame;
      munfold; simpl; try done; by case_match
    | apply related_update_session; [tc_solve..|]; intros ?;
      apply rtc_once; first [by apply bstep_same_bullets | apply bstep_drain]
    | apply related_update_room; [tc_solve..|];
      intros [? ? [?|]]; simpl; [eexists; split; reflexivity|reflexivity]
    | apply related_alloc_room; [tc_solve..|]; done
    | apply related_in_session; [tc_solve..|]; intros ?;
      first [apply bullets_loop_steps | apply spawn_steps; intros ?; apply make_bullet_id] ].

Lemma related_perform (act : Action) :
  preserves (sessions_related (rtc bullet_step)) (perform act).
Proof.
  destruct act; unfold perform, requestRooms, joinRoom, leaveRoom, joinGameChannel,
    requestGameState, playerMove, shoot, endGame, disconnect, fire,
    disconnect_lobby, disconnect_active,
    handlePlayerMove, handleShootBullet, updateBullets, broadcastGameState,
    endAgarIoRoom, endAgarIoRoom_builtin, ensureSingleEmptyRoom, broadcastRooms, updateRoomCountForEveryone,
    session_of.
  all: preserve.
  all: related_prim.
Qed.

Lemma session_at_lookup (w : World.t) (a : nat) (s : Session.t) :
  session_at w a = Some s ↔
  ∃ r, World.heap w !! a = Some r ∧ Room.session r = Some s.
Proof.
  split.
  - intros Hs. pose proof (session_at_lt _ _ _ Hs) as Ha.
    exists (World.heap w !!! a). split; [|done].
    by apply list_lookup_lookup_total_lt.
  - intros (r & Hr & Hs). unfold session_at.
    by rewrite (list_lookup_total_correct _ _ _ Hr).
Qed.

Lemma all_sessions_related (P : Session.t → Prop) (T : Session.t → Session.t → Prop)
    (w w' : World.t) :
  (∀ s s', P s → T s s' → P s') →
  all_sessions P w → sessions_related T w w' → all_sessions P w'.
Proof.
  intros HPT HP Hrel a r' s' Hr' Hs'. specialize (Hrel a).
  destruct (World.heap w !! a) as [r|] eqn:Hr.
  - destruct Hrel as (r2 & Hr2 & Hrel). simplify_eq.
    destruct (Room.session r) as [s|] eqn:Hs.
    + destruct Hrel as (s2 & Hs2 & HT). simplify_eq. eapply HPT; [|done]. eauto.
    + congruence.
  - specialize (Hrel r' Hr'). congruence.
Qed.

Lemma sessions_related_at (T : Session.t → Session.t → Prop) (w w' : World.t)
    (a : nat) (s s' : Session.t) :
  sessions_related T w w' → session_at w a = Some s → session_at w' a = Some s' →
  T s s'.
Proof.
  intros Hrel Hs Hs'. apply session_at_lookup in Hs as (r & Hr & Hs).
  apply session_at_lookup in Hs' as (r' & Hr' & Hs').
  specialize (Hrel a). rewrite Hr in Hrel. destruct Hrel as (r2 & Hr2 & Hrel).
  simplify_eq. rewrite Hs in Hrel. destruct Hrel as (s2 & Hs2 & HT). congruence.
Qed.

Lemma all_sessions_Forall (P : Session.t → Prop) (w : World.t) :
  Forall (λ r, from_option P True (Room.session r)) (World.heap w) →
  all_sessions P w.
Proof.
  intros HF a r s Hr Hs. eapply Forall_lookup_1 in HF; [|exact Hr].
  by rewrite Hs in HF.
Qed.

Lemma conserved_steps (s s' : Session.t) :
  conserved s → rtc bullet_step s s' → conserved s'.
Proof. intros Hc Hsteps. induction Hsteps; eauto using conserved_step. Qed.

Lemma startAgarIoRoom_heap rnd gameId a w :
  ∃ pm alive sim bc,
    World.heap (final (startAgarIoRoom rnd gameId a w))
    = alter (Room.set_session (Some (Session.mk pm alive [] [] 1 [] sim bc None))) a
        (World.heap w).
Proof.
  unfold startAgarIoRoom, deref, update_room, setInterval, clearInterval. munfold.
  destruct (option_bind _ _ Session.simulationInterval _);
    destruct (option_bind _ _ Session.broadcastInterval _);
    simpl; do 4 eexists; reflexivity.
Qed.

Lemma startAgarIoRoom_spec (rnd : nat → float) (gameId : string) (a : nat)
    (w : World.t) :
  startAgarIoRoom rnd gameId a w = Done () (start_world rnd gameId a w).
Proof.
  unfold startAgarIoRoom, start_world, started, deref, update_room, setInterval,
    clearInterval. munfold.
  destruct (option_bind _ _ Session.simulationInterval _);
    destruct (option_bind _ _ Session.broadcastInterval _); simpl;
    f_equal; apply world_eq; simpl; try done; by rewrite <- app_assoc.
Qed.

Lemma startAgarIoRoom_sessions (P : Session.t → Prop) rnd gameId a w :
  (∀ pm alive sim bc, P (Session.mk pm alive [] [] 1 [] sim bc None)) →
  all_sessions P w → all_sessions P (final (startAgarIoRoom rnd gameId a w)).
Proof.
  intros Hfresh HP.
  destruct (startAgarIoRoom_heap rnd gameId a w) as (pm & alive & sim & bc & Hheap).
  intros b r s. rewrite Hheap, list_lookup_alter.
  case_decide; subst.
  - destruct (World.heap w !! b) eqn:Hb; simpl; [|done]. intros [= <-]. simpl.
    intros [= <-]. apply Hfresh.
  - apply HP.
Qed.

(** ** Projectile ids *)

Lemma SFltb_irrefl (f : spec_float) : SFltb f f = false.
Proof.
  unfold SFltb. destruct f as [s|s| |s m e]; simpl; try done; try (by destruct s).
  change (PosDef.Pos.compare_cont Eq m m) with (Pos.compare m m).
  by destruct s; rewrite Z.compare_refl, Pos.compare_refl.
Qed.

Lemma SFltb_trans (f g h : spec_float) :
  SFltb f g = true → SFltb g h = true → SFltb f h = true.
Proof.
  unfold SFltb.
  destruct f as [sf|sf| |sf mf ef], g as [sg|sg| |sg mg eg], h as [sh|sh| |sh mh eh];
    simpl; try discriminate;
    try (destruct sf; try discriminate); try (destruct sg; try discriminate);
    try (destruct sh; try discriminate); try done.
  all: change (PosDef.Pos.compare_cont Eq ?a ?b) with (Pos.compare a b).
  all: destruct (Z.compare_spec ef eg), (Z.compare_spec eg eh), (Z.compare_spec ef eh);
    try discriminate; try done; try lia; subst.
  all: destruct (Pos.compare_spec mf mg), (Pos.compare_spec mg mh),
         (Pos.compare_spec mf mh); simpl; try discriminate; try done; try lia.
Qed.

(** [<] on numbers is irreflexive and transitive. *)
Lemma ltb_irrefl (x : float) : PrimFloat.ltb x x = false.
Proof. rewrite ltb_spec. apply SFltb_irrefl. Qed.

Lemma ltb_trans (x y z : float) :
  PrimFloat.ltb x y = true → PrimFloat.ltb y z = true → PrimFloat.ltb x z = true.
Proof. rewrite !ltb_spec. apply SFltb_trans. Qed.

(** *** The integers among the binary64 numbers *)

Section Numbers.

Import SpecFloat.
#[local] Open Scope Z_scope.

Lemma iter_pos_nat {A} (f : A → A) (p : positive) (x : A) :
  SpecFloat.iter_pos f p x = Nat.iter (Pos.to_nat p) f x.
Proof.
  revert x. induction p as [p IH|p IH|]; intros x; cbn [SpecFloat.iter_pos].
  - rewrite !IH, Pos2Nat.inj_xI.
    replace (S (2 * Pos.to_nat p)) with (Pos.to_nat p + S (Pos.to_nat p))%nat by lia.
    by rewrite Nat.iter_add, Nat.iter_succ_r.
  - rewrite !IH, Pos2Nat.inj_xO.
    replace (2 * Pos.to_nat p)%nat with (Pos.to_nat p + Pos.to_nat p)%nat by lia.
    by rewrite Nat.iter_add.
  - done.
Qed.

Lemma pos_iter_shift_left (q d : positive) :
  Pos.iter xO q d = shift_left q (Pos.to_nat d).
Proof. unfold shift_left. by rewrite Pos2Nat.inj_iter. Qed.

Lemma shift_left_add (q : positive) (i j : nat) :
  shift_left (shift_left q i) j = shift_left q (j + i).
Proof. unfold shift_left. by rewrite Nat.iter_add. Qed.

Lemma shift_left_plus (a b : positive) (j : nat) :
  (shift_left a j + shift_left b j = shift_left (a + b) j)%positive.
Proof. unfold shift_left. induction j as [|j IH]; simpl; [done|]. lia. Qed.

Lemma shift_left_lt (a b : positive) (j : nat) :
  (a < b → shift_left a j < shift_left b j)%positive.
Proof. intros Hab. unfold shift_left. induction j as [|j IH]; simpl; [done|]. lia. Qed.

Lemma digits_shift_left (q : positive) (j : nat) :
  Zpos (digits2_pos (shift_left q j)) = Zpos (digits2_pos q) + Z.of_nat j.
Proof.
  unfold shift_left. induction j as [|j IH]; [simpl; lia|].
  rewrite Nat2Z.inj_succ. change (Nat.iter (S j) xO q) with (xO (Nat.iter j xO q)).
  cbn [digits2_pos]. rewrite Pos2Z.inj_succ, IH. lia.
Qed.

(** Shifting right the bits that were appended loses nothing. *)
Lemma shr_shift_left (q : positive) (j : nat) :
  Nat.iter j shr_1 (Build_shr_record (Zpos (shift_left q j)) false false)
  = Build_shr_record (Zpos q) false false.
Proof.
  induction j as [|j IH]; [done|].
  rewrite Nat.iter_succ_r. change (shift_left q (S j)) with (xO (shift_left q j)).
  exact IH.
Qed.

(** Rounding to binary64 is exact on a mantissa of at most 53 significant
    bits. *)
Lemma normalize_shift_left (q : positive) (j k : nat) :
  Zpos (digits2_pos q) + Z.of_nat k = 53 → (k ≤ j)%nat →
  binary_normalize 53 1024 (Zpos (shift_left q j)) (- Z.of_nat j) false
  = S754_finite false (shift_left q k) (- Z.of_nat k).
Proof.
  intros Hq Hkj.
  assert (fexp 53 1024 (Zpos (digits2_pos (shift_left q j)) + - Z.of_nat j)
          = - Z.of_nat k) as Hf.
  { unfold fexp, emin. rewrite digits_shift_left. lia. }
  assert (fexp 53 1024 (Zpos (digits2_pos (shift_left q k)) + - Z.of_nat k)
          = - Z.of_nat k) as Hf'.
  { unfold fexp, emin. rewrite digits_shift_left. lia. }
  assert (shr (Build_shr_record (Zpos (shift_left q j)) false false) (- Z.of_nat j)
            (- Z.of_nat k - - Z.of_nat j)
          = (Build_shr_record (Zpos (shift_left q k)) false false, - Z.of_nat k)) as Hshr.
  { unfold shr. destruct (- Z.of_nat k - - Z.of_nat j) as [|p|p] eqn:Hd; [| |lia].
    - by replace j with k by lia.
    - rewrite iter_pos_nat. replace j with (Pos.to_nat p + k)%nat by lia.
      rewrite <- shift_left_add, shr_shift_left. f_equal. lia. }
  assert (shl_align (shift_left q j) (- Z.of_nat j) (- Z.of_nat k)
          = (shift_left q j, - Z.of_nat j)) as Hshl.
  { unfold shl_align. destruct (- Z.of_nat k - - Z.of_nat j) eqn:Hd; [done..|lia]. }
  unfold binary_normalize, binary_round. rewrite Hf, Hshl.
  unfold binary_round_aux, shr_fexp. cbn [Zdigits2 shr_record_of_loc].
  rewrite Hf, Hshr.
  cbn [shr_m loc_of_shr_record round_nearest_even Zdigits2 shr_record_of_loc].
  rewrite Hf', Z.sub_diag. cbn [shr shr_m].
  destruct (Z.leb_spec (- Z.of_nat k) (1024 - 53)); [done|lia].
Qed.

Lemma digits_size (q : positive) : digits2_pos q = Pos.size q.
Proof. induction q as [q IH|q IH|]; simpl; by rewrite ?IH. Qed.

Lemma digits_le (q : positive) (n : Z) :
  0 ≤ n → Zpos q < 2 ^ n → Zpos (digits2_pos q) ≤ n.
Proof.
  intros Hn Hq. rewrite digits_size.
  destruct (Z.le_gt_cases (Zpos (Pos.size q)) n) as [|Hgt]; [done|exfalso].
  pose proof (Pos.size_le q) as Hle.
  assert (2 ^ (n + 1) ≤ 2 ^ Zpos (Pos.size q)) by (apply Z.pow_le_mono_r; lia).
  assert (2 ^ Zpos (Pos.size q) ≤ Zpos q~0) by (rewrite <- Pos2Z.inj_pow; lia).
  rewrite Z.pow_add_r in * by lia. lia.
Qed.

Lemma digits_mono (q q' : positive) :
  (q ≤ q')%positive → Zpos (digits2_pos q) ≤ Zpos (digits2_pos q').
Proof.
  intros Hq. apply digits_le; [lia|]. rewrite digits_size.
  pose proof (Pos.size_gt q') as Hgt.
  assert (Zpos q' < 2 ^ Zpos (Pos.size q')) by (rewrite <- Pos2Z.inj_pow; lia). lia.
Qed.

Lemma spare_bits_spec (q : positive) :
  Zpos q < 2 ^ 53 → Zpos (digits2_pos q) + Z.of_nat (spare_bits q) = 53.
Proof. intros Hq%digits_le; [|lia]. unfold spare_bits. lia. Qed.

Lemma binary64_of_valid (q : positive) :
  Zpos q < 2 ^ 53 → valid_binary 53 1024 (binary64_of q) = true.
Proof.
  intros Hq. pose proof (spare_bits_spec q Hq) as Hk.
  unfold valid_binary, binary64_of, bounded, canonical_mantissa, fexp, emin.
  rewrite digits_shift_left. apply andb_true_intro.
  split; [apply Z.eqb_eq|apply Z.leb_le]; lia.
Qed.

Lemma binary64_of_add_one (q : positive) :
  Zpos q + 1 < 2 ^ 53 →
  SFadd 53 1024 (binary64_of q) (binary64_of 1) = binary64_of (q + 1).
Proof.
  intros Hq.
  pose proof (spare_bits_spec q ltac:(lia)) as Hk.
  pose proof (spare_bits_spec (q + 1) ltac:(lia)) as Hk'.
  assert (spare_bits q ≤ 52)%nat as Hle by (unfold spare_bits; lia).
  assert (spare_bits (q + 1) ≤ 52)%nat as Hle' by (unfold spare_bits; lia).
  change (binary64_of 1) with (S754_finite false (shift_left 1 52) (- Z.of_nat 52)).
  unfold binary64_of at 1. unfold SFadd.
  replace (Z.min (- Z.of_nat (spare_bits q)) (- Z.of_nat 52)) with (- Z.of_nat 52) by lia.
  assert (shl_align (shift_left q (spare_bits q)) (- Z.of_nat (spare_bits q))
            (- Z.of_nat 52)
          = (shift_left q 52, - Z.of_nat 52)) as ->.
  { unfold shl_align.
    destruct (- Z.of_nat 52 - - Z.of_nat (spare_bits q)) as [|p|p] eqn:Hd; [|lia|].
    - by replace (spare_bits q) with 52%nat by lia.
    - rewrite pos_iter_shift_left, shift_left_add. do 2 f_equal. lia. }
  assert (shl_align (shift_left 1 52) (- Z.of_nat 52) (- Z.of_nat 52)
          = (shift_left 1 52, - Z.of_nat 52)) as -> by done.
  cbn [fst cond_Zopp]. rewrite <- Pos2Z.inj_add, shift_left_plus.
  by apply normalize_shift_left.
Qed.

Lemma binary64_of_lt_succ (q : positive) :
  Zpos q + 1 < 2 ^ 53 → SFltb (binary64_of q) (binary64_of (q + 1)) = true.
Proof.
  intros Hq.
  pose proof (spare_bits_spec q ltac:(lia)) as Hk.
  pose proof (spare_bits_spec (q + 1) ltac:(lia)) as Hk'.
  pose proof (digits_mono q (q + 1) ltac:(lia)) as Hm.
  unfold SFltb, SFcompare, binary64_of.
  destruct (Z.compare_spec (- Z.of_nat (spare_bits q)) (- Z.of_nat (spare_bits (q + 1))))
    as [He| |]; [|done|lia].
  replace (spare_bits (q + 1)) with (spare_bits q) by lia.
  fold (Pos.compare (shift_left q (spare_bits q)) (shift_left (q + 1) (spare_bits q))).
  rewrite (proj2 (Pos.compare_lt_iff _ _)); [done|]. apply shift_left_lt. lia.
Qed.

Lemma Prim2SF_number (q : positive) :
  Zpos q < 2 ^ 53 → Prim2SF (number q) = binary64_of q.
Proof. intros Hq. unfold number. by apply Prim2SF_SF2Prim, binary64_of_valid. Qed.

(** Below [2^53], adding 1 to the number of an integer gives the number of
    the next integer. *)
Lemma number_succ (q : positive) :
  Zpos q + 1 < 2 ^ 53 → PrimFloat.add (number q) 1 = number (q + 1).
Proof.
  intros Hq. apply Prim2SF_inj.
  rewrite add_spec, !Prim2SF_number by lia.
  change (Prim2SF 1) with (binary64_of 1). by apply binary64_of_add_one.
Qed.

(** Adding 1 yields a larger number at every integer below [2^53]. *)
Lemma number_advances (q : positive) : Zpos q < 2 ^ 53 → advances (number q).
Proof.
  intros Hq. unfold advances.
  destruct (decide (Zpos q + 1 < 2 ^ 53)) as [Hlt|Hge].
  - rewrite number_succ, ltb_spec, !Prim2SF_number by lia.
    by apply binary64_of_lt_succ.
  - replace q with 9007199254740991%positive by lia. reflexivity.
Qed.

End Numbers.

(** While the counter is an integer below [2^53 - 1], a spawn issues that
    integer and leaves the next one in the counter, which advances again. *)
Lemma spawned_counts (ba : nat) (s s' : Session.t) (q : positive) :
  (Zpos q + 1 < 2 ^ 53)%Z →
  Session.bulletIdCounter s = number q →
  spawned ba s s' →
  advances (Session.bulletIdCounter s)
  ∧ Bullet.id <$> Session.records s' !! ba = Some (number q)
  ∧ Session.bulletIdCounter s' = number (q + 1)
  ∧ advances (Session.bulletIdCounter s').
Proof.
  intros Hq Hc (Hc' & _ & Hid & _). rewrite Hc', Hid, Hc, number_succ by done.
  split_and!; [|done..|]; apply number_advances; lia.
Qed.

Example number_literals :
  number 1 = 1%float ∧ number 2 = 2%float
  ∧ number 9007199254740991 = 9007199254740991%float.
Proof. split_and!; reflexivity. Qed.

#[global] Instance no_spawn_refl : Reflexive no_spawn.
Proof. by intros s. Qed.

#[global] Instance no_spawn_trans : Transitive no_spawn.
Proof.
  intros s1 s2 s3 (Hc & Hi & Hb) (Hc' & Hi' & Hb'). split_and!; [congruence..|].
  by etrans.
Qed.

Lemma nospawn_bullets_loop (n : nat) (s : Session.t) :
  no_spawn s (final (bullets_loop n s)).
Proof.
  revert s. induction n as [|i IH]; intros s; [done|].
  cbn [bullets_loop]. munfold.
  destruct (Session.bullets s !! i) as [ba|] eqn:Hba; [|done].
  set (s1 := Session.set_records _ s).
  assert (no_spawn s s1) as H1.
  { split_and!; [done| |done]. apply ids_insert_advance. }
  assert (∀ s2, no_spawn s1 s2 → no_spawn s (final (bullets_loop i s2))) as Hrest.
  { intros s2 H2. etrans; [exact H1|]. etrans; [exact H2|apply IH]. }
  assert (∀ s2, Session.records s2 = Session.records s1 →
                Session.bulletIdCounter s2 = Session.bulletIdCounter s1 →
                Session.bullets s2 = Session.bullets s1 →
                no_spawn s1 (Session.set_bullets (delete i (Session.bullets s2))
                  (Session.set_bulletPool (Session.bulletPool s2 ++ [ba]) s2)))
    as Hretire.
  { intros s2 Hr Hc Hb. split_and!; simpl; [done|by rewrite Hr|].
    rewrite Hb. apply sublist_subseteq, sublist_delete. }
  destruct (out_of_play _).
  - simpl. match goal with |- context [bullets_loop i ?s2] =>
      specialize (Hrest s2 (Hretire s1 eq_refl eq_refl eq_refl));
      by destruct (bullets_loop i s2) end.
  - destruct (hit _ _) as [[pm p]|]; simpl.
    + match goal with |- context [bullets_loop i ?s2] =>
        specialize (Hrest s2 (Hretire _ eq_refl eq_refl eq_refl));
        by destruct (bullets_loop i s2) end.
    + specialize (Hrest s1 (reflexivity _)). by destruct (bullets_loop i s1).
Qed.

Ltac nospawn_prim :=
  first
    [ apply related_heap_unchanged; intros ?;
      unfold emit, socket_join, socket_leave, clearInterval, update_game, getGame;
      munfold; simpl; try done; by case_match
    | apply related_update_session; [tc_solve..|]; intros ?;
      split_and!; simpl; first [done | apply list_subseteq_nil]
    | apply related_update_room; [tc_solve..|];
      intros [? ? [?|]]; simpl; [eexists; split; reflexivity|reflexivity]
    | apply related_alloc_room; [tc_solve..|]; done
    | apply related_in_session; [tc_solve..|]; intros ?; apply nospawn_bullets_loop ].

(** Only a shot spawns a bullet. *)
Lemma nospawn_perform (act : Action) :
  match act with
  | Shoot _ _ _ _ _ => True
  | _ => preserves (sessions_related no_spawn) (perform act)
  end.
Proof.
  destruct act; try done;
    unfold perform, requestRooms, joinRoom, leaveRoom, joinGameChannel,
    requestGameState, playerMove, endGame, disconnect, fire,
    disconnect_lobby, disconnect_active,
    handlePlayerMove, updateBullets, broadcastGameState,
    endAgarIoRoom, endAgarIoRoom_builtin, ensureSingleEmptyRoom, broadcastRooms,
    updateRoomCountForEveryone, session_of.
  all: preserve.
  all: nospawn_prim.
Qed.

(** What [acquire] and the [push] that follows do to a session. *)
Lemma acquire_spawned (mk : float → Bullet.t) (s : Session.t) :
  (∀ id, Bullet.id (mk id) = id) →
  conserved s →
  ∃ ba s1,
    acquire mk s = Done (ba, mk (Session.bulletIdCounter s)) s1
    ∧ spawned ba s (Session.set_bullets (Session.bullets s1 ++ [ba]) s1).
Proof.
  intros Hmk Hc.
  destruct (acquire_cases mk s) as [(ba & rest & Hpool & Heq)|[Hpool Heq]];
    rewrite Heq; do 2 eexists; (split; [done|]); split_and!; simpl; try done.
  - rewrite list_lookup_insert_eq; [simpl; by rewrite Hmk|].
    apply conserved_lt; [done|]. rewrite Hpool. set_solver.
  - intros i Hi. by rewrite list_lookup_insert_ne.
  - by left.
  - rewrite lookup_app_r, Nat.sub_diag by done. simpl. by rewrite Hmk.
  - intros i Hi. destruct (decide (i < length (Session.records s))).
    + by rewrite lookup_app_l.
    + rewrite !lookup_ge_None_2; [done|lia|]. rewrite length_app. simpl. lia.
  - by right.
Qed.

#[global] Instance ids_step_refl : Reflexive ids_step.
Proof. intros s _. by left. Qed.

Lemma related_with_session (T : Session.t → Session.t → Prop) `{!Reflexive T}
    (w : World.t) (a : nat) (s s' : Session.t) :
  session_at w a = Some s → T s s' → sessions_related T w (with_session a s' w).
Proof.
  intros Hs HT b. simpl. rewrite list_lookup_alter.
  destruct (World.heap w !! b) as [r|] eqn:Hr.
  - case_decide; subst; simpl.
    + exists (Room.set_session (Some s') r). split; [by rewrite Hr|].
      unfold session_at in Hs. rewrite (list_lookup_total_correct _ _ _ Hr) in Hs.
      rewrite Hs. simpl. eauto.
    + exists r. split; [done|]. destruct (Room.session r); eauto.
  - case_decide; subst; rewrite ?Hr; done.
Qed.

Lemma sessions_related_heap (T : Session.t → Session.t → Prop) (w w' w'' : World.t) :
  World.heap w'' = World.heap w' → sessions_related T w w' → sessions_related T w w''.
Proof. unfold sessions_related. by intros ->. Qed.

Lemma sessions_related_impl (T T' : Session.t → Session.t → Prop) (w w' : World.t) :
  (∀ s s', T s s' → T' s s') → sessions_related T w w' → sessions_related T' w w'.
Proof.
  intros HT Hrel a. specialize (Hrel a).
  destruct (World.heap w !! a) as [r|]; [|done].
  destruct Hrel as (r' & Hr' & Hrel). exists r'. split; [done|].
  destruct (Room.session r); [|done].
  destruct Hrel as (s' & Hs' & ?). eauto.
Qed.

(** What a shot does to the sessions: nothing, or one spawn in the session
    of the room it names, with the bullet emitted. *)
Lemma handleShootBullet_cases (socket : Socket.t) (gameId roomId : string)
    (bulletType direction : Js.val) (w : World.t) :
  World.heap (final (handleShootBullet socket gameId roomId bulletType direction w))
  = World.heap w
  ∨ ∃ game a s player type speedValue radius rangeLimit ba s1,
      obj_get gameId (World.games w) = Some game
      ∧ find_room game roomId = Own a
      ∧ session_at w a = Some s
      ∧ obj_get (Socket.id socket) (Session.playersMap s) = Some player
      ∧ acquire (λ id, make_bullet id player type speedValue radius rangeLimit direction) s
        = Done (ba, make_bullet (Session.bulletIdCounter s) player type speedValue
                      radius rangeLimit direction) s1
      ∧ World.heap (final (handleShootBullet socket gameId roomId bulletType direction w))
        = World.heap (with_session a
            (Session.set_bullets (Session.bullets s1 ++ [ba]) s1) w).
Proof.
  unfold handleShootBullet, session_of. munfold.
  destruct (obj_get gameId _) as [game|] eqn:Hgame; [|left; by case_bool_decide].
  destruct (find_room game roomId) as [a| |] eqn:Hroom; [|by left..].
  destruct (Room.session (World.heap w !!! a)) as [s|] eqn:Hs; [|by left].
  destruct (obj_get (Socket.id socket) _) as [player|] eqn:Hp; [|by left].
  destruct (Player.isDead player); [by left|].
  destruct (shot_rejected bulletType direction); [by left|].
  destruct (bullet_params bulletType) as [[[[type sp] r] rl]|] eqn:Hpar; [|by left].
  right.
  destruct (acquire_cases (λ id, make_bullet id player type sp r rl direction) s)
    as [(ba & rest & Hpool & Heq)|[Hpool Heq]].
  - eexists game, a, s, player, type, sp, r, rl, ba, _.
    split_and!; [done..|exact Heq|].
    unfold in_session. rewrite Hs. munfold. rewrite Heq. done.
  - eexists game, a, s, player, type, sp, r, rl, _, _.
    split_and!; [done..|exact Heq|].
    unfold in_session. rewrite Hs. munfold. rewrite Heq. done.
Qed.

Lemma ids_step_handleShootBullet (socket : Socket.t) (gameId roomId : string)
    (bulletType direction : Js.val) :
  preserves (sessions_related ids_step)
    (handleShootBullet socket gameId roomId bulletType direction).
Proof.
  intros w.
  destruct (handleShootBullet_cases socket gameId roomId bulletType direction w)
    as [Hsame|(game & a & s & player & type & sp & r & rl & ba & s1 & _ & _ & Hs & _
               & Hacq & Hheap)].
  - eapply (sessions_related_heap _ _ w); [done|reflexivity].
  - eapply (sessions_related_heap _ _ (with_session a _ w)); [exact Hheap|].
    apply (related_with_session ids_step w a s); [done|].
    intros Hc. right. exists ba.
    destruct (acquire_spawned (λ id, make_bullet id player type sp r rl direction) s)
      as (ba' & s1' & Hacq' & Hsp); [done..|].
    rewrite Hacq in Hacq'. by injection Hacq' as <- <-.
Qed.

Lemma ids_step_perform (act : Action) :
  preserves (sessions_related ids_step) (perform act).
Proof.
  pose proof (nospawn_perform act) as Hn.
  destruct act; try (intros w; eapply sessions_related_impl; [|apply Hn];
                     intros s s' ? _; by left).
  apply ids_step_handleShootBullet.
Qed.

Lemma ids_issued_no_spawn (s s' : Session.t) :
  ids_issued s → no_spawn s s' → ids_issued s'.
Proof.
  intros [Hnd Hlt] (Hc & Hi & _). split; [by rewrite Hi|].
  rewrite Hc.
  apply (Forall_fmap Bullet.id
           (λ id, PrimFloat.ltb id (Session.bulletIdCounter s) = true)).
  rewrite Hi. by apply Forall_fmap.
Qed.

(** As long as the counter advances, the id of a spawned bullet is above
    every id on record, and below the counter as the spawn leaves it. *)
Lemma ids_issued_spawned (ba : nat) (s s' : Session.t) :
  ids_issued s → advances (Session.bulletIdCounter s) → spawned ba s s' →
  ids_issued s'
  ∧ Bullet.id (Session.records s' !!! ba) = Session.bulletIdCounter s
  ∧ PrimFloat.ltb (Bullet.id (Session.records s' !!! ba)) (Session.bulletIdCounter s')
    = true
  ∧ ∀ b, b ∈ Session.records s →
      PrimFloat.ltb (Bullet.id b) (Bullet.id (Session.records s' !!! ba)) = true.
Proof.
  intros [Hnd Hlt] Hadv (Hc & _ & Hba & Hothers & _).
  assert (∀ i x, Session.records s !! i = Some x →
            PrimFloat.ltb (Bullet.id x) (Session.bulletIdCounter s) = true) as Hold.
  { intros i x Hx. by eapply (Forall_lookup_1 _ _ _ _ Hlt). }
  assert (Bullet.id (Session.records s' !!! ba) = Session.bulletIdCounter s) as Hid.
  { destruct (Session.records s' !! ba) as [b|] eqn:Hb; [|done].
    rewrite (list_lookup_total_correct _ _ _ Hb). by injection Hba. }
  split_and!.
  - split.
    + apply NoDup_alt. intros i j x. rewrite !list_lookup_fmap. intros Hi Hj.
      destruct (decide (i = ba)) as [->|Hib], (decide (j = ba)) as [->|Hjb]; [done| | |].
      * exfalso. rewrite Hba in Hi. injection Hi as <-.
        rewrite (Hothers j Hjb) in Hj.
        destruct (Session.records s !! j) as [b|] eqn:Hb; [|done].
        injection Hj as Hj. pose proof (Hold j b Hb) as Hl.
        rewrite Hj, ltb_irrefl in Hl. done.
      * exfalso. rewrite Hba in Hj. injection Hj as <-.
        rewrite (Hothers i Hib) in Hi.
        destruct (Session.records s !! i) as [b|] eqn:Hb; [|done].
        injection Hi as Hi. pose proof (Hold i b Hb) as Hl.
        rewrite Hi, ltb_irrefl in Hl. done.
      * rewrite (Hothers i Hib) in Hi. rewrite (Hothers j Hjb) in Hj.
        rewrite <- !list_lookup_fmap in Hi, Hj.
        by eapply (NoDup_lookup _ _ _ _ Hnd).
    + apply Forall_lookup. intros i b Hb. rewrite Hc.
      destruct (decide (i = ba)) as [->|Hib].
      * rewrite Hb in Hba. injection Hba as ->. exact Hadv.
      * pose proof (Hothers i Hib) as Hi. rewrite Hb in Hi.
        destruct (Session.records s !! i) as [b0|] eqn:Hb0; [|done].
        injection Hi as Hi. rewrite Hi.
        eapply ltb_trans; [by eapply Hold|exact Hadv].
  - done.
  - rewrite Hid, Hc. exact Hadv.
  - intros b Hb. apply list_elem_of_lookup in Hb as [i Hb]. rewrite Hid.
    by eapply Hold.
Qed.

Lemma live_ids_NoDup (s : Session.t) :
  wf_bullets s →
  NoDup ((λ ba, Bullet.id (Session.records s !!! ba)) <$> Session.bullets s).
Proof.
  intros [Hc [Hnd _]].
  assert (NoDup (Session.bullets s)) as Hlive.
  { assert (NoDup (Session.bullets s ++ Session.bulletPool s)) as Hnd'.
    { unfold conserved in Hc. rewrite Hc. apply NoDup_seq. }
    by apply NoDup_app in Hnd' as [? _]. }
  apply NoDup_fmap_2_strong; [|done].
  intros ba ba' Hba Hba' Heq.
  assert (ba < length (Session.records s)) by (apply conserved_lt; set_solver).
  assert (ba' < length (Session.records s)) by (apply conserved_lt; set_solver).
  eapply NoDup_lookup; [exact Hnd| |].
  - rewrite list_lookup_fmap, (list_lookup_lookup_total_lt _ ba) by done. done.
  - rewrite list_lookup_fmap, (list_lookup_lookup_total_lt _ ba') by done.
    simpl. by rewrite Heq.
Qed.

Lemma wf_bullets_fresh pm alive sim bc :
  wf_bullets (Session.mk pm alive [] [] 1 [] sim bc None).
Proof.
  split; [unfold conserved; simpl; reflexivity|].
  split; simpl; [apply NoDup_nil_2|apply Forall_nil_2].
Qed.

Lemma handleShootBullet_spawns (socket : Socket.t) (gameId roomId : string)
    (bulletType direction : Js.val) (w : World.t) (game : Game.t) (a : nat)
    (s : Session.t) (player : Player.t) :
  obj_get gameId (World.games w) = Some game →
  find_room game roomId = Own a →
  session_at w a = Some s →
  obj_get (Socket.id socket) (Session.playersMap s) = Some player →
  Player.isDead player = false →
  shot_rejected bulletType direction = false →
  ∃ type speedValue radius rangeLimit ba s1,
    acquire (λ id, make_bullet id player type speedValue radius rangeLimit direction) s
    = Done (ba, make_bullet (Session.bulletIdCounter s) player type speedValue
                  radius rangeLimit direction) s1
    ∧ World.heap (final (handleShootBullet socket gameId roomId bulletType direction w))
      = World.heap (with_session a
          (Session.set_bullets (Session.bullets s1 ++ [ba]) s1) w).
Proof.
  intros Hgame Hroom Hs Hp Hd Hrej.
  assert (∃ type sp r rl, bullet_params bulletType = Some (type, sp, r, rl))
    as (type & sp & r & rl & Hpar).
  { unfold shot_rejected in Hrej. apply orb_false_elim in Hrej as [_ Hk].
    apply negb_false_iff in Hk. unfold known_bulletType, bullet_params in *.
    destruct bulletType as [| | | |t|]; try done.
    destruct (String.eqb t "fullyCharged"); [by eauto 10|].
    destruct (String.eqb t "charged"); [by eauto 10|done]. }
  unfold handleShootBullet, session_of. munfold. unfold session_at in Hs.
  rewrite Hgame, Hroom, Hs, Hp, Hd, Hrej, Hpar.
  destruct (acquire_cases (λ id, make_bullet id player type sp r rl direction) s)
    as [(ba & rest & Hpool & Heq)|[Hpool Heq]].
  - eexists type, sp, r, rl, ba, _. split; [exact Heq|].
    unfold in_session. rewrite Hs. munfold. rewrite Heq. done.
  - eexists type, sp, r, rl, _, _. split; [exact Heq|].
    unfold in_session. rewrite Hs. munfold. rewrite Heq. done.
Qed.

Lemma session_at_heap (w w' : World.t) (a : nat) :
  World.heap w' = World.heap w → session_at w' a = session_at w a.
Proof. unfold session_at. by intros ->. Qed.

(** C8, as amended: projectile ids are fresh as long as the counter
    advances.  Take a session whose bullet records are well formed (every
    record in one place, no two with the same id, every id below the
    counter) and whose counter still grows when 1 is added to it.  Across any
    event the session is well formed again and no two live records carry the
    same id; the event spawns no bullet, and then the counter and all ids are
    as they were, or it spawns one: the record, taken from the pool or new,
    gets the value of the counter as its id and goes to the end of the live
    list, and 1 is added to the counter, so that the new id is above the id
    of every record the session held and below the new counter.  An accepted
    shot does spawn.  A session just started is well formed, with the counter
    at 1, which advances. *)
Theorem projectile_ids_fresh (act : Action) (w : World.t) (a : nat)
    (s s' : Session.t) :
  session_at w a = Some s →
  session_at (final (perform act w)) a = Some s' →
  wf_bullets s →
  advances (Session.bulletIdCounter s) →
  wf_bullets s'
  ∧ NoDup ((λ ba, Bullet.id (Session.records s' !!! ba)) <$> Session.bullets s')
  ∧ (no_spawn s s'
     ∨ ∃ ba, spawned ba s s'
         ∧ Bullet.id (Session.records s' !!! ba) = Session.bulletIdCounter s
         ∧ PrimFloat.ltb (Bullet.id (Session.records s' !!! ba))
             (Session.bulletIdCounter s') = true
         ∧ ∀ b, b ∈ Session.records s →
             PrimFloat.ltb (Bullet.id b) (Bullet.id (Session.records s' !!! ba)) = true)
  ∧ (∀ socket gameId roomId bulletType direction game player,
       act = Shoot socket gameId roomId bulletType direction →
       obj_get gameId (World.games w) = Some game →
       find_room game roomId = Own a →
       obj_get (Socket.id socket) (Session.playersMap s) = Some player →
       Player.isDead player = false →
       shot_rejected bulletType direction = false →
       ∃ ba, spawned ba s s')
  ∧ ∀ rnd gameId b s0,
      session_at (final (startAgarIoRoom rnd gameId b w)) b = Some s0 →
      wf_bullets s0
      ∧ Session.bulletIdCounter s0 = 1%float
      ∧ advances (Session.bulletIdCounter s0).
Proof.
  intros Hs Hs' [Hc Hi] Hadv.
  assert (conserved s') as Hc'.
  { eapply conserved_steps; [exact Hc|].
    exact (sessions_related_at _ _ _ _ _ _ (related_perform act w) Hs Hs'). }
  pose proof (sessions_related_at _ _ _ _ _ _ (ids_step_perform act w) Hs Hs' Hc)
    as Hstep.
  assert (ids_issued s'
          ∧ (no_spawn s s'
             ∨ ∃ ba, spawned ba s s'
                 ∧ Bullet.id (Session.records s' !!! ba) = Session.bulletIdCounter s
                 ∧ PrimFloat.ltb (Bullet.id (Session.records s' !!! ba))
                     (Session.bulletIdCounter s') = true
                 ∧ ∀ b, b ∈ Session.records s →
                     PrimFloat.ltb (Bullet.id b)
                       (Bullet.id (Session.records s' !!! ba)) = true))
    as [Hi' Hcases].
  { destruct Hstep as [Hn|[ba Hsp]].
    - split; [by eapply ids_issued_no_spawn|by left].
    - destruct (ids_issued_spawned ba s s' Hi Hadv Hsp) as (? & ? & ? & ?).
      split; [done|]. right. by exists ba. }
  split_and!.
  - done.
  - by apply live_ids_NoDup.
  - done.
  - intros socket gameId roomId bulletType direction game player -> Hgame Hroom Hp Hd Hrej.
    destruct (handleShootBullet_spawns socket gameId roomId bulletType direction w
                game a s player Hgame Hroom Hs Hp Hd Hrej)
      as (type & sp & r & rl & ba & s1 & Hacq & Hheap).
    destruct (acquire_spawned (λ id, make_bullet id player type sp r rl direction) s)
      as (ba' & s1' & Hacq' & Hsp); [done..|].
    rewrite Hacq in Hacq'. injection Hacq' as <- <-.
    exists ba. simpl in Hs'. unfold shoot in Hs'.
    rewrite (session_at_heap _ _ a Hheap) in Hs'.
    rewrite session_at_with_session in Hs' by (by eapply session_at_lt).
    by injection Hs' as <-.
  - intros rnd gameId b s0 Hs0.
    destruct (startAgarIoRoom_heap rnd gameId b w) as (pm & alive & sim & bc & Hheap).
    unfold session_at in Hs0. rewrite Hheap in Hs0.
    destruct (decide (b < length (World.heap w))) as [Hb|Hb].
    + rewrite list_lookup_total_alter_eq in Hs0 by done. injection Hs0 as <-.
      split_and!; [apply wf_bullets_fresh|done|reflexivity].
    + rewrite list_lookup_total_alt, lookup_ge_None_2 in Hs0; [done|].
      rewrite length_alter. lia.
Qed.

Lemma recycle_world_wf : all_sessions wf_bullets recycle_world.
Proof.
  apply all_sessions_Forall.
  assert (Room.session <$> World.heap recycle_world
          = [Some (the_session recycle_world 0); None]) as Hh by (by vm_compute).
  apply (Forall_fmap Room.session (from_option wf_bullets True)).
  rewrite Hh. apply Forall_cons_2; [|apply Forall_cons_2; [done|apply Forall_nil_2]].
  simpl. split; [|split].
  - unfold conserved. by vm_compute.
  - vm_compute. apply NoDup_singleton.
  - vm_compute. by apply Forall_singleton.
Qed.

Lemma recycle_session_wf : wf_bullets (the_session recycle_world 0).
Proof.
  split; [|split].
  - unfold conserved. by vm_compute.
  - vm_compute. apply NoDup_singleton.
  - vm_compute. by apply Forall_singleton.
Qed.

Lemma recycle_shot_facts :
  session_at recycle_world 0 = Some (the_session recycle_world 0)
  ∧ session_at
      (final (perform (Shoot alice "1" "r" (Js.Str "charged") east) recycle_world)) 0
    = Some (the_session
        (final (perform (Shoot alice "1" "r" (Js.Str "charged") east) recycle_world)) 0)
  ∧ advances (Session.bulletIdCounter (the_session recycle_world 0))
  ∧ obj_get "1" (World.games recycle_world)
    = Some (Game.mk [("lobby", 1)] [("r", 0)] (Some "1"%string) true)
  ∧ obj_get (Socket.id alice) (Session.playersMap (the_session recycle_world 0))
    = Some (Player.mk "A" "alice" 109 540 10 false 0 0).
Proof. split_and!; by vm_compute. Qed.

(** Alice shoots once more after her first bullet has left the world: its
    record comes back from the pool with the id 2. *)
Lemma projectile_ids_fresh_witness :
  wf_bullets (the_session
    (final (perform (Shoot alice "1" "r" (Js.Str "charged") east) recycle_world)) 0)
  ∧ ∃ ba, spawned ba (the_session recycle_world 0)
      (the_session
         (final (perform (Shoot alice "1" "r" (Js.Str "charged") east) recycle_world))
         0).
Proof.
  destruct recycle_shot_facts as (Hs & Hs' & Hadv & Hgame & Hplayer).
  destruct (projectile_ids_fresh (Shoot alice "1" "r" (Js.Str "charged") east)
              recycle_world 0 (the_session recycle_world 0)
              (the_session
                 (final (perform (Shoot alice "1" "r" (Js.Str "charged") east)
                           recycle_world)) 0)
              Hs Hs' recycle_session_wf Hadv)
    as (Hwf & _ & _ & Hshot & _).
  split; [exact Hwf|].
  exact (Hshot alice "1" "r" (Js.Str "charged") east
           (Game.mk [("lobby", 1)] [("r", 0)] (Some "1"%string) true)
           (Player.mk "A" "alice" 109 540 10 false 0 0)
           eq_refl Hgame eq_refl Hplayer eq_refl eq_refl).
Defined.

(** C8 fails as stated: with the counter at [2^53], where adding 1 changes
    it no more, two shots of alice leave two live bullets with the same id,
    and the counter where it was. *)
Lemma counter_stuck_ids_repeat :
  Session.bulletIdCounter (the_session worn_world 0) = 9007199254740992%float
  ∧ (λ s, (λ ba, Bullet.id (Session.records s !!! ba)) <$> Session.bullets s)
      (the_session
         (final (shoot alice "1" "r" (Js.Str "charged") east
            (final (shoot alice "1" "r" (Js.Str "charged") east worn_world)))) 0)
    = [9007199254740992%float; 9007199254740992%float]
  ∧ Session.bulletIdCounter (the_session
      (final (shoot alice "1" "r" (Js.Str "charged") east
         (final (shoot alice "1" "r" (Js.Str "charged") east worn_world)))) 0)
    = 9007199254740992%float.
Proof. by vm_compute. Qed.

(** The counter advances at 1 and at [2^53 - 1], and not at [2^53]. *)
Example counter_advances_below_2_53 :
  advances 1 ∧ advances 9007199254740991 ∧ ¬ advances 9007199254740992.
Proof. split_and!; [reflexivity..|]. by vm_compute. Qed.


(** The record of the bullet that left the world is reused for the next shot
    and gets the next id. *)
Example recycled_record_gets_fresh_id :
  Bullet.id <$> Session.records (the_session recycle_world 0) = [1%float]
  ∧ Session.bulletPool (the_session recycle_world 0) = [0]
  ∧ Session.bulletIdCounter (the_session recycle_world 0) = 2%float
  ∧ Session.bullets (the_session
      (final (shoot alice "1" "r" (Js.Str "charged") east recycle_world)) 0) = [0]
  ∧ Bullet.id <$> Session.records (the_session
      (final (shoot alice "1" "r" (Js.Str "charged") east recycle_world)) 0)
    = [2%float]
  ∧ Session.bulletIdCounter (the_session
      (final (shoot alice "1" "r" (Js.Str "charged") east recycle_world)) 0)
    = 3%float.
Proof. by vm_compute. Qed.

(** C9: bullet records are conserved.  In a world where every record of
    every session is in exactly one of the live list and the pool, this holds
    again for a session just started and after any event the server reacts
    to; [endAgarIoRoom] allocates nothing and leaves the live list empty and
    as many records in the pool as the session ever allocated; and [acquire]
    takes the last record of the pool whenever the pool is not empty, and
    allocates only when it is. *)
Theorem projectile_records_conserved (act : Action) (w : World.t) :
  all_sessions conserved w →
  all_sessions conserved (final (perform act w))
  ∧ (∀ rnd gameId a, all_sessions conserved (final (startAgarIoRoom rnd gameId a w)))
  ∧ (∀ gameId a s,
       session_at w a = Some s →
       ∃ s', session_at (final (endAgarIoRoom gameId a w)) a = Some s'
             ∧ Session.bullets s' = []
             ∧ Session.records s' = Session.records s
             ∧ length (Session.bulletPool s') = length (Session.records s))
  ∧ (∀ a s mk,
       session_at w a = Some s →
       ∃ ba b s', acquire mk s = Done (ba, b) s'
         ∧ if bool_decide (Session.bulletPool s = [])
           then ba = length (Session.records s)
                ∧ Session.records s' = Session.records s ++ [b]
                ∧ Session.bulletPool s' = []
           else last (Session.bulletPool s) = Some ba
                ∧ Session.bulletPool s' ++ [ba] = Session.bulletPool s
                ∧ Session.records s' = <[ba := b]> (Session.records s)
                ∧ length (Session.records s') = length (Session.records s)).
Proof.
  intros Hc. split_and!.
  - eapply all_sessions_related; [|exact Hc|apply related_perform].
    intros s s'. apply conserved_steps.
  - intros. apply startAgarIoRoom_sessions; [|done].
    intros. unfold conserved. simpl. reflexivity.
  - intros gameId a s Hs. exists (ended s).
    assert (conserved s) as Hcs.
    { apply session_at_lookup in Hs as (r & Hr & Hs). by eapply Hc. }
    split_and!.
    + rewrite endAgarIoRoom_spec.
      destruct (Game.io _); simpl; by rewrite session_at_end_world, Hs.
    + done.
    + done.
    + simpl. unfold conserved in Hcs. rewrite Permutation_app_comm, Hcs.
      apply length_seq.
  - intros a s mk Hs.
    destruct (acquire_cases mk s) as [(ba & rest & Hpool & Heq)|[Hpool Heq]];
      rewrite Heq; do 3 eexists; (split; [done|]).
    + rewrite bool_decide_eq_false_2 by (rewrite Hpool; by destruct rest).
      simpl. rewrite Hpool, last_snoc, length_insert. done.
    + rewrite bool_decide_eq_true_2 by done. done.
Qed.

Lemma recycle_world_conserved : all_sessions conserved recycle_world.
Proof. intros a r s Hr Hs. by apply (recycle_world_wf a r s). Qed.

Lemma projectile_records_conserved_witness :
  all_sessions conserved recycle_world
  ∧ all_sessions conserved
      (final (perform (Shoot alice "1" "r" (Js.Str "charged") east) recycle_world)).
Proof.
  split; [exact recycle_world_conserved|].
  exact (proj1 (projectile_records_conserved
                  (Shoot alice "1" "r" (Js.Str "charged") east)
                  recycle_world recycle_world_conserved)).
Defined.

(** ** The lobby registry *)

Lemma obj_get_elem_of {A} (k : string) (v : A) (o : list (string * A)) :
  obj_get k o = Some v → (k, v) ∈ o.
Proof.
  induction o as [|[k' v'] o IH]; simpl; [done|].
  case_bool_decide; [intros [= ->]; subst; left|right; auto].
Qed.

Lemma obj_get_None {A} (k : string) (o : list (string * A)) :
  obj_get k o = None ↔ k ∉ o.*1.
Proof.
  induction o as [|[k' v'] o IH]; simpl.
  - split; [intros _; apply not_elem_of_nil|done].
  - rewrite not_elem_of_cons. case_bool_decide; naive_solver.
Qed.

Lemma elem_of_obj_get {A} (k : string) (v : A) (o : list (string * A)) :
  NoDup o.*1 → (k, v) ∈ o → obj_get k o = Some v.
Proof.
  induction o as [|[k' v'] o IH]; simpl; [by intros _ ?%elem_of_nil|].
  intros [Hk Hnd]%NoDup_cons [[= -> ->]|Hin]%elem_of_cons.
  - by rewrite bool_decide_eq_true_2.
  - rewrite bool_decide_eq_false_2; [by apply IH|].
    intros ->. apply Hk. apply list_elem_of_fmap. by exists (k, v).
Qed.

Lemma obj_set_absent {A} (k : string) (v : A) (o : list (string * A)) :
  obj_get k o = None → obj_set k v o = o ++ [(k, v)].
Proof.
  induction o as [|[k' v'] o IH]; simpl; [done|].
  case_bool_decide; [done|]. intros H0. by rewrite IH.
Qed.

Lemma obj_delete_sublist {A} (k : string) (o : list (string * A)) :
  obj_delete k o `sublist_of` o.
Proof. apply sublist_filter. Qed.

Lemma elem_of_obj_delete {A} (k : string) (e : string * A) (o : list (string * A)) :
  e ∈ obj_delete k o ↔ e.1 ≠ k ∧ e ∈ o.
Proof. unfold obj_delete. by rewrite list_elem_of_filter. Qed.

Lemma NoDup_fst_sublist {A} (o o' : list (string * A)) :
  o' `sublist_of` o → NoDup o.*1 → NoDup o'.*1.
Proof. intros Hsub Hnd. eapply sublist_NoDup; [exact Hnd|]. by apply fmap_sublist. Qed.

Lemma obj_delete_length {A} (k : string) (o : list (string * A)) :
  NoDup o.*1 → length o ≤ S (length (obj_delete k o)).
Proof.
  unfold obj_delete. induction o as [|[k' v'] o IH]; simpl; [lia|].
  intros [Hk Hnd]%NoDup_cons. rewrite filter_cons. simpl. case_decide as Hd.
  - simpl. specialize (IH Hnd). lia.
  - try apply dec_stable in Hd. subst k'.
    assert (filter (λ kv : string * A, kv.1 ≠ k) o = o) as ->; [|lia].
    apply obj_delete_absent. by apply obj_get_None.
Qed.

Lemma filler_length (n : nat) : String.length (filler n) = n.
Proof. induction n as [|n IH]; simpl; [done|]. by f_equal. Qed.

Lemma fresh_id_fresh (used : list string) : fresh_id used ∉ used.
Proof.
  intros Hin. unfold fresh_id in Hin.
  assert (String.length (filler (S (max_list (String.length <$> used))))
          ≤ max_list (String.length <$> used)) as Hle.
  { apply max_list_elem_of_le. apply list_elem_of_fmap. eauto. }
  rewrite filler_length in Hle. lia.
Qed.

Lemma is_empty_room_players (w : World.t) (a : nat) :
  is_empty_room w a = true ↔ Room.players (World.heap w !!! a) = [].
Proof.
  unfold is_empty_room. rewrite bool_decide_eq_true. apply length_zero_iff_nil.
Qed.

Lemma has_empty_room_elem (w : World.t) (game : Game.t) :
  has_empty_room w game ↔
  ∃ entry, entry ∈ Game.rooms game ∧ is_empty_room w entry.2 = true.
Proof.
  unfold has_empty_room, emptyRooms. split.
  - intros Hne. destruct (filter _ _) as [|e l] eqn:Hf; [done|].
    exists e. apply and_comm.
    apply (list_elem_of_filter (λ ka, is_empty_room w ka.2 = true)).
    rewrite Hf. left.
  - intros (e & He & Hempty) Hnil.
    assert (e ∈ filter (λ ka, is_empty_room w ka.2 = true) (Game.rooms game)) as Hin
      by (by apply list_elem_of_filter).
    rewrite Hnil in Hin. by apply elem_of_nil in Hin.
Qed.

Lemma lookup_total_players (w w' : World.t) (a : nat) (r r' : Room.t) :
  World.heap w !! a = Some r → World.heap w' !! a = Some r' →
  Room.players (World.heap w' !!! a) = Room.players r'
  ∧ Room.players (World.heap w !!! a) = Room.players r.
Proof.
  intros Hr Hr'. by rewrite (list_lookup_total_correct _ _ _ Hr),
    (list_lookup_total_correct _ _ _ Hr').
Qed.

(** An empty room stays empty while rooms only lose players and the store
    keeps its size. *)
Lemma is_empty_room_shrinks (w w' : World.t) (a : nat) :
  length (World.heap w') = length (World.heap w) →
  (∀ a r, World.heap w !! a = Some r →
     ∃ r', World.heap w' !! a = Some r'
           ∧ Room.players r' `sublist_of` Room.players r) →
  is_empty_room w a = true → is_empty_room w' a = true.
Proof.
  intros Hlen Hshrink. rewrite !is_empty_room_players.
  destruct (World.heap w !! a) as [r|] eqn:Hr.
  - destruct (Hshrink a r Hr) as (r' & Hr' & Hsub).
    destruct (lookup_total_players w w' a r r' Hr Hr') as [-> ->].
    intros Hnil. rewrite Hnil in Hsub. by apply sublist_nil_r.
  - intros _. rewrite list_lookup_total_alt, lookup_ge_None_2; [done|].
    apply lookup_ge_None in Hr. lia.
Qed.

#[global] Instance lobby_unchanged_refl : Reflexive lobby_unchanged.
Proof.
  intros w. split_and!.
  - intros a r Hr. by exists r.
  - intros gameId game Hg. by exists game.
  - intros gameId game' Hg Hn. congruence.
Qed.

#[global] Instance lobby_unchanged_trans : Transitive lobby_unchanged.
Proof.
  intros w1 w2 w3 (Hh & Hg & Hn) (Hh' & Hg' & Hn'). split_and!.
  - intros a r Hr. destruct (Hh a r Hr) as (r2 & Hr2 & ?).
    destruct (Hh' a r2 Hr2) as (r3 & Hr3 & ?). exists r3. split; [done|congruence].
  - intros gameId game Hgame. destruct (Hg _ _ Hgame) as (g2 & Hg2 & ?).
    destruct (Hg' _ _ Hg2) as (g3 & Hg3 & ?). exists g3. split; [done|congruence].
  - intros gameId g3 Hg3 Hnone.
    destruct (obj_get gameId (World.games w2)) as [g2|] eqn:Hg2.
    + destruct (Hg' _ _ Hg2) as (g3' & Hg3' & Heq). simplify_eq.
      rewrite Heq. by eapply Hn.
    + by eapply Hn'.
Qed.

Lemma unchanged_same {A} (m : M World.t A) :
  (∀ w, World.heap (final (m w)) = World.heap w
        ∧ World.games (final (m w)) = World.games w) →
  preserves lobby_unchanged m.
Proof.
  intros Hm w. destruct (Hm w) as [Hh Hg]. split_and!.
  - intros a r Hr. exists r. by rewrite Hh.
  - intros gameId game Hgame. exists game. by rewrite Hg.
  - intros gameId game'. rewrite Hg. congruence.
Qed.

Lemma unchanged_update_room (a : nat) (f : Room.t → Room.t) :
  (∀ r, Room.players (f r) = Room.players r) →
  preserves lobby_unchanged (update_room a f).
Proof.
  intros Hf w. split_and!; simpl.
  - intros b r Hr. rewrite list_lookup_alter.
    case_decide; subst; rewrite ?Hr; simpl; eexists; split; try reflexivity; auto.
  - intros gameId game Hgame. by exists game.
  - congruence.
Qed.

Lemma unchanged_in_session {A} (a : nat) (m : M Session.t A) :
  preserves lobby_unchanged (in_session a m).
Proof.
  intros w. unfold in_session.
  destruct (Room.session (World.heap w !!! a)) as [s|]; [|simpl; reflexivity].
  assert (∀ s', lobby_unchanged w (World.set_heap
    (alter (Room.set_session (Some s')) a (World.heap w)) w)) as Hu.
  { intros s'. apply (unchanged_update_room a (Room.set_session (Some s'))). done. }
  destruct (m s); apply Hu.
Qed.

Lemma unchanged_update_game (gameId : string) (f : Game.t → Game.t) :
  (∀ g, Game.rooms (f g) = Game.rooms g) →
  preserves lobby_unchanged (update_game gameId f).
Proof.
  intros Hf w. split_and!; simpl.
  - intros a r Hr. by exists r.
  - intros k game Hgame. rewrite obj_get_alter, Hgame.
    case_bool_decide; simpl; eexists; split; try reflexivity; auto.
  - intros k game'. rewrite obj_get_alter. case_bool_decide; [|congruence].
    intros Hg Hn. by rewrite Hn in Hg.
Qed.

Lemma obj_get_app_r {A} (k : string) (o o' : list (string * A)) :
  obj_get k o = None → obj_get k (o ++ o') = obj_get k o'.
Proof.
  induction o as [|[k' v'] o IH]; simpl; [done|]. by case_bool_decide.
Qed.

Lemma unchanged_getGame (gameId : string) :
  preserves lobby_unchanged (getGame gameId).
Proof.
  intros w. unfold getGame.
  destruct (obj_get gameId (World.games w)) eqn:Hg; simpl; [reflexivity|].
  split_and!; simpl.
  - intros a r Hr. by exists r.
  - intros k game Hk. exists game. split; [|done]. by apply obj_get_app_l.
  - intros k game' Hk Hn. rewrite obj_get_app_r in Hk by done. simpl in Hk.
    case_bool_decide; by simplify_eq.
Qed.

Ltac unchanged_prim :=
  first
    [ apply unchanged_getGame
    | apply unchanged_in_session
    | apply unchanged_same; intros ?;
      unfold emit, socket_join, socket_leave, clearInterval;
      munfold; simpl; try done; by case_match
    | apply unchanged_update_game; intros []; done
    | apply unchanged_update_room; intros []; done ].

Lemma unchanged_endAgarIoRoom (gameId : string) (a : nat) :
  preserves lobby_unchanged (endAgarIoRoom gameId a).
Proof. unfold endAgarIoRoom, update_session. preserve. all: unchanged_prim. Qed.

Lemma unchanged_endAgarIoRoom_builtin (gameId : string) :
  preserves lobby_unchanged (endAgarIoRoom_builtin gameId).
Proof. unfold endAgarIoRoom_builtin. preserve. all: unchanged_prim. Qed.

Lemma unchanged_broadcastGameState io gameId roomId a :
  preserves lobby_unchanged (broadcastGameState io gameId roomId a).
Proof. unfold broadcastGameState. preserve. all: unchanged_prim. Qed.

Lemma unchanged_updateBullets (gameId : string) (a : nat) :
  preserves lobby_unchanged (updateBullets gameId a).
Proof.
  unfold updateBullets, session_of, update_session. preserve.
  all: first [apply unchanged_endAgarIoRoom | unchanged_prim].
Qed.

(** The events that do not touch the lobby. *)
Lemma unchanged_perform (act : Action) :
  match act with
  | JoinGameChannel _ _ _ | RequestGameState _ _ | PlayerMove _ _ _ _
  | Shoot _ _ _ _ _ | EndGame _ _ | Fire _ => preserves lobby_unchanged (perform act)
  | _ => True
  end.
Proof.
  destruct act; try done; unfold perform, joinGameChannel, requestGameState,
    playerMove, shoot, endGame, fire, handlePlayerMove, handleShootBullet,
    session_of, update_session.
  all: preserve.
  all: first [ apply unchanged_endAgarIoRoom | apply unchanged_endAgarIoRoom_builtin
             | apply unchanged_updateBullets
             | apply unchanged_broadcastGameState | unchanged_prim ].
Qed.

Lemma lobby_unchanged_heap_length (w w' : World.t) :
  lobby_unchanged w w' → length (World.heap w) ≤ length (World.heap w').
Proof.
  intros (Hh & _ & _).
  destruct (decide (length (World.heap w) ≤ length (World.heap w'))); [done|].
  exfalso.
  assert (length (World.heap w) - 1 < length (World.heap w)) as Ha by lia.
  destruct (lookup_lt_is_Some_2 _ _ Ha) as [r Hr].
  destruct (Hh _ _ Hr) as (r' & Hr' & _). apply lookup_lt_Some in Hr'. lia.
Qed.

Lemma lobby_unchanged_empty (w w' : World.t) (a : nat) :
  lobby_unchanged w w' → a < length (World.heap w) →
  is_empty_room w' a = is_empty_room w a.
Proof.
  intros (Hh & _ & _) Ha. destruct (lookup_lt_is_Some_2 _ _ Ha) as [r Hr].
  destruct (Hh a r Hr) as (r' & Hr' & Hp). unfold is_empty_room.
  destruct (lookup_total_players w w' a r r' Hr Hr') as [-> ->]. by rewrite Hp.
Qed.

Lemma lobby_unchanged_ok (w w' : World.t) :
  registry_ok w → lobby_unchanged w w' → registry_ok w' ∧ lobby_kept w w'.
Proof.
  intros [Hok Hdisj] Hu. pose proof (lobby_unchanged_heap_length _ _ Hu) as Hlen.
  pose proof Hu as (Hh & Hg & Hn).
  assert (∀ gameId game', obj_get gameId (World.games w') = Some game' →
    (∃ game, obj_get gameId (World.games w) = Some game
             ∧ Game.rooms game' = Game.rooms game)
    ∨ Game.rooms game' = []) as Hback.
  { intros gameId game' Hg'.
    destruct (obj_get gameId (World.games w)) as [game|] eqn:Hgame.
    - left. destruct (Hg _ _ Hgame) as (g2 & Hg2 & Heq). simplify_eq. eauto.
    - right. by eapply Hn. }
  split; [split|].
  - intros gameId game' Hg'. destruct (Hback _ _ Hg') as [(game & Hgame & ->)| ->].
    + destruct (Hok _ _ Hgame) as [? Hval]. split; [done|].
      intros a Ha. specialize (Hval a Ha). lia.
    + split; [apply NoDup_nil_2|]. intros a Ha. by apply elem_of_nil in Ha.
  - intros g1 g2 game1 game2 a Hne Hg1 Hg2.
    destruct (Hback _ _ Hg1) as [(game1' & Hgame1 & ->)| ->];
      [|by intros ?%elem_of_nil].
    destruct (Hback _ _ Hg2) as [(game2' & Hgame2 & ->)| ->];
      [|intros _; apply not_elem_of_nil].
    by eapply Hdisj.
  - intros gameId game Hgame. destruct (Hg _ _ Hgame) as (game' & Hg' & Heq).
    exists game'. split; [done|]. split.
    + rewrite !has_empty_room_elem, Heq. intros (e & He & Hempty). exists e.
      split; [done|]. rewrite (lobby_unchanged_empty w w'); [done..|].
      destruct (Hok _ _ Hgame) as [_ Hval]. apply Hval.
      apply list_elem_of_fmap. by exists e.
    + intros entry He. left. by rewrite Heq.
Qed.

Lemma is_empty_room_ext (w w' : World.t) (a : nat) :
  World.heap w' = World.heap w → is_empty_room w' a = is_empty_room w a.
Proof. unfold is_empty_room. by intros ->. Qed.

Lemma emptyRooms_ext (w w' : World.t) (game : Game.t) :
  World.heap w' = World.heap w → emptyRooms w' game = emptyRooms w game.
Proof.
  intros Hh. unfold emptyRooms. apply list_filter_iff. intros ka.
  by rewrite (is_empty_room_ext w w').
Qed.

Lemma registry_ok_ext (w w' : World.t) :
  World.heap w' = World.heap w → World.games w' = World.games w →
  registry_ok w → registry_ok w'.
Proof. unfold registry_ok. by intros -> ->. Qed.

#[global] Instance lobby_shrinks_refl : Reflexive lobby_shrinks.
Proof.
  intros w. split_and!; try done.
  - intros a r Hr. by exists r.
  - intros gameId game Hg. exists game. split_and!; try done. by left.
Qed.

#[global] Instance lobby_shrinks_trans : Transitive lobby_shrinks.
Proof.
  intros w1 w2 w3 (Hl & Hh & Hn & Hg) (Hl' & Hh' & Hn' & Hg'). split_and!.
  - congruence.
  - intros a r Hr. destruct (Hh a r Hr) as (r2 & Hr2 & ?).
    destruct (Hh' a r2 Hr2) as (r3 & Hr3 & ?). exists r3. split; [done|by etrans].
  - intros gameId. by rewrite Hn', Hn.
  - intros gameId game Hgame.
    destruct (Hg _ _ Hgame) as (g2 & Hg2 & Hsub & Hemp & Hent).
    destruct (Hg' _ _ Hg2) as (g3 & Hg3 & Hsub' & Hemp' & Hent').
    exists g3. split_and!; [done|by etrans|by auto|].
    intros entry He. destruct (Hent entry He) as [He2|[Hempty Hhas]].
    + destruct (Hent' entry He2) as [?|[? ?]]; [by left|by right].
    + right. split; [|by auto]. by eapply is_empty_room_shrinks.
Qed.

(** A change outside the store and the registry. *)
Lemma shrinks_same (w w' : World.t) :
  World.heap w' = World.heap w → World.games w' = World.games w →
  lobby_shrinks w w'.
Proof.
  intros Hh Hg. split_and!.
  - by rewrite Hh.
  - intros a r Hr. exists r. by rewrite Hh.
  - intros gameId. by rewrite Hg.
  - intros gameId game Hgame. exists game. rewrite Hg. split_and!; try done.
    + unfold has_empty_room. by rewrite (emptyRooms_ext w w').
    + by left.
Qed.

(** Players leave room [a]. *)
Lemma shrinks_players (w w' : World.t) (a : nat) (f : Room.t → Room.t) :
  (∀ r, Room.players (f r) `sublist_of` Room.players r) →
  World.heap w' = alter f a (World.heap w) → World.games w' = World.games w →
  lobby_shrinks w w'.
Proof.
  intros Hf Hh Hg.
  assert (∀ b r, World.heap w !! b = Some r →
     ∃ r', World.heap w' !! b = Some r'
           ∧ Room.players r' `sublist_of` Room.players r) as Hshrink.
  { intros b r Hr. rewrite Hh, list_lookup_alter.
    case_decide; subst; rewrite ?Hr; simpl; eexists; split; try reflexivity; auto. }
  assert (length (World.heap w') = length (World.heap w)) as Hlen
    by (by rewrite Hh, length_alter).
  split_and!; try done.
  - intros gameId. by rewrite Hg.
  - intros gameId game Hgame. exists game. rewrite Hg. split_and!; try done.
    + rewrite !has_empty_room_elem. intros (e & He & Hempty). exists e.
      split; [done|]. by eapply is_empty_room_shrinks.
    + by left.
Qed.

(** An empty room is deleted while another empty room exists. *)
Lemma shrinks_delete (w w' : World.t) (gameId roomId : string) (game : Game.t)
    (a : nat) :
  registry_ok w →
  obj_get gameId (World.games w) = Some game →
  (roomId, a) ∈ Game.rooms game →
  is_empty_room w a = true →
  1 < length (emptyRooms w game) →
  World.heap w' = World.heap w →
  World.games w' = obj_alter (λ g, Game.set_rooms (obj_delete roomId (Game.rooms g)) g)
                     gameId (World.games w) →
  registry_ok w' ∧ lobby_shrinks w w'.
Proof.
  intros [Hok Hdisj] Hgame Hentry Hempty Hmany Hh Hg.
  destruct (Hok _ _ Hgame) as [Hnd Hval].
  set (game' := Game.set_rooms (obj_delete roomId (Game.rooms game)) game).
  assert (∀ k, obj_get k (World.games w') =
    if bool_decide (k = gameId) then Some game' else obj_get k (World.games w)) as Hget.
  { intros k. rewrite Hg, obj_get_alter. case_bool_decide; [|done].
    subst. by rewrite Hgame. }
  assert (has_empty_room w' game') as Hhas.
  { unfold has_empty_room, emptyRooms. subst game'. simpl. unfold obj_delete.
    rewrite list_filter_filter.
    assert (length (emptyRooms w game)
            ≤ S (length (obj_delete roomId (emptyRooms w game)))) as Hle.
    { apply obj_delete_length. eapply NoDup_fst_sublist; [|exact Hnd].
      apply sublist_filter. }
    unfold obj_delete, emptyRooms in Hle. rewrite list_filter_filter in Hle.
    intros Hnil.
    assert (filter (λ x : string * nat, x.1 ≠ roomId ∧ is_empty_room w x.2 = true)
              (Game.rooms game) = []) as Hnil'.
    { rewrite <-Hnil. apply list_filter_iff. intros x.
      rewrite (is_empty_room_ext w w') by done. naive_solver. }
    rewrite Hnil' in Hle. simpl in Hle. unfold emptyRooms in Hmany. lia. }
  split; [split|].
  - intros k g. rewrite Hget. case_bool_decide; [intros [= <-]|intros Hk].
    + simpl. split; [by eapply NoDup_fst_sublist; [apply obj_delete_sublist|]|].
      intros b Hb. rewrite Hh. apply Hval.
      eapply elem_of_sublist; [exact Hb|]. apply fmap_sublist, obj_delete_sublist.
    + rewrite Hh. by apply (Hok k).
  - intros k1 k2 g1 g2 b Hne. rewrite !Hget.
    assert (∀ b, b ∈ (Game.rooms game').*2 → b ∈ (Game.rooms game).*2) as Hsub.
    { intros b' Hb'. eapply elem_of_sublist; [exact Hb'|].
      apply fmap_sublist, obj_delete_sublist. }
    repeat case_bool_decide; subst; try done.
    + intros [= <-] Hg2 Hb Hb2. by eapply (Hdisj gameId k2 game g2 b); auto.
    + intros Hg1 [= <-] Hb Hb2. by eapply (Hdisj k1 gameId g1 game b); auto.
    + intros Hg1 Hg2. by apply (Hdisj k1 k2 g1 g2 b).
  - split_and!.
    + by rewrite Hh.
    + intros b r Hr. exists r. by rewrite Hh.
    + intros k. rewrite Hget. case_bool_decide; subst; [|done]. by rewrite Hgame.
    + intros k g Hk. rewrite Hget. case_bool_decide; subst.
      * simplify_eq. exists game'. split_and!; [done|apply obj_delete_sublist|done|].
        intros [k' b] He. destruct (decide (k' = roomId)) as [->|Hne].
        -- right. assert (b = a) as ->.
           { pose proof (elem_of_obj_get _ _ _ Hnd He).
             pose proof (elem_of_obj_get _ _ _ Hnd Hentry). congruence. }
           split; [|done]. by rewrite (is_empty_room_ext w w').
        -- left. simpl. by apply elem_of_obj_delete.
      * exists g. split_and!; [done|done| |by left].
        unfold has_empty_room. by rewrite (emptyRooms_ext w w').
Qed.

Lemma lobby_shrinks_kept (w w' : World.t) : lobby_shrinks w w' → lobby_kept w w'.
Proof.
  intros (_ & _ & _ & Hg) gameId game Hgame.
  destruct (Hg _ _ Hgame) as (game' & ? & ? & ? & ?). by exists game'.
Qed.

(** The step the leave and disconnect handlers share: players have left room
    [a], which is then deleted if it is empty and not the only empty room;
    the rest of the handler changes neither store nor registry. *)
Lemma shrinks_leave (w w1 w' : World.t) (gameId roomId : string) (game : Game.t)
    (a : nat) (f : Room.t → Room.t) :
  registry_ok w →
  obj_get gameId (World.games w) = Some game →
  (roomId, a) ∈ Game.rooms game →
  (∀ r, Room.players (f r) `sublist_of` Room.players r) →
  World.heap w1 = alter f a (World.heap w) → World.games w1 = World.games w →
  World.heap w' = World.heap w1 →
  World.games w' =
    (if bool_decide (length (Room.players (World.heap w1 !!! a)) = 0)
        && bool_decide (1 < length (emptyRooms w1 game))
     then obj_alter (λ g, Game.set_rooms (obj_delete roomId (Game.rooms g)) g)
            gameId (World.games w1)
     else World.games w1) →
  registry_ok w' ∧ lobby_shrinks w w'.
Proof.
  intros Hok Hgame Hentry Hf Hh1 Hg1 Hh' Hg'.
  assert (registry_ok w1) as Hok1.
  { destruct Hok as [Hok Hdisj]. split.
    - intros k g. rewrite Hg1, Hh1, length_alter. apply Hok.
    - intros ?????. rewrite Hg1. apply Hdisj. }
  pose proof (shrinks_players w w1 a f Hf Hh1 Hg1) as Hs1.
  destruct (bool_decide (length _ = 0) && _) eqn:Hcond.
  - apply andb_true_iff in Hcond as [Hempty Hmany].
    apply bool_decide_eq_true in Hmany.
    destruct (shrinks_delete w1 w' gameId roomId game a) as [Hok' Hs']; try done.
    + by rewrite Hg1.
    + split; [done|]. by etrans.
  - split; [by apply (registry_ok_ext w1)|].
    etrans; [exact Hs1|]. by apply shrinks_same.
Qed.

Lemma leaveRoom_shrinks (socket : Socket.t) (gameId roomId : string) (game : Game.t)
    (w : World.t) :
  registry_ok w →
  obj_get gameId (World.games w) = Some game →
  registry_ok (final (leaveRoom socket gameId roomId w))
  ∧ lobby_shrinks w (final (leaveRoom socket gameId roomId w)).
Proof.
  intros Hok Hgame.
  unfold leaveRoom, getGame, socket_leave, update_room, update_game, the_game, deref,
    updateRoomCountForEveryone, broadcastRooms, emit. munfold.
  rewrite Hgame.
  destruct (obj_get roomId (Game.rooms game)) as [a|] eqn:Ha;
    [|case_bool_decide; (split; [done|by apply shrinks_same])].
  simpl. rewrite Hgame. simpl.
  set (f := λ r : Room.t, Room.set_players
         (filter (λ p, is_socket socket p = false) (Room.players r)) r).
  set (w1 := World.set_heap (alter f a (World.heap w)) w).
  eapply (shrinks_leave w w1 _ gameId roomId game a f); try done.
  - by apply obj_get_elem_of.
  - intros r. simpl. apply sublist_filter.
  - by destruct (bool_decide _ && bool_decide _).
  - rewrite (emptyRooms_ext w1 (World.set_heap _ (World.set_joined _ w))) by done.
    by destruct (bool_decide _ && bool_decide _).
Qed.

Lemma leaveRoom_unchanged (socket : Socket.t) (gameId roomId : string) (w : World.t) :
  obj_get gameId (World.games w) = None →
  lobby_unchanged w (final (leaveRoom socket gameId roomId w)).
Proof.
  intros Hgame. pose proof (unchanged_getGame gameId w) as Hu.
  unfold leaveRoom, getGame, socket_leave in *. munfold.
  rewrite Hgame in *. simpl. case_bool_decide; exact Hu.
Qed.

Lemma leaveRoom_kept (socket : Socket.t) (gameId roomId : string) (w : World.t) :
  registry_ok w →
  registry_ok (final (leaveRoom socket gameId roomId w))
  ∧ lobby_kept w (final (leaveRoom socket gameId roomId w)).
Proof.
  intros Hok. destruct (obj_get gameId (World.games w)) as [game|] eqn:Hgame.
  - destruct (leaveRoom_shrinks socket gameId roomId game w Hok Hgame) as [? ?].
    split; [done|]. by apply lobby_shrinks_kept.
  - apply lobby_unchanged_ok; [done|]. by apply leaveRoom_unchanged.
Qed.

Lemma ensureSingleEmptyRoom_noop (gameId : string) (game : Game.t) (w : World.t) :
  obj_get gameId (World.games w) = Some game → has_empty_room w game →
  ensureSingleEmptyRoom gameId w = Done () w.
Proof.
  intros Hgame Hhas. unfold ensureSingleEmptyRoom, getGame. munfold.
  rewrite Hgame. unfold has_empty_room in Hhas.
  by destruct (emptyRooms w game).
Qed.

#[global] Instance shrinking_refl : Reflexive shrinking.
Proof. intros w Hok. split; [done|reflexivity]. Qed.

#[global] Instance shrinking_trans : Transitive shrinking.
Proof.
  intros w1 w2 w3 H12 H23 Hok. destruct (H12 Hok) as [Hok2 Hs12].
  destruct (H23 Hok2) as [Hok3 Hs23]. split; [done|by etrans].
Qed.

Lemma shrinks_registry_same (w w' : World.t) (gameId : string) (f : Game.t → Game.t) :
  (∀ g, Game.rooms (f g) = Game.rooms g) →
  World.heap w' = World.heap w →
  World.games w' = obj_alter f gameId (World.games w) →
  shrinking w w'.
Proof.
  intros Hf Hh Hg [Hok Hdisj].
  assert (∀ k, obj_get k (World.games w') = None ↔ obj_get k (World.games w) = None)
    as Hnone.
  { intros k. rewrite Hg, obj_get_alter. case_bool_decide; [|done].
    by destruct (obj_get k (World.games w)). }
  assert (∀ k g', obj_get k (World.games w') = Some g' →
    ∃ g, obj_get k (World.games w) = Some g ∧ Game.rooms g' = Game.rooms g) as Hback.
  { intros k g'. rewrite Hg, obj_get_alter. case_bool_decide; [|eauto].
    destruct (obj_get k (World.games w)) as [g|]; [|done]. simpl.
    intros [= <-]. eauto. }
  assert (∀ k g, obj_get k (World.games w) = Some g →
    ∃ g', obj_get k (World.games w') = Some g' ∧ Game.rooms g' = Game.rooms g) as Hfwd.
  { intros k g Hk. rewrite Hg, obj_get_alter, Hk. case_bool_decide; simpl; eauto. }
  split; [split|split_and!].
  - intros k g' Hk. destruct (Hback _ _ Hk) as (g & Hgk & ->). rewrite Hh.
    by apply (Hok k).
  - intros k1 k2 g1 g2 b Hne Hk1 Hk2.
    destruct (Hback _ _ Hk1) as (g1' & Hgk1 & ->).
    destruct (Hback _ _ Hk2) as (g2' & Hgk2 & ->).
    by apply (Hdisj k1 k2 g1' g2' b).
  - by rewrite Hh.
  - intros b r Hr. exists r. by rewrite Hh.
  - done.
  - intros k g Hk. destruct (Hfwd _ _ Hk) as (g' & Hk' & Heq).
    exists g'. split_and!; [done|by rewrite Heq| |by left; rewrite Heq].
    unfold has_empty_room, emptyRooms. rewrite Heq.
    intros Hne. contradict Hne. rewrite <-Hne. apply list_filter_iff. intros x.
    by rewrite (is_empty_room_ext w w').
Qed.

Lemma disconnect_lobby_step (socket : Socket.t) (gameId roomId : string) (a : nat)
    (w : World.t) (game : Game.t) :
  registry_ok w →
  obj_get gameId (World.games w) = Some game →
  (roomId, a) ∈ Game.rooms game →
  registry_ok (final (disconnect_lobby socket gameId (roomId, a) w))
  ∧ lobby_shrinks w (final (disconnect_lobby socket gameId (roomId, a) w))
  ∧ ∀ game',
      obj_get gameId (World.games (final (disconnect_lobby socket gameId (roomId, a) w)))
      = Some game' →
      ∀ e, e ∈ Game.rooms game → e.1 ≠ roomId → e ∈ Game.rooms game'.
Proof.
  intros Hok Hgame Hentry.
  unfold disconnect_lobby, update_room, update_game, the_game, deref.
  munfold. destruct (findIndex _ _) as [i|]; simpl.
  2: { split_and!; [done|reflexivity|]. intros game'. rewrite Hgame.
       by intros [= <-]. }
  rewrite Hgame. simpl.
  set (f := λ r : Room.t, Room.set_players (delete i (Room.players r)) r).
  set (w1 := World.set_heap (alter f a (World.heap w)) w).
  set (del := obj_alter (λ g : Game.t,
                Game.set_rooms (obj_delete roomId (Game.rooms g)) g) gameId).
  assert (∀ r, Room.players (f r) `sublist_of` Room.players r) as Hf
    by (intros r; apply sublist_delete).
  destruct (bool_decide (length _ = 0) && bool_decide _) eqn:Hcond.
  - (* the room is deleted; an empty room is left, so that none is created *)
    set (w2 := World.set_games (del (World.games w1)) w1).
    destruct (shrinks_leave w w1 w2 gameId roomId game a f) as [Hok2 Hs2]; try done.
    { subst w2. simpl. by rewrite Hcond. }
    assert (obj_get gameId (World.games w2)
            = Some (Game.set_rooms (obj_delete roomId (Game.rooms game)) game)) as Hg2.
    { subst w2 del. simpl. rewrite obj_get_alter, bool_decide_eq_true_2 by done.
      by rewrite Hgame. }
    assert (has_empty_room w2 (Game.set_rooms (obj_delete roomId (Game.rooms game)) game))
      as Hhas.
    { destruct Hs2 as (_ & _ & _ & Hg). destruct (Hg _ _ Hgame) as (g' & Hg' & _ & _ & He).
      rewrite Hg2 in Hg'. injection Hg' as <-.
      destruct (He _ Hentry) as [Hin|[_ ?]]; [|done].
      simpl in Hin. apply elem_of_obj_delete in Hin as [Hne _]. done. }
    rewrite (ensureSingleEmptyRoom_noop gameId _ w2 Hg2 Hhas).
    unfold broadcastRooms, the_game, emit. munfold. simpl. split_and!.
    + by apply (registry_ok_ext w2).
    + etrans; [exact Hs2|]. by apply shrinks_same.
    + intros game'. change (del (World.games w)) with (World.games w2).
      rewrite Hg2. intros [= <-] e He Hne. simpl. by apply elem_of_obj_delete.
  - unfold broadcastRooms, the_game, emit. munfold. simpl.
    destruct (shrinks_leave w w1 w1 gameId roomId game a f) as [Hok2 Hs2]; try done.
    { simpl. by rewrite Hcond. }
    split_and!.
    + by apply (registry_ok_ext w1).
    + etrans; [exact Hs2|]. by apply shrinks_same.
    + intros game'. rewrite Hgame. by intros [= <-].
Qed.

Lemma for_each_cons_final {S A} (x : A) (l : list A) (f : A → M S unit) (s : S) :
  final (for_each (x :: l) f s)
  = match f x s with
    | Done _ s1 => final (for_each l f s1)
    | Threw s1 => s1
    end.
Proof. simpl. munfold. by destruct (f x s). Qed.

Lemma disconnect_lobby_loop (socket : Socket.t) (gameId : string)
    (l : list (string * nat)) (w : World.t) (game : Game.t) :
  registry_ok w →
  obj_get gameId (World.games w) = Some game →
  (∀ e, e ∈ l → e ∈ Game.rooms game) →
  NoDup l.*1 →
  registry_ok (final (for_each l (disconnect_lobby socket gameId) w))
  ∧ lobby_shrinks w (final (for_each l (disconnect_lobby socket gameId) w)).
Proof.
  revert w game. induction l as [|[roomId a] l IH]; intros w game Hok Hgame Hl Hnd.
  { simpl. split; [done|reflexivity]. }
  rewrite for_each_cons_final.
  destruct (disconnect_lobby_step socket gameId roomId a w game) as (Hok1 & Hs1 & Hrest);
    [done|done|apply Hl; left|].
  destruct (disconnect_lobby socket gameId (roomId, a) w) as [[] w1|w1]; simpl in *;
    [|by split].
  apply NoDup_cons in Hnd as [Hk Hnd].
  destruct Hs1 as (Hl1 & Hh1 & Hn1 & Hg1).
  destruct (Hg1 _ _ Hgame) as (game1 & Hgame1 & _).
  destruct (IH w1 game1) as [Hok' Hs']; try done.
  - intros e He. apply (Hrest game1 Hgame1); [apply Hl; by right|].
    intros Heq. apply Hk. rewrite <-Heq. apply list_elem_of_fmap. by exists e.
  - split; [done|]. etrans; [|exact Hs']. by split_and!.
Qed.

Lemma shrinking_update_room (a : nat) (f : Room.t → Room.t) :
  (∀ r, Room.players (f r) `sublist_of` Room.players r) →
  preserves shrinking (update_room a f).
Proof.
  intros Hf w Hok. simpl. split; [|by apply (shrinks_players w _ a f)].
  destruct Hok as [Hok Hdisj]. split; [|done].
  intros k g. simpl. rewrite length_alter. apply Hok.
Qed.

Lemma shrinking_update_game (gameId : string) (f : Game.t → Game.t) :
  (∀ g, Game.rooms (f g) = Game.rooms g) →
  preserves shrinking (update_game gameId f).
Proof. intros Hf w. by apply (shrinks_registry_same w _ gameId f). Qed.

Lemma shrinking_same {A} (m : M World.t A) :
  (∀ w, World.heap (final (m w)) = World.heap w
        ∧ World.games (final (m w)) = World.games w) →
  preserves shrinking m.
Proof.
  intros Hm w Hok. destruct (Hm w) as [Hh Hg].
  split; [by apply (registry_ok_ext w)|by apply shrinks_same].
Qed.

Lemma shrinking_broadcastRooms (gameId : string) :
  preserves shrinking (broadcastRooms gameId).
Proof. by apply shrinking_same. Qed.

Lemma shrinking_disconnect_active (socket : Socket.t) (gameId : string)
    (entry : string * nat) :
  preserves shrinking (disconnect_active socket gameId entry).
Proof.
  unfold disconnect_active. preserve.
  - apply shrinking_update_room. intros r. apply sublist_delete.
  - by apply shrinking_update_game.
  - apply shrinking_broadcastRooms.
Qed.

(** One round of the disconnect handler: the lobby rooms and then the active
    rooms of one game. *)
Lemma shrinking_disconnect_game (socket : Socket.t) (gameId : string) :
  preserves shrinking
    (game ← the_game gameId;
     for_each (entries (Game.rooms game)) (disconnect_lobby socket gameId);;
     game ← the_game gameId;
     for_each (entries (Game.activeRooms game)) (disconnect_active socket gameId)).
Proof.
  assert (∀ w, shrinking w (final (for_each
    (entries (Game.rooms (default inhabitant (obj_get gameId (World.games w)))))
    (disconnect_lobby socket gameId) w))) as Hlobby.
  { intros w Hok.
    destruct (obj_get gameId (World.games w)) as [game|] eqn:Hgame; simpl.
    - apply (disconnect_lobby_loop socket gameId (entries (Game.rooms game)) w game);
        try done.
      + intros e. by rewrite elem_of_entries.
      + rewrite entries_keys_perm. destruct Hok as [Hok _]. by apply (Hok gameId).
    - split; [done|reflexivity]. }
  intros w. unfold the_game. munfold.
  specialize (Hlobby w).
  destruct (for_each _ (disconnect_lobby socket gameId) w) as [[] w1|w1]; simpl in *;
    [|done].
  etrans; [exact Hlobby|].
  apply (preserves_for_each shrinking). intros entry.
  apply shrinking_disconnect_active.
Qed.

Lemma shrinking_disconnect (socket : Socket.t) : preserves shrinking (disconnect socket).
Proof.
  unfold disconnect.
  apply (preserves_bind shrinking); [by apply shrinking_same|]. intros _.
  apply (preserves_bind shrinking); [by apply shrinking_same|]. intros w.
  apply (preserves_bind shrinking); [by apply shrinking_same|]. intros _.
  apply (preserves_for_each shrinking). intros gameId.
  apply shrinking_disconnect_game.
Qed.

Lemma disconnect_kept (socket : Socket.t) (w : World.t) :
  registry_ok w →
  registry_ok (final (disconnect socket w))
  ∧ lobby_kept w (final (disconnect socket w)).
Proof.
  intros Hok. destruct (shrinking_disconnect socket w Hok) as [? ?].
  split; [done|]. by apply lobby_shrinks_kept.
Qed.

(** The lobby grew: the room objects of [w] are those of [w'] with the same
    players, and every game kept its lobby rooms. *)
Lemma grows_kept (w w' : World.t) :
  registry_ok w →
  (∀ a r, World.heap w !! a = Some r →
     ∃ r', World.heap w' !! a = Some r' ∧ Room.players r' = Room.players r) →
  (∀ k g, obj_get k (World.games w) = Some g →
     ∃ g', obj_get k (World.games w') = Some g'
           ∧ ∀ e, e ∈ Game.rooms g → e ∈ Game.rooms g') →
  lobby_kept w w'.
Proof.
  intros [Hok _] Hh Hg k g Hk. destruct (Hg _ _ Hk) as (g' & Hk' & Hsub).
  exists g'. split; [done|]. split; [|by left; apply Hsub].
  rewrite !has_empty_room_elem. intros (e & He & Hempty). exists e.
  split; [by apply Hsub|].
  destruct (Hok _ _ Hk) as [_ Hval].
  assert (e.2 < length (World.heap w)) as Hlt.
  { apply Hval. apply list_elem_of_fmap. by exists e. }
  destruct (lookup_lt_is_Some_2 _ _ Hlt) as [r Hr].
  destruct (Hh _ _ Hr) as (r' & Hr' & Hp).
  revert Hempty. unfold is_empty_room.
  destruct (lookup_total_players w w' e.2 r r' Hr Hr') as [-> ->]. by rewrite Hp.
Qed.

(** What [ensureSingleEmptyRoom] does to a game that exists. *)
Lemma ensureSingleEmptyRoom_cases (gameId : string) (game : Game.t) (w : World.t) :
  obj_get gameId (World.games w) = Some game →
  (has_empty_room w game ∧ ensureSingleEmptyRoom gameId w = Done () w)
  ∨ ((¬ has_empty_room w game)
     ∧ ∃ roomId,
         (roomId ∉ (Game.rooms game).*1)
         ∧ World.heap (final (ensureSingleEmptyRoom gameId w))
           = World.heap w ++ [Room.mk (Some roomId) [] None]
         ∧ World.games (final (ensureSingleEmptyRoom gameId w))
           = obj_alter (λ g, Game.set_rooms
               (Game.rooms g ++ [(roomId, length (World.heap w))]) g)
               gameId (World.games w)).
Proof.
  intros Hgame.
  destruct (decide (has_empty_room w game)) as [Hhas|Hno].
  { left. split; [done|]. by apply (ensureSingleEmptyRoom_noop gameId game). }
  right. split; [done|].
  set (roomId := fresh_id ((Game.rooms game).*1 ++ (Game.activeRooms game).*1)).
  assert (roomId ∉ (Game.rooms game).*1) as Hfresh.
  { intros Hin. apply (fresh_id_fresh ((Game.rooms game).*1 ++ (Game.activeRooms game).*1)).
    apply elem_of_app. by left. }
  exists roomId. split; [done|].
  unfold ensureSingleEmptyRoom, getGame, alloc_room, update_game. munfold.
  rewrite Hgame. unfold has_empty_room in Hno. apply dec_stable in Hno.
  rewrite Hno. simpl. split; [done|]. fold roomId.
  apply obj_alter_ext. intros g Hg. assert (g = game) as -> by congruence.
  by rewrite obj_set_absent by (by apply obj_get_None).
Qed.

Lemma ensureSingleEmptyRoom_grows (gameId : string) (game : Game.t) (w : World.t) :
  registry_ok w →
  obj_get gameId (World.games w) = Some game →
  registry_ok (final (ensureSingleEmptyRoom gameId w))
  ∧ (∀ a r, World.heap w !! a = Some r →
       World.heap (final (ensureSingleEmptyRoom gameId w)) !! a = Some r)
  ∧ (∀ k g, obj_get k (World.games w) = Some g →
       ∃ g', obj_get k (World.games (final (ensureSingleEmptyRoom gameId w))) = Some g'
             ∧ ∀ e, e ∈ Game.rooms g → e ∈ Game.rooms g')
  ∧ ∃ game', obj_get gameId (World.games (final (ensureSingleEmptyRoom gameId w)))
             = Some game'
             ∧ has_empty_room (final (ensureSingleEmptyRoom gameId w)) game'.
Proof.
  intros Hok Hgame.
  destruct (ensureSingleEmptyRoom_cases gameId game w Hgame)
    as [[Hhas ->]|(Hno & roomId & Hfresh & Hh & Hg)]; simpl.
  { split_and!; eauto. }
  set (w' := final (ensureSingleEmptyRoom gameId w)) in *.
  set (a := length (World.heap w)) in *.
  set (game' := Game.set_rooms (Game.rooms game ++ [(roomId, a)]) game).
  assert (∀ k, obj_get k (World.games w') =
    if bool_decide (k = gameId) then Some game' else obj_get k (World.games w)) as Hget.
  { intros k. rewrite Hg, obj_get_alter. case_bool_decide; [|done].
    subst. by rewrite Hgame. }
  destruct Hok as [Hok Hdisj]. destruct (Hok _ _ Hgame) as [Hnd Hval].
  assert (length (World.heap w') = S a) as Hlen.
  { rewrite Hh, length_app. simpl. lia. }
  split_and!.
  - split.
    + intros k g. rewrite Hget, Hlen. case_bool_decide; [intros [= <-]|intros Hk].
      * simpl. rewrite !fmap_app. simpl. split.
        -- apply NoDup_app. split_and!; [done| |apply NoDup_singleton].
           intros x Hx ->%list_elem_of_singleton. done.
        -- intros b [Hb| ->%list_elem_of_singleton]%elem_of_app; [|lia].
           specialize (Hval b Hb). lia.
      * destruct (Hok _ _ Hk) as [? Hv]. split; [done|].
        intros b Hb. specialize (Hv b Hb). lia.
    + assert (∀ k g b, obj_get k (World.games w) = Some g → b ∈ (Game.rooms g).*2 →
                b ≠ a) as Hold.
      { intros k g b Hk Hb. destruct (Hok _ _ Hk) as [_ Hv]. specialize (Hv b Hb). lia. }
      intros k1 k2 g1 g2 b Hne. rewrite !Hget.
      repeat case_bool_decide; subst; try done.
      * intros [= <-] Hg2. simpl. rewrite fmap_app. simpl.
        intros [Hb| ->%list_elem_of_singleton]%elem_of_app Hb2.
        -- by apply (Hdisj gameId k2 game g2 b).
        -- by apply (Hold k2 g2 a).
      * intros Hg1 [= <-]. simpl. rewrite fmap_app. simpl.
        intros Hb [Hb2| ->%list_elem_of_singleton]%elem_of_app.
        -- by apply (Hdisj k1 gameId g1 game b).
        -- by apply (Hold k1 g1 a).
      * intros Hg1 Hg2. by apply (Hdisj k1 k2 g1 g2 b).
  - intros b r Hr. rewrite Hh. by apply lookup_app_l_Some.
  - intros k g Hk. rewrite Hget. case_bool_decide; subst.
    + simplify_eq. exists game'. split; [done|]. intros e He. simpl.
      apply elem_of_app. by left.
    + by exists g.
  - exists game'. rewrite Hget, bool_decide_eq_true_2 by done. split; [done|].
    apply has_empty_room_elem. exists (roomId, a). split.
    + simpl. apply elem_of_app. right. by apply list_elem_of_singleton.
    + apply is_empty_room_players. simpl. rewrite Hh.
      by rewrite lookup_total_app_r, Nat.sub_diag.
Qed.

#[global] Instance lobby_grows_refl : Reflexive lobby_grows.
Proof.
  intros w Hok. split_and!; [done| |].
  - intros a r Hr. by exists r.
  - intros k g Hk. by exists g.
Qed.

#[global] Instance lobby_grows_trans : Transitive lobby_grows.
Proof.
  intros w1 w2 w3 H12 H23 Hok. destruct (H12 Hok) as (Hok2 & Hh & Hg).
  destruct (H23 Hok2) as (Hok3 & Hh' & Hg'). split_and!; [done| |].
  - intros a r Hr. destruct (Hh _ _ Hr) as (r2 & Hr2 & ?).
    destruct (Hh' _ _ Hr2) as (r3 & Hr3 & ?). exists r3. split; [done|congruence].
  - intros k g Hk. destruct (Hg _ _ Hk) as (g2 & Hk2 & ?).
    destruct (Hg' _ _ Hk2) as (g3 & Hk3 & ?). exists g3. split; [done|]. auto.
Qed.

Lemma lobby_unchanged_grows (w w' : World.t) :
  lobby_unchanged w w' → lobby_grows w w'.
Proof.
  intros Hu Hok. destruct (lobby_unchanged_ok _ _ Hok Hu) as [Hok' _].
  destruct Hu as (Hh & Hg & _). split_and!; [done..|].
  intros k g Hk. destruct (Hg _ _ Hk) as (g' & Hk' & Heq). exists g'.
  split; [done|]. by rewrite Heq.
Qed.

Lemma lobby_grows_kept (w w' : World.t) :
  registry_ok w → lobby_grows w w' → registry_ok w' ∧ lobby_kept w w'.
Proof.
  intros Hok Hgr. destruct (Hgr Hok) as (Hok' & Hh & Hg). split; [done|].
  by apply grows_kept.
Qed.

Lemma grows_same {A} (m : M World.t A) :
  (∀ w, World.heap (final (m w)) = World.heap w
        ∧ World.games (final (m w)) = World.games w) →
  preserves lobby_grows m.
Proof. intros Hm w. apply lobby_unchanged_grows. by apply unchanged_same. Qed.

Lemma ensureSingleEmptyRoom_getGame (gameId : string) (w : World.t) :
  ensureSingleEmptyRoom gameId w
  = ensureSingleEmptyRoom gameId (final (getGame gameId w)).
Proof.
  unfold ensureSingleEmptyRoom, getGame. munfold.
  destruct (obj_get gameId (World.games w)) as [game|] eqn:Hgame; simpl.
  - by rewrite Hgame.
  - rewrite obj_get_app_r by done. simpl. by rewrite bool_decide_eq_true_2 by done.
Qed.

Lemma getGame_Some (gameId : string) (w : World.t) :
  ∃ game, obj_get gameId (World.games (final (getGame gameId w))) = Some game.
Proof.
  unfold getGame. destruct (obj_get gameId (World.games w)) as [game|] eqn:Hgame; simpl.
  - eauto.
  - rewrite obj_get_app_r by done. simpl. rewrite bool_decide_eq_true_2 by done. eauto.
Qed.

Lemma grows_ensureSingleEmptyRoom (gameId : string) :
  preserves lobby_grows (ensureSingleEmptyRoom gameId).
Proof.
  intros w. rewrite ensureSingleEmptyRoom_getGame.
  transitivity (final (getGame gameId w)).
  { apply lobby_unchanged_grows, unchanged_getGame. }
  destruct (getGame_Some gameId w) as [game Hgame].
  intros Hok.
  destruct (ensureSingleEmptyRoom_grows gameId game _ Hok Hgame) as (Hok' & Hh & Hg & _).
  split_and!; [done| |done].
  intros a r Hr. exists r. split; [|done]. by apply Hh.
Qed.

Lemma ensureSingleEmptyRoom_has_empty (gameId : string) (w : World.t) :
  registry_ok w →
  ∃ game', obj_get gameId (World.games (final (ensureSingleEmptyRoom gameId w)))
           = Some game'
           ∧ has_empty_room (final (ensureSingleEmptyRoom gameId w)) game'.
Proof.
  intros Hok. rewrite ensureSingleEmptyRoom_getGame.
  destruct (getGame_Some gameId w) as [game Hgame].
  destruct (lobby_unchanged_ok _ _ Hok (unchanged_getGame gameId w)) as [Hok0 _].
  by destruct (ensureSingleEmptyRoom_grows gameId game _ Hok0 Hgame) as (_ & _ & _ & ?).
Qed.

Lemma grows_requestRooms (socket : Socket.t) (gameId : string) :
  preserves lobby_grows (requestRooms socket gameId).
Proof.
  unfold requestRooms. preserve.
  - by apply grows_same.
  - apply grows_ensureSingleEmptyRoom.
  - by apply grows_same.
Qed.

Lemma requestRooms_kept (socket : Socket.t) (gameId : string) (w : World.t) :
  registry_ok w →
  registry_ok (final (requestRooms socket gameId w))
  ∧ lobby_kept w (final (requestRooms socket gameId w)).
Proof. intros Hok. apply lobby_grows_kept; [done|]. apply grows_requestRooms. Qed.

Lemma registry_ok_length (w w' : World.t) :
  length (World.heap w') = length (World.heap w) → World.games w' = World.games w →
  registry_ok w → registry_ok w'.
Proof. unfold registry_ok. by intros -> ->. Qed.

(** The end of [joinRoom]: the room check after the push, and the broadcast. *)
Lemma grows_join_tail (gameId : string) (b : bool) :
  preserves lobby_grows
    ((if b then ensureSingleEmptyRoom gameId else mret ());; broadcastRooms gameId).
Proof.
  preserve.
  - apply grows_ensureSingleEmptyRoom.
  - by apply grows_same.
Qed.

Lemma join_tail_has_empty (gameId : string) (w : World.t) :
  registry_ok w →
  ∃ game',
    obj_get gameId (World.games
      (final ((ensureSingleEmptyRoom gameId;; broadcastRooms gameId) w))) = Some game'
    ∧ has_empty_room
        (final ((ensureSingleEmptyRoom gameId;; broadcastRooms gameId) w)) game'.
Proof.
  intros Hok. destruct (ensureSingleEmptyRoom_has_empty gameId w Hok) as (g & Hg & Hhas).
  munfold. destruct (ensureSingleEmptyRoom gameId w) as [[] w1|w1]; simpl in *; eauto.
Qed.

(** A player pushed onto lobby room [a] of game [gameId], then the end of
    [joinRoom] from [w1] to [w']. *)
Lemma joined_kept (w w1 w' : World.t) (gameId roomId : string) (game : Game.t)
    (a : nat) (f : Room.t → Room.t) (b : bool) :
  registry_ok w →
  obj_get gameId (World.games w) = Some game →
  obj_get roomId (Game.rooms game) = Some a →
  World.heap w1 = alter f a (World.heap w) →
  World.games w1 = World.games w →
  b = bool_decide (length (Room.players (World.heap w1 !!! a)) = 1) →
  (∀ r, length (Room.players (f r)) = S (length (Room.players r))) →
  lobby_grows w1 w' →
  (b = true → ∃ game', obj_get gameId (World.games w') = Some game'
                        ∧ has_empty_room w' game') →
  registry_ok w' ∧ lobby_kept w w'.
Proof.
  intros Hok Hgame Ha Hh1 Hg1 Hb Hf Hgrows Hens.
  assert (registry_ok w1) as Hok1.
  { apply (registry_ok_length w); [|done..]. by rewrite Hh1, length_alter. }
  destruct (Hgrows Hok1) as (Hok' & Hh & Hg). split; [done|].
  destruct Hok as [Hreg Hdisj].
  destruct (Hreg _ _ Hgame) as [_ Hval].
  assert (a ∈ (Game.rooms game).*2) as Hin.
  { apply list_elem_of_fmap. exists (roomId, a). split; [done|]. by apply obj_get_elem_of. }
  assert (a < length (World.heap w)) as Hlt by auto.
  destruct (lookup_lt_is_Some_2 _ _ Hlt) as [r Hr].
  assert (World.heap w1 !!! a = f r) as Hfr.
  { apply list_lookup_total_correct. rewrite Hh1, list_lookup_alter.
    rewrite decide_True by done. by rewrite Hr. }
  intros k g Hk. rewrite <- Hg1 in Hk. destruct (Hg _ _ Hk) as (g' & Hk' & Hsub).
  rewrite Hg1 in Hk.
  exists g'. split; [done|]. split; [|by left; apply Hsub].
  intros Hhas.
  destruct b eqn:Hbv.
  - destruct (decide (k = gameId)) as [->|Hne].
    { destruct (Hens eq_refl) as (g2 & Hk2 & Hhas2). by simplify_eq. }
    apply has_empty_room_elem in Hhas as (e & He & Hempty).
    apply has_empty_room_elem. exists e. split; [by apply Hsub|].
    assert (e.2 ≠ a) as Hea.
    { intros Heq. apply (Hdisj k gameId g game a Hne Hk Hgame); [|done].
      rewrite <- Heq. apply list_elem_of_fmap. by exists e. }
    destruct (Hreg _ _ Hk) as [_ Hvalk].
    assert (e.2 < length (World.heap w)) as Hlte.
    { apply Hvalk. apply list_elem_of_fmap. by exists e. }
    destruct (lookup_lt_is_Some_2 _ _ Hlte) as [re Hre].
    assert (World.heap w1 !! e.2 = Some re) as Hre1.
    { rewrite Hh1, list_lookup_alter. by rewrite decide_False by done. }
    destruct (Hh _ _ Hre1) as (re' & Hre' & Hp).
    apply is_empty_room_players. apply is_empty_room_players in Hempty.
    rewrite (list_lookup_total_correct _ _ _ Hre'), Hp.
    by rewrite (list_lookup_total_correct _ _ _ Hre) in Hempty.
  - apply has_empty_room_elem in Hhas as (e & He & Hempty).
    apply has_empty_room_elem. exists e. split; [by apply Hsub|].
    assert (e.2 ≠ a) as Hea.
    { intros Heq. symmetry in Hb. apply bool_decide_eq_false in Hb. apply Hb.
      rewrite Hfr, Hf. apply is_empty_room_players in Hempty.
      rewrite Heq, (list_lookup_total_correct _ _ _ Hr) in Hempty.
      by rewrite Hempty. }
    destruct (Hreg _ _ Hk) as [_ Hvalk].
    assert (e.2 < length (World.heap w)) as Hlte.
    { apply Hvalk. apply list_elem_of_fmap. by exists e. }
    destruct (lookup_lt_is_Some_2 _ _ Hlte) as [re Hre].
    assert (World.heap w1 !! e.2 = Some re) as Hre1.
    { rewrite Hh1, list_lookup_alter. by rewrite decide_False by done. }
    destruct (Hh _ _ Hre1) as (re' & Hre' & Hp).
    apply is_empty_room_players. apply is_empty_room_players in Hempty.
    rewrite (list_lookup_total_correct _ _ _ Hre'), Hp.
    by rewrite (list_lookup_total_correct _ _ _ Hre) in Hempty.
Qed.

Lemma joinRoom_kept (socket : Socket.t) (gameId roomId : string)
    (userName : option string) (w : World.t) :
  registry_ok w →
  registry_ok (final (joinRoom socket gameId roomId userName w))
  ∧ lobby_kept w (final (joinRoom socket gameId roomId userName w)).
Proof.
  intros Hok. unfold joinRoom.
  destruct (obj_get gameId (World.games w)) as [game|] eqn:Hgame.
  - unfold getGame. munfold. rewrite Hgame.
    destruct (obj_get roomId (Game.rooms game)) as [a|] eqn:Ha;
      [|case_bool_decide; by apply lobby_unchanged_ok].
    unfold deref.
    destruct (find (is_socket socket) (Room.players (World.heap w !!! a))) eqn:Hfind.
    + apply lobby_unchanged_ok; [done|].
      by apply (unchanged_same (broadcastRooms gameId)).
    + unfold update_room, socket_join, deref. munfold.
      match goal with
      | |- context [alter ?g a (World.heap w)] => set (f := g)
      end.
      match goal with
      | |- context [World.set_joined ?j (World.set_heap ?h w)] =>
          set (w1 := World.set_joined j (World.set_heap h w))
      end.
      set (b := bool_decide (length (Room.players (World.heap w1 !!! a)) = 1)).
      eapply (joined_kept w w1 _ gameId roomId game a f b); try done.
      * intros r. unfold f. simpl. rewrite length_app. simpl. lia.
      * pose proof (grows_join_tail gameId b w1) as Htail.
        munfold. destruct b; apply Htail.
      * intros Hb. destruct (join_tail_has_empty gameId w1) as (g' & Hg' & Hhas).
        { apply (registry_ok_length w); [|done..]. simpl. by rewrite length_alter. }
        exists g'. munfold. by rewrite Hb.
  - apply lobby_unchanged_ok; [done|].
    pose proof (unchanged_getGame gameId w) as Hu.
    unfold getGame in *. munfold. rewrite Hgame in *. simpl.
    by case_bool_decide.
Qed.

Lemma perform_kept (act : Action) (w : World.t) :
  registry_ok w →
  registry_ok (final (perform act w)) ∧ lobby_kept w (final (perform act w)).
Proof.
  intros Hok. pose proof (unchanged_perform act) as Hu.
  destruct act; simpl;
    try (by apply lobby_unchanged_ok; [|apply Hu]).
  - by apply requestRooms_kept.
  - by apply joinRoom_kept.
  - by apply leaveRoom_kept.
  - by apply disconnect_kept.
Qed.

(** Alice joins the only empty lobby room: a second room is created, with a
    new id, and it is empty. *)
Example first_join_creates_an_empty_room :
  (Game.rooms <$> obj_get "1" (World.games lobby_world)) = Some [("lobby", 1)]
  ∧ (Game.rooms <$> obj_get "1" (World.games
       (final (joinRoom alice "1" "lobby" None lobby_world))))
    = Some [("lobby", 1); ("rrrrrr", 2)]
  ∧ is_empty_room (final (joinRoom alice "1" "lobby" None lobby_world)) 1 = false
  ∧ is_empty_room (final (joinRoom alice "1" "lobby" None lobby_world)) 2 = true.
Proof. by vm_compute. Qed.

(** Alice leaves it again: two lobby rooms are empty, and the one she left is
    deleted. *)
Example leave_deletes_the_left_room :
  (Game.rooms <$> obj_get "1" (World.games
     (final (leaveRoom alice "1" "lobby"
        (final (joinRoom alice "1" "lobby" None lobby_world))))))
  = Some [("rrrrrr", 2)].
Proof. by vm_compute. Qed.

(** ** The lobby invariant from the start of the server *)

Lemma lobby_from_same (w w' : World.t) :
  World.games w' = World.games w → lobby_from w w'.
Proof. intros Hg k g'. rewrite Hg. intros Hk Hne. right. by exists g'. Qed.

Lemma lobby_from_unchanged (w w' : World.t) :
  lobby_unchanged w w' → lobby_from w w'.
Proof.
  intros (_ & Hg & Hn) k g' Hk' Hne. right.
  destruct (obj_get k (World.games w)) as [g|] eqn:Hk.
  - exists g. split; [done|]. destruct (Hg _ _ Hk) as (g'' & Hk'' & Heq).
    assert (g'' = g') as -> by congruence. by rewrite <- Heq.
  - by specialize (Hn _ _ Hk' Hk).
Qed.

Lemma lobby_from_shrinks (w w' : World.t) :
  lobby_shrinks w w' → lobby_from w w'.
Proof.
  intros (_ & _ & Hnone & Hg) k g' Hk' Hne. right.
  destruct (obj_get k (World.games w)) as [g|] eqn:Hk.
  - exists g. split; [done|]. destruct (Hg _ _ Hk) as (g'' & Hk'' & Hsub & _).
    assert (g'' = g') as -> by congruence.
    intros Heq. rewrite Heq in Hsub. by apply sublist_nil_r in Hsub.
  - apply Hnone in Hk. congruence.
Qed.

Lemma ensureSingleEmptyRoom_others (gameId k : string) (w : World.t) :
  k ≠ gameId →
  obj_get k (World.games (final (ensureSingleEmptyRoom gameId w)))
  = obj_get k (World.games w).
Proof.
  intros Hne. rewrite ensureSingleEmptyRoom_getGame.
  destruct (getGame_Some gameId w) as [game Hgame].
  assert (obj_get k (World.games (final (getGame gameId w)))
          = obj_get k (World.games w)) as <-.
  { unfold getGame. destruct (obj_get gameId (World.games w)) eqn:Hg; simpl; [done|].
    destruct (obj_get k (World.games w)) eqn:Hk.
    - by apply obj_get_app_l.
    - rewrite obj_get_app_r by done. simpl. by rewrite bool_decide_eq_false_2. }
  destruct (ensureSingleEmptyRoom_cases gameId game _ Hgame)
    as [[_ ->]|(_ & roomId & _ & _ & ->)]; [done|].
  rewrite obj_get_alter. by rewrite bool_decide_eq_false_2.
Qed.

Lemma lobby_from_join_tail (gameId : string) (w : World.t) :
  registry_ok w →
  lobby_from w (final ((ensureSingleEmptyRoom gameId;; broadcastRooms gameId) w)).
Proof.
  intros Hok k g' Hk' Hne.
  destruct (decide (k = gameId)) as [->|Hk].
  - left. destruct (join_tail_has_empty gameId w Hok) as (g & Hg & Hhas). congruence.
  - right. exists g'. split; [|done].
    rewrite <- (ensureSingleEmptyRoom_others gameId k w Hk). revert Hk'. munfold.
    by destruct (ensureSingleEmptyRoom gameId w) as [[] w1|w1].
Qed.

Lemma lobby_from_requestRooms (socket : Socket.t) (gameId : string) (w : World.t) :
  registry_ok w → lobby_from w (final (requestRooms socket gameId w)).
Proof.
  intros Hok. unfold requestRooms, socket_join. munfold.
  match goal with
  | |- context [World.set_joined ?j w] => set (w1 := World.set_joined j w)
  end.
  assert (registry_ok w1) as Hok1 by done.
  pose proof (lobby_from_join_tail gameId w1 Hok1) as Hfrom.
  munfold. exact Hfrom.
Qed.

Lemma lobby_from_joinRoom (socket : Socket.t) (gameId roomId : string)
    (userName : option string) (w : World.t) :
  registry_ok w → lobby_from w (final (joinRoom socket gameId roomId userName w)).
Proof.
  intros Hok. unfold joinRoom.
  destruct (obj_get gameId (World.games w)) as [game|] eqn:Hgame.
  - unfold getGame. munfold. rewrite Hgame.
    destruct (obj_get roomId (Game.rooms game)) as [a|] eqn:Ha;
      [|case_bool_decide; by apply lobby_from_same].
    unfold deref.
    destruct (find (is_socket socket) (Room.players (World.heap w !!! a))) eqn:Hfind.
    + by apply lobby_from_same.
    + unfold update_room, socket_join, deref. munfold.
      match goal with
      | |- context [World.set_joined ?j (World.set_heap ?h w)] =>
          set (w1 := World.set_joined j (World.set_heap h w))
      end.
      assert (registry_ok w1) as Hok1.
      { apply (registry_ok_length w); [|done..]. simpl. by rewrite length_alter. }
      destruct (bool_decide (length (Room.players (World.heap w1 !!! a)) = 1)).
      * pose proof (lobby_from_join_tail gameId w1 Hok1) as Hfrom.
        munfold. exact Hfrom.
      * by apply lobby_from_same.
  - apply lobby_from_unchanged.
    pose proof (unchanged_getGame gameId w) as Hu.
    unfold getGame in *. munfold. rewrite Hgame in *. simpl.
    by case_bool_decide.
Qed.

Lemma lobby_from_perform (act : Action) (w : World.t) :
  registry_ok w → lobby_from w (final (perform act w)).
Proof.
  intros Hok. pose proof (unchanged_perform act) as Hu.
  destruct act; simpl; try (by apply lobby_from_unchanged, Hu).
  - by apply lobby_from_requestRooms.
  - by apply lobby_from_joinRoom.
  - destruct (obj_get gameId (World.games w)) as [game|] eqn:Hgame.
    + apply lobby_from_shrinks.
      by destruct (leaveRoom_shrinks socket gameId roomId game w Hok Hgame).
    + apply lobby_from_unchanged.
      exact (leaveRoom_unchanged socket gameId roomId w Hgame).
  - apply lobby_from_shrinks. by destruct (shrinking_disconnect socket w Hok).
Qed.

Lemma lobby_ok_perform (act : Action) (w : World.t) :
  lobby_ok w → lobby_ok (final (perform act w)).
Proof.
  intros [Hok Hinv]. destruct (perform_kept act w Hok) as [Hok' Hkept].
  split; [done|]. intros k g' Hk' Hne.
  destruct (lobby_from_perform act w Hok k g' Hk' Hne) as [?|(g & Hk & Hg)]; [done|].
  destruct (Hkept _ _ Hk) as (g'' & Hk'' & Hhas & _).
  assert (g'' = g') as -> by congruence. apply Hhas. by apply (Hinv k).
Qed.

Lemma lobby_ok_initial : lobby_ok initial_world.
Proof. split; [split|]; by intros. Qed.

Lemma startAgarIoRoom_lobby (rnd : nat → float) (gameId : string) (a : nat)
    (w : World.t) :
  lobby_ok w → lobby_ok (final (startAgarIoRoom rnd gameId a w)).
Proof.
  intros [Hok Hinv]. rewrite startAgarIoRoom_spec. cbn [final].
  assert (∀ game, emptyRooms (start_world rnd gameId a w) game = emptyRooms w game)
    as Hempty.
  { intros game. unfold emptyRooms. apply list_filter_iff. intros ka.
    unfold is_empty_room, start_world. cbn [World.heap].
    rewrite lookup_total_alter. by case_decide. }
  split.
  - apply (registry_ok_length w); [|done..]. unfold start_world. cbn [World.heap].
    by rewrite length_alter.
  - intros k g Hk Hne. unfold has_empty_room. rewrite Hempty. by apply (Hinv k).
Qed.





(** X1: the invariant of the lobby (room ids unique within a game, no room
    object shared between games, and every game type that has lobby rooms
    has one without players) holds from the start of the server; and from
    any world in which it holds, it holds after any sequence of events, and
    after the start of a session that follows them. *)
Theorem lobby_ok_run (acts : list Action) :
  lobby_ok (run acts initial_world)
  ∧ ∀ w, lobby_ok w →
      lobby_ok (run acts w)
      ∧ ∀ rnd gameId a, lobby_ok (final (startAgarIoRoom rnd gameId a (run acts w))).
Proof.
  assert (∀ w, lobby_ok w → lobby_ok (run acts w)) as Hrun.
  { unfold run. induction acts as [|act acts IH]; intros w Hw; simpl; [done|].
    apply IH. by apply lobby_ok_perform. }
  split; [apply Hrun, lobby_ok_initial|].
  intros w Hw. split; [by apply Hrun|].
  intros rnd gameId a. by apply startAgarIoRoom_lobby, Hrun.
Qed.

(** Alice asks for the rooms, joins the one created for her and is joined by
    bob: the game has her room and an empty one. *)
Example run_keeps_an_empty_room :
  (Game.rooms <$> obj_get "1" (World.games
     (run [RequestRooms alice "1"; JoinRoom alice "1" "r" None;
           JoinRoom bob "1" "r" None] initial_world)))
  = Some [("r", 0); ("rr", 1)]
  ∧ length (Room.players (World.heap
      (run [RequestRooms alice "1"; JoinRoom alice "1" "r" None;
            JoinRoom bob "1" "r" None] initial_world) !!! 0)) = 2
  ∧ is_empty_room
      (run [RequestRooms alice "1"; JoinRoom alice "1" "r" None;
            JoinRoom bob "1" "r" None] initial_world) 1 = true.
Proof. by vm_compute. Qed.

(** ** Events without a target, and the snapshot *)



(** X3: on a started room whose alive ids are all in [playersMap],
    [broadcastGameState] returns, changes nothing but the list of what was
    sent, and sends one snapshot with an entry for each alive id and for each
    live bullet; without the [io] reference it does nothing. *)
Theorem broadcastGameState_reads_only (w : World.t) (gameId roomId : option string)
    (a : nat) (s : Session.t) :
  session_at w a = Some s →
  Forall (λ socketId, is_Some (obj_get socketId (Session.playersMap s)))
    (Session.alivePlayers s) →
  broadcastGameState false gameId roomId a w = Done () w
  ∧ ∃ snap,
      snapshot roomId s = Some snap
      ∧ length (Snapshot.players snap) = length (Session.alivePlayers s)
      ∧ length (Snapshot.bullets snap) = length (Session.bullets s)
      ∧ broadcastGameState true gameId roomId a w
        = Done () (World.set_sent
            (World.sent w ++ [GameStateUpdate (channel_of gameId roomId) snap]) w).
Proof.
  intros Hs Halive. split; [done|].
  unfold broadcastGameState, snapshot, deref, emit, session_at in *. munfold. simpl.
  rewrite Hs.
  destruct (mapM (λ socketId, snapshot_player <$> obj_get socketId (Session.playersMap s))
              (Session.alivePlayers s)) as [playersData|] eqn:Hm.
  - simpl. eexists. split_and!; [done| | |done]; simpl.
    + by apply length_mapM in Hm.
    + by rewrite length_fmap.
  - exfalso. apply eq_None_not_Some in Hm. apply Hm. apply mapM_is_Some.
    eapply Forall_impl; [exact Halive|]. intros k [p Hp]. simpl. rewrite Hp. by eexists.
Qed.

Lemma broadcastGameState_reads_only_witness :
  broadcastGameState false (Some "1"%string) (Some "r"%string) 0 session_world
  = Done () session_world
  ∧ ∃ snap,
      snapshot (Some "r"%string) (the_session session_world 0) = Some snap
      ∧ length (Snapshot.players snap)
        = length (Session.alivePlayers (the_session session_world 0))
      ∧ length (Snapshot.bullets snap)
        = length (Session.bullets (the_session session_world 0))
      ∧ broadcastGameState true (Some "1"%string) (Some "r"%string) 0 session_world
        = Done () (World.set_sent
            (World.sent session_world
               ++ [GameStateUpdate (channel_of (Some "1"%string) (Some "r"%string)) snap])
            session_world).
Proof.
  apply (broadcastGameState_reads_only session_world (Some "1"%string)
           (Some "r"%string) 0 (the_session session_world 0)).
  - reflexivity.
  - repeat constructor; by eexists.
Defined.

(** ** Collisions *)

(** X4: the collision scan of a bullet marks the first player, in the order
    of [playersMap], that is neither its owner nor dead and is within reach,
    and changes nothing else; it finds nobody exactly when every player is
    passed over. *)
Theorem hit_first_victim (b : Bullet.t) (ps : list (string * Player.t)) :
  match hit b ps with
  | Some (ps', victim) =>
      ∃ before k after,
        ps = before ++ (k, victim) :: after
        ∧ ps' = before ++ (k, Player.set_isDead true victim) :: after
        ∧ Forall (λ kp, spared b kp.2) before
        ∧ Player.socketId victim ≠ Bullet.ownerId b
        ∧ Player.isDead victim = false
        ∧ collides b victim = true
  | None => Forall (λ kp, spared b kp.2) ps
  end.
Proof.
  induction ps as [|[k player] ps IH]; simpl; [done|].
  destruct (String.eqb (Player.socketId player) (Bullet.ownerId b)) eqn:Ho; simpl.
  { apply String.eqb_eq in Ho.
    destruct (hit b ps) as [[ps' victim]|]; simpl.
    - destruct IH as (before & k' & after & -> & -> & ? & ? & ? & ?).
      exists ((k, player) :: before), k', after. split_and!; try done.
      constructor; [by left|done].
    - constructor; [by left|done]. }
  apply String.eqb_neq in Ho.
  destruct (Player.isDead player) eqn:Hd; simpl.
  { destruct (hit b ps) as [[ps' victim]|]; simpl.
    - destruct IH as (before & k' & after & -> & -> & ? & ? & ? & ?).
      exists ((k, player) :: before), k', after. split_and!; try done.
      constructor; [by right; left|done].
    - constructor; [by right; left|done]. }
  destruct (collides b player) eqn:Hc.
  { exists [], k, ps. split_and!; done. }
  destruct (hit b ps) as [[ps' victim]|]; simpl.
  - destruct IH as (before & k' & after & -> & -> & ? & ? & ? & ?).
    exists ((k, player) :: before), k', after. split_and!; try done.
    constructor; [by right; right|done].
  - constructor; [by right; right|done].
Qed.

(** ** Moves *)

Lemma clamp_within (max value : float) :
  PrimFloat.ltb max 0 = false → PrimFloat.ltb max max = false →
  within max (clamp value 0 max).
Proof.
  intros H0 Hm. unfold clamp, within.
  destruct (PrimFloat.ltb value 0) eqn:Hlo; [done|].
  destruct (PrimFloat.ltb max value) eqn:Hhi; done.
Qed.

Lemma move_delta_cases (direction : Js.val) :
  move_delta direction ∈
    [(-4, -4); (4, -4); (-4, 4); (4, 4); (0, -4); (0, 4); (-4, 0); (4, 0); (0, 0)]%float.
Proof.
  unfold move_delta. destruct direction as [| | | |d|]; try (by repeat constructor).
  repeat (case_match; [by repeat constructor|]). by repeat constructor.
Qed.

Lemma obj_set_keys {A} (k : string) (v : A) (o : list (string * A)) :
  is_Some (obj_get k o) → (obj_set k v o).*1 = o.*1.
Proof.
  induction o as [|[k' v'] o IH]; simpl; [by intros [? ?]|].
  case_bool_decide; simpl; [by subst|]. intros Hk. f_equal. by apply IH.
Qed.

Lemma obj_get_set {A} (k k' : string) (v : A) (o : list (string * A)) :
  obj_get k' (obj_set k v o) = if bool_decide (k' = k) then Some v else obj_get k' o.
Proof.
  induction o as [|[k0 v0] o IH]; simpl.
  - repeat case_bool_decide; congruence.
  - repeat (case_bool_decide; simpl); try congruence.
Qed.

(** X5: a move of a living player of a started room returns and changes
    that player only: its position moves by the step of the direction and is
    kept within the world, [lastDx] and [lastDy] take the step when it is not
    zero, and its identity, mass and life are as before.  Every other player,
    the bullets, the registry and the timers stay, and nothing is emitted. *)
Theorem handlePlayerMove_moves_sender (w : World.t) (socket : Socket.t)
    (gameId roomId : string) (direction : Js.val)
    (game : Game.t) (a : nat) (s : Session.t) (player : Player.t) :
  obj_get gameId (World.games w) = Some game →
  find_room game roomId = Own a →
  session_at w a = Some s →
  obj_get (Socket.id socket) (Session.playersMap s) = Some player →
  Player.isDead player = false →
  ∃ moved,
    handlePlayerMove socket gameId roomId direction w
    = Done () (with_session a
        (Session.set_playersMap
           (obj_set (Socket.id socket) moved (Session.playersMap s)) s) w)
    ∧ Player.x moved
      = clamp (PrimFloat.add (Player.x player) (move_delta direction).1) 0 WORLD_WIDTH
    ∧ Player.y moved
      = clamp (PrimFloat.add (Player.y player) (move_delta direction).2) 0 WORLD_HEIGHT
    ∧ within WORLD_WIDTH (Player.x moved)
    ∧ within WORLD_HEIGHT (Player.y moved)
    ∧ (move_delta direction = (0, 0)%float →
       Player.lastDx moved = Player.lastDx player
       ∧ Player.lastDy moved = Player.lastDy player)
    ∧ (move_delta direction ≠ (0, 0)%float →
       (Player.lastDx moved, Player.lastDy moved) = move_delta direction)
    ∧ Player.socketId moved = Player.socketId player
    ∧ Player.userName moved = Player.userName player
    ∧ Player.mass moved = Player.mass player
    ∧ Player.isDead moved = false
    ∧ (obj_set (Socket.id socket) moved (Session.playersMap s)).*1
      = (Session.playersMap s).*1
    ∧ ∀ k, k ≠ Socket.id socket →
        obj_get k (obj_set (Socket.id socket) moved (Session.playersMap s))
        = obj_get k (Session.playersMap s).
Proof.
  intros Hgame Hroom Hs Hplayer Halive.
  unfold handlePlayerMove, session_of. munfold. rewrite Hgame, Hroom.
  pose proof Hs as Hs'. unfold session_at in Hs'. rewrite Hs', Hplayer, Halive.
  destruct (move_delta direction) as [dx dy] eqn:Hd.
  rewrite (update_session_with a _ w s Hs).
  eexists. split; [reflexivity|]. simpl.
  split_and!; try done.
  - by destruct (Js.truthy_num dx || Js.truthy_num dy).
  - by destruct (Js.truthy_num dx || Js.truthy_num dy).
  - destruct (Js.truthy_num dx || Js.truthy_num dy); by apply clamp_within.
  - destruct (Js.truthy_num dx || Js.truthy_num dy); by apply clamp_within.
  - by intros [= -> ->].
  - intros Hne. pose proof (move_delta_cases direction) as Hc. rewrite Hd in Hc.
    repeat (apply elem_of_cons in Hc as [[= -> ->]|Hc]; [done|]).
    by apply elem_of_nil in Hc.
  - by destruct (Js.truthy_num dx || Js.truthy_num dy).
  - by destruct (Js.truthy_num dx || Js.truthy_num dy).
  - by destruct (Js.truthy_num dx || Js.truthy_num dy).
  - by destruct (Js.truthy_num dx || Js.truthy_num dy).
  - by apply obj_set_keys.
  - intros k Hk. rewrite obj_get_set. by rewrite bool_decide_eq_false_2.
Qed.

Lemma handlePlayerMove_moves_sender_witness :
  ∃ moved,
    handlePlayerMove alice "1" "r" (Js.Str "left") session_world
    = Done () (with_session 0
        (Session.set_playersMap
           (obj_set "A" moved (Session.playersMap (the_session session_world 0)))
           (the_session session_world 0)) session_world)
    ∧ Player.x moved = 105%float.
Proof.
  destruct (handlePlayerMove_moves_sender session_world alice "1" "r" (Js.Str "left")
              (Game.mk [("lobby", 1)] [("r", 0)] (Some "1"%string) true) 0
              (the_session session_world 0)
              (Player.mk "A" "alice" 109 540 10 false 0 0)
              eq_refl eq_refl eq_refl eq_refl eq_refl)
    as (moved & Heq & Hx & _).
  exists moved. split; [exact Heq|]. rewrite Hx. reflexivity.
Defined.

(** ** Shots *)

Lemma conserved_NoDup (s : Session.t) :
  conserved s → NoDup (Session.bullets s ++ Session.bulletPool s).
Proof. intros Hc. unfold conserved in Hc. rewrite Hc. apply NoDup_seq. Qed.

(** Taking a record and appending it to the live list. *)
Lemma spawn_spec (mk : float → Bullet.t) (s : Session.t) :
  conserved s →
  ∃ ba s',
    (('(ba, bullet) ← acquire mk;
      modify (λ s, Session.set_bullets (Session.bullets s ++ [ba]) s);;
      mret bullet) : M Session.t Bullet.t) s
    = Done (mk (Session.bulletIdCounter s)) s'
    ∧ Session.bullets s' = Session.bullets s ++ [ba]
    ∧ Session.records s' !! ba = Some (mk (Session.bulletIdCounter s))
    ∧ (ba ∉ Session.bullets s)
    ∧ Session.bulletIdCounter s' = PrimFloat.add (Session.bulletIdCounter s) 1
    ∧ (∀ ba', ba' ∈ Session.bullets s →
         Session.records s' !!! ba' = Session.records s !!! ba')
    ∧ Session.playersMap s' = Session.playersMap s
    ∧ Session.alivePlayers s' = Session.alivePlayers s
    ∧ Session.simulationInterval s' = Session.simulationInterval s
    ∧ Session.broadcastInterval s' = Session.broadcastInterval s
    ∧ Session.winner s' = Session.winner s.
Proof.
  intros Hc. munfold.
  destruct (acquire_cases mk s) as [(ba & rest & Hpool & Heq)|[Hpool Heq]];
    rewrite Heq; simpl.
  - assert (ba < length (Session.records s)) as Hlt.
    { apply conserved_lt; [done|]. rewrite Hpool. set_solver. }
    assert (ba ∉ Session.bullets s) as Hfresh.
    { pose proof (conserved_NoDup s Hc) as Hnd. rewrite Hpool in Hnd.
      apply NoDup_app in Hnd as (_ & Hnd & _). intros Hin. apply (Hnd _ Hin). set_solver. }
    eexists ba, _. split; [reflexivity|]. simpl. split_and!; try done.
    + by apply list_lookup_insert_eq.
    + intros ba' Hin. apply list_lookup_total_insert_ne. by intros ->.
  - assert (length (Session.records s) ∉ Session.bullets s) as Hfresh.
    { intros Hin. assert (length (Session.records s) < length (Session.records s)); [|lia].
      apply conserved_lt; [done|]. set_solver. }
    eexists (length (Session.records s)), _. split; [reflexivity|]. simpl.
    split_and!; try done.
    + rewrite lookup_app_r by lia. by rewrite Nat.sub_diag.
    + intros ba' Hin. apply lookup_total_app_l. apply conserved_lt; [done|]. set_solver.
Qed.

Lemma shot_accepted_type (bulletType direction : Js.val) :
  shot_rejected bulletType direction = false →
  bulletType = Js.Str "charged" ∨ bulletType = Js.Str "fullyCharged".
Proof.
  unfold shot_rejected. intros H.
  apply orb_false_elim in H as [_ H]. apply negb_false_iff in H.
  destruct bulletType as [| | | |t|]; simpl in H; try done.
  apply orb_true_iff in H as [H|H]; apply String.eqb_eq in H; subst; auto.
Qed.

(** X6: a valid shot of a living player of a started room returns, takes one
    record, appends it to the live list and emits it once on the channel of
    the room.  The bullet carries the counter as its id, starts at the
    shooter with nothing traveled, flies at speed 30 without a range limit,
    and has radius 5 when charged, 25 when fully charged.  The records of the
    other live bullets, the players and the timers of the session stay. *)
Theorem handleShootBullet_accepts (w : World.t) (socket : Socket.t)
    (gameId roomId : string) (bulletType direction : Js.val)
    (game : Game.t) (a : nat) (s : Session.t) (player : Player.t) :
  obj_get gameId (World.games w) = Some game →
  find_room game roomId = Own a →
  session_at w a = Some s →
  conserved s →
  obj_get (Socket.id socket) (Session.playersMap s) = Some player →
  Player.isDead player = false →
  shot_rejected bulletType direction = false →
  ∃ ba bullet s',
    handleShootBullet socket gameId roomId bulletType direction w
    = Done () (World.set_sent
        (World.sent w ++
         [BulletCreated (channel_of (Game.id game) (Room.id (World.heap w !!! a))) bullet])
        (with_session a s' w))
    ∧ Session.bullets s' = Session.bullets s ++ [ba]
    ∧ (ba ∉ Session.bullets s)
    ∧ Session.records s' !! ba = Some bullet
    ∧ (∀ ba', ba' ∈ Session.bullets s →
         Session.records s' !!! ba' = Session.records s !!! ba')
    ∧ Session.bulletIdCounter s' = PrimFloat.add (Session.bulletIdCounter s) 1
    ∧ Bullet.id bullet = Session.bulletIdCounter s
    ∧ Bullet.ownerId bullet = Player.socketId player
    ∧ Bullet.x bullet = Player.x player
    ∧ Bullet.y bullet = Player.y player
    ∧ Bullet.traveled bullet = 0%float
    ∧ Bullet.speed bullet = 30%float
    ∧ Bullet.rangeLimit bullet = Js.Infinity
    ∧ (bulletType = Js.Str "charged"
         ∧ Bullet.type bullet = "charged"%string ∧ Bullet.radius bullet = 5%float
       ∨ bulletType = Js.Str "fullyCharged"
         ∧ Bullet.type bullet = "fullyCharged"%string ∧ Bullet.radius bullet = 25%float)
    ∧ Session.playersMap s' = Session.playersMap s
    ∧ Session.alivePlayers s' = Session.alivePlayers s
    ∧ Session.simulationInterval s' = Session.simulationInterval s
    ∧ Session.broadcastInterval s' = Session.broadcastInterval s
    ∧ Session.winner s' = Session.winner s.
Proof.
  intros Hgame Hroom Hs Hc Hplayer Halive Hok.
  assert (∃ type radius,
    bullet_params bulletType = Some (type, 30%float, radius, Js.Infinity)
    ∧ (bulletType = Js.Str "charged" ∧ type = "charged"%string ∧ radius = 5%float
       ∨ bulletType = Js.Str "fullyCharged" ∧ type = "fullyCharged"%string
         ∧ radius = 25%float)) as (type & radius & Hparams & Htype).
  { destruct (shot_accepted_type _ _ Hok) as [->| ->]; eexists _, _;
      (split; [reflexivity|]); auto. }
  set (mk := λ id, make_bullet id player type 30 radius Js.Infinity direction).
  destruct (spawn_spec mk s Hc)
    as (ba & s' & Hspawn & Hb & Hrec & Hfresh & Hcnt & Hothers & Hpm & Hal & Hsim & Hbc & Hwin).
  exists ba, (mk (Session.bulletIdCounter s)), s'.
  split_and!; try done.
  unfold handleShootBullet, session_of. munfold. rewrite Hgame, Hroom.
  pose proof Hs as Hs'. unfold session_at in Hs'. rewrite Hs', Hplayer, Halive, Hok, Hparams.
  munfold. fold mk.
  erewrite (in_session_Done a _ w s s' _ Hs); [|exact Hspawn].
  unfold deref, emit. munfold. simpl.
  by rewrite (lookup_total_alter_proj Room.id).
Qed.

Lemma session_world_conserved : conserved (the_session session_world 0).
Proof. by vm_compute. Qed.

Lemma handleShootBullet_accepts_witness :
  ∃ ba bullet s',
    handleShootBullet alice "1" "r" (Js.Str "fullyCharged") east session_world
    = Done () (World.set_sent
        (World.sent session_world ++ [BulletCreated "1-r" bullet])
        (with_session 0 s' session_world))
    ∧ Session.bullets s' = [ba]
    ∧ Bullet.radius bullet = 25%float.
Proof.
  destruct (handleShootBullet_accepts session_world alice "1" "r"
              (Js.Str "fullyCharged") east
              (Game.mk [("lobby", 1)] [("r", 0)] (Some "1"%string) true) 0
              (the_session session_world 0)
              (Player.mk "A" "alice" 109 540 10 false 0 0)
              eq_refl eq_refl eq_refl session_world_conserved eq_refl eq_refl eq_refl)
    as (ba & bullet & s' & Heq & Hb & _ & _ & _ & _ & _ & _ & _ & _ & _ & _ & _ & Ht & _).
  exists ba, bullet, s'. split; [exact Heq|]. split; [exact Hb|].
  destruct Ht as [[Hd _]|[_ [_ Hr]]]; [discriminate Hd|exact Hr].
Defined.

(** ** Invariants of the sessions *)

#[global] Instance keeps_refl (P : Session.t → Prop) : Reflexive (keeps P).
Proof. intros s Hs. exact Hs. Qed.

#[global] Instance keeps_trans (P : Session.t → Prop) : Transitive (keeps P).
Proof. intros s1 s2 s3 H12 H23 H. by apply H23, H12. Qed.

Lemma all_sessions_keeps (P : Session.t → Prop) (w w' : World.t) :
  sessions_related (keeps P) w w' → all_sessions P w → all_sessions P w'.
Proof.
  intros Hrel Hall. apply (all_sessions_related P (keeps P) w w'); [|done..].
  intros s s' Hs Hk. by apply Hk.
Qed.

Lemma stock_advance (b : Bullet.t) : stock_bullet b → stock_bullet (advance b).
Proof. done. Qed.

Lemma stock_bullets_loop (n : nat) (s : Session.t) :
  keeps stock_bullets s (final (bullets_loop n s)).
Proof.
  revert s. induction n as [|i IH]; intros s; [done|].
  cbn [bullets_loop]. munfold.
  destruct (Session.bullets s !! i) as [ba|] eqn:Hba; [|done].
  set (s1 := Session.set_records _ s).
  assert (keeps stock_bullets s s1) as H1.
  { intros Hs. unfold stock_bullets, s1 in *. simpl.
    destruct (decide (ba < length (Session.records s))) as [Hlt|Hge].
    - apply Forall_insert; [done|]. apply stock_advance.
      rewrite Forall_lookup in Hs. apply (Hs ba).
      by apply list_lookup_lookup_total_lt.
    - by rewrite list_insert_ge by lia. }
  assert (∀ s2, Session.records s2 = Session.records s1 →
    keeps stock_bullets s (final (bullets_loop i s2))) as Hrest.
  { intros s2 Hr. etrans; [exact H1|]. etrans; [|apply IH].
    unfold keeps, stock_bullets. by rewrite Hr. }
  destruct (out_of_play _).
  - simpl. match goal with |- context [bullets_loop i ?s2] =>
      specialize (Hrest s2 eq_refl); by destruct (bullets_loop i s2) end.
  - destruct (hit _ _) as [[pm p]|]; simpl.
    + match goal with |- context [bullets_loop i ?s2] =>
        specialize (Hrest s2 eq_refl); by destruct (bullets_loop i s2) end.
    + specialize (Hrest s1 eq_refl). by destruct (bullets_loop i s1).
Qed.

Lemma stock_spawn (mk : float → Bullet.t) (s : Session.t) :
  (∀ id, stock_bullet (mk id)) →
  keeps stock_bullets s
    (final ((('(ba, bullet) ← acquire mk;
              modify (λ s, Session.set_bullets (Session.bullets s ++ [ba]) s);;
              mret bullet) : M Session.t Bullet.t) s)).
Proof.
  intros Hmk Hs. munfold.
  destruct (acquire_cases mk s) as [(ba & rest & Hpool & Heq)|[Hpool Heq]];
    rewrite Heq; unfold stock_bullets in *; simpl.
  - destruct (decide (ba < length (Session.records s))) as [Hlt|Hge].
    + by apply Forall_insert.
    + by rewrite list_insert_ge by lia.
  - apply Forall_app. split; [done|]. by constructor.
Qed.

Lemma stock_make_bullet (bulletType : Js.val) type speedValue radius rangeLimit
    id player direction :
  bullet_params bulletType = Some (type, speedValue, radius, rangeLimit) →
  stock_bullet (make_bullet id player type speedValue radius rangeLimit direction).
Proof.
  unfold bullet_params. destruct bulletType as [| | | |t|]; try done.
  repeat case_match; intros [= <- <- <- <-]; split_and!; auto.
Qed.

Ltac stock_prim :=
  first
    [ apply related_heap_unchanged; intros ?;
      unfold emit, socket_join, socket_leave, clearInterval, update_game, getGame;
      munfold; simpl; try done; by case_match
    | apply related_update_session; [tc_solve..|]; by intros ? ?
    | apply related_update_room; [tc_solve..|];
      intros [? ? [?|]]; simpl; [eexists; split; reflexivity|reflexivity]
    | apply related_alloc_room; [tc_solve..|]; done
    | apply related_in_session; [tc_solve..|]; intros ?;
      first [apply stock_bullets_loop | apply stock_spawn; intros ?;
             by eapply stock_make_bullet] ].

Lemma stock_handleShootBullet (socket : Socket.t) (gameId roomId : string)
    (bulletType direction : Js.val) :
  preserves (sessions_related (keeps stock_bullets))
    (handleShootBullet socket gameId roomId bulletType direction).
Proof.
  intros w. unfold handleShootBullet, session_of. munfold.
  destruct (obj_get gameId _) as [game|]; [|by case_bool_decide].
  destruct (find_room game roomId) as [a| |]; [|reflexivity..].
  destruct (Room.session (World.heap w !!! a)) as [s|] eqn:Hs; [|reflexivity].
  destruct (obj_get (Socket.id socket) _) as [player|]; [|reflexivity].
  destruct (Player.isDead player); [reflexivity|].
  destruct (shot_rejected bulletType direction); [reflexivity|].
  destruct (bullet_params bulletType) as [[[[type sp] r] rl]|] eqn:Hp; [|reflexivity].
  match goal with
  | |- context [in_session ?a ?m w] =>
      pose proof (related_in_session (keeps stock_bullets) a m) as Hrel;
      destruct (in_session a m w) as [b w1|w1] eqn:Hin
  end.
  - eapply (sessions_related_heap _ _ w1); [done|].
    specialize (Hrel ltac:(intros ?; apply stock_spawn; intros ?;
                           by eapply stock_make_bullet) w).
    by rewrite Hin in Hrel.
  - specialize (Hrel ltac:(intros ?; apply stock_spawn; intros ?;
                           by eapply stock_make_bullet) w).
    by rewrite Hin in Hrel.
Qed.

Lemma stock_perform (act : Action) :
  preserves (sessions_related (keeps stock_bullets)) (perform act).
Proof.
  destruct act; try apply stock_handleShootBullet;
    unfold perform, requestRooms, joinRoom, leaveRoom, joinGameChannel,
    requestGameState, playerMove, endGame, disconnect, fire,
    disconnect_lobby, disconnect_active,
    handlePlayerMove, updateBullets, broadcastGameState,
    endAgarIoRoom, endAgarIoRoom_builtin, ensureSingleEmptyRoom, broadcastRooms, updateRoomCountForEveryone,
    session_of.
  all: preserve.
  all: stock_prim.
Qed.

Lemma out_of_play_stock (b : Bullet.t) :
  stock_bullet b → out_of_play b = outside b.
Proof.
  intros (_ & _ & Hr). unfold out_of_play, outside. rewrite Hr.
  change (PrimFloat.eqb Js.Infinity Js.Infinity) with true. simpl.
  by rewrite orb_false_r.
Qed.

(** X7: every bullet of every session is one [handleShootBullet] made, with
    speed 30, radius 5 or 25 and no range limit, so that the tick never
    retires a bullet for the distance it traveled: a bullet leaves the live
    list by leaving the world or by a hit.  This holds for a session just
    started and again after any event, if it held before. *)
Theorem bullets_retire_at_the_border (act : Action) (w : World.t) :
  all_sessions stock_bullets w →
  all_sessions stock_bullets (final (perform act w))
  ∧ (∀ rnd gameId a, all_sessions stock_bullets (final (startAgarIoRoom rnd gameId a w)))
  ∧ ∀ a s b, session_at w a = Some s → b ∈ Session.records s →
      out_of_play b = outside b ∧ out_of_play (advance b) = outside (advance b).
Proof.
  intros Hall. split_and!.
  - apply (all_sessions_keeps stock_bullets w); [apply stock_perform|done].
  - intros rnd gameId a. apply startAgarIoRoom_sessions; [|done].
    intros. by apply Forall_nil.
  - intros a s b Hs Hb. apply session_at_lookup in Hs as (r & Hr & Hs).
    specialize (Hall a r s Hr Hs). unfold stock_bullets in Hall.
    rewrite Forall_forall in Hall. specialize (Hall b Hb).
    split; apply out_of_play_stock; [done|by apply stock_advance].
Qed.

Lemma recycle_world_stock : all_sessions stock_bullets recycle_world.
Proof.
  apply all_sessions_Forall.
  assert (Room.session <$> World.heap recycle_world
          = [Some (the_session recycle_world 0); None]) as Hh by (by vm_compute).
  apply (Forall_fmap Room.session (from_option stock_bullets True)).
  rewrite Hh. apply Forall_cons_2; [|apply Forall_cons_2; [done|apply Forall_nil_2]].
  simpl. unfold stock_bullets.
  assert (Session.records (the_session recycle_world 0)
          = [Bullet.mk 1 "A" (-11) 540 (-30) 0 5 120 Js.Infinity "charged" 30]) as ->
    by (by vm_compute).
  apply Forall_singleton. split_and!; auto.
Qed.

Lemma bullets_retire_at_the_border_witness :
  all_sessions stock_bullets recycle_world
  ∧ all_sessions stock_bullets
      (final (perform (Shoot alice "1" "r" (Js.Str "charged") east) recycle_world)).
Proof.
  split; [exact recycle_world_stock|].
  exact (proj1 (bullets_retire_at_the_border
                  (Shoot alice "1" "r" (Js.Str "charged") east) recycle_world
                  recycle_world_stock)).
Defined.

(** ** The players of a session *)

#[global] Instance same_roster_refl : Reflexive same_roster.
Proof. by intros s. Qed.

#[global] Instance same_roster_trans : Transitive same_roster.
Proof.
  intros s1 s2 s3 [H12 ?] [H23 ?]. split; [congruence|by etrans].
Qed.

#[global] Instance roster_step_refl : Reflexive roster_step.
Proof. intros s. split; [reflexivity|done]. Qed.

#[global] Instance roster_step_trans : Transitive roster_step.
Proof.
  intros s1 s2 s3 [H12 K12] [H23 K23]. split; [by etrans|auto].
Qed.

(** A step that leaves the players alone. *)
Lemma roster_step_same (s s' : Session.t) :
  Session.playersMap s' = Session.playersMap s →
  Session.alivePlayers s' = Session.alivePlayers s →
  roster_step s s'.
Proof.
  intros Hpm Hal. unfold roster_step, same_roster, roster_ok. by rewrite Hpm, Hal.
Qed.

Lemma obj_get_middle {A} (k k' : string) (v v' : A) (l1 l2 : list (string * A)) :
  k' ≠ k →
  obj_get k' (l1 ++ (k, v') :: l2) = obj_get k' (l1 ++ (k, v) :: l2).
Proof.
  intros Hne. induction l1 as [|[k0 v0] l1 IH]; simpl.
  - by rewrite !bool_decide_eq_false_2 by done.
  - by rewrite IH.
Qed.

Lemma set_delete_sublist (k : string) (l : list string) :
  set_delete k l `sublist_of` l.
Proof. apply sublist_filter. Qed.

Lemma elem_of_set_delete (k k' : string) (l : list string) :
  k' ∈ set_delete k l ↔ k' ≠ k ∧ k' ∈ l.
Proof. unfold set_delete. by rewrite list_elem_of_filter. Qed.

Lemma hit_split (b : Bullet.t) (ps ps' : list (string * Player.t)) (victim : Player.t) :
  hit b ps = Some (ps', victim) →
  ∃ before k after,
    ps = before ++ (k, victim) :: after
    ∧ ps' = before ++ (k, Player.set_isDead true victim) :: after.
Proof.
  revert ps'. induction ps as [|[k player] ps IH]; intros ps'; simpl; [done|].
  assert (prod_map (cons (k, player)) id <$> hit b ps = Some (ps', victim) →
    ∃ before k0 after, (k, player) :: ps = before ++ (k0, victim) :: after
      ∧ ps' = before ++ (k0, Player.set_isDead true victim) :: after) as Hrec.
  { destruct (hit b ps) as [[ps0 v0]|]; simpl; [|done]. intros [= <- <-].
    destruct (IH _ eq_refl) as (before & k0 & after & -> & ->).
    by exists ((k, player) :: before), k0, after. }
  destruct (_ || _); [done|]. destruct (collides b player); [|done].
  intros [= <- <-]. by exists [], k, ps.
Qed.

(** The effect of a hit on the players. *)
Lemma roster_step_hit (b : Bullet.t) (s s1 : Session.t)
    (pm : list (string * Player.t)) (victim : Player.t) :
  hit b (Session.playersMap s) = Some (pm, victim) →
  Session.playersMap s1 = Session.playersMap s →
  Session.alivePlayers s1 = Session.alivePlayers s →
  roster_step s
    (Session.set_alivePlayers
       (set_delete (Player.socketId victim) (Session.alivePlayers s1))
       (Session.set_playersMap pm s1)).
Proof.
  intros Hhit Hpm Hal.
  destruct (hit_split _ _ _ _ Hhit) as (before & k & after & Heq & ->).
  split; [split|]; simpl.
  - rewrite Heq, !fmap_app. simpl. done.
  - rewrite Hal. apply set_delete_sublist.
  - intros (Hnd & Hid & Hnda & Halive). rewrite Heq in Hnd, Hid.
    split_and!; simpl.
    + by rewrite fmap_app in *.
    + apply Forall_app in Hid as [? Hid]. apply Forall_cons in Hid as [? ?].
      apply Forall_app. split; [done|]. by constructor.
    + rewrite Hal. unfold set_delete. by apply NoDup_filter.
    + intros k' [Hne Hin]%elem_of_set_delete. rewrite Hal in Hin.
      destruct (Halive k' Hin) as (p & Hp & Hpd). exists p. split; [|done].
      rewrite <- Hp, Heq. apply obj_get_middle.
      apply Forall_app in Hid as [_ Hid]. apply Forall_cons in Hid as [Hk _].
      simpl in Hk. by rewrite <- Hk.
Qed.

Lemma roster_bullets_loop (n : nat) (s : Session.t) :
  roster_step s (final (bullets_loop n s)).
Proof.
  revert s. induction n as [|i IH]; intros s; [reflexivity|].
  cbn [bullets_loop]. munfold.
  destruct (Session.bullets s !! i) as [ba|] eqn:Hba; [|reflexivity].
  set (s1 := Session.set_records _ s).
  assert (∀ s2, roster_step s s2 → roster_step s (final (bullets_loop i s2))) as Hrest.
  { intros s2 H2. etrans; [exact H2|apply IH]. }
  destruct (out_of_play _) eqn:Hout; simpl.
  - match goal with |- context [bullets_loop i ?s2] =>
      specialize (Hrest s2 ltac:(by apply roster_step_same));
      by destruct (bullets_loop i s2) end.
  - destruct (hit _ _) as [[pm p]|] eqn:Hhit; simpl.
    + match goal with |- context [bullets_loop i ?s2] =>
        assert (roster_step s s2) as H2 end.
      { etrans; [apply (roster_step_hit _ s s1 pm p Hhit); done|].
        by apply roster_step_same. }
      match goal with |- context [bullets_loop i ?s2] =>
        specialize (Hrest s2 H2); by destruct (bullets_loop i s2) end.
    + specialize (Hrest s1 ltac:(by apply roster_step_same)).
      by destruct (bullets_loop i s1).
Qed.

Lemma roster_spawn (mk : float → Bullet.t) (s : Session.t) :
  roster_step s
    (final ((('(ba, bullet) ← acquire mk;
              modify (λ s, Session.set_bullets (Session.bullets s ++ [ba]) s);;
              mret bullet) : M Session.t Bullet.t) s)).
Proof.
  munfold.
  destruct (acquire_cases mk s) as [(ba & rest & Hpool & Heq)|[Hpool Heq]];
    rewrite Heq; simpl; by apply roster_step_same.
Qed.

Lemma obj_get_fmap {A B} (f : A → B) (k : string) (o : list (string * A)) :
  obj_get k (prod_map id f <$> o) = f <$> obj_get k o.
Proof.
  induction o as [|[k' v] o IH]; simpl; [done|]. by case_bool_decide.
Qed.

(** The reset of the players at teardown. *)
Lemma roster_step_reset (s : Session.t) :
  roster_step s
    (Session.set_playersMap (prod_map id reset_player <$> Session.playersMap s) s).
Proof.
  split; [split|]; simpl.
  - rewrite <- list_fmap_compose. apply list_fmap_ext. by intros i [k p] _.
  - done.
  - intros (Hnd & Hid & Hnda & Halive). split_and!; simpl.
    + rewrite <- list_fmap_compose.
      by rewrite (list_fmap_ext _ fst (Session.playersMap s)) by (by intros i [k p] _).
    + apply Forall_fmap. eapply Forall_impl; [exact Hid|]. by intros [k p].
    + done.
    + intros k Hk. destruct (Halive k Hk) as (p & Hp & _).
      exists (reset_player p). rewrite obj_get_fmap, Hp. done.
Qed.

Lemma obj_set_fmap {A B} (g : string * A → B) (k : string) (v v' : A)
    (o : list (string * A)) :
  obj_get k o = Some v → g (k, v') = g (k, v) → g <$> obj_set k v' o = g <$> o.
Proof.
  intros Hget Hg. induction o as [|[k0 v0] o IH]; simpl in *; [done|].
  case_bool_decide; simpl.
  - simplify_eq. by rewrite Hg.
  - f_equal. by apply IH.
Qed.

Lemma obj_set_Forall {A} (P : string * A → Prop) (k : string) (v : A)
    (o : list (string * A)) :
  Forall P o → P (k, v) → Forall P (obj_set k v o).
Proof.
  intros Ho Hv. induction o as [|[k0 v0] o IH]; simpl.
  - by constructor.
  - apply Forall_cons in Ho as [? ?]. case_bool_decide; subst; constructor; auto.
Qed.

(** The effect of a move on the players. *)
Lemma roster_step_move (s : Session.t) (k : string) (player moved : Player.t) :
  obj_get k (Session.playersMap s) = Some player →
  Player.socketId moved = Player.socketId player →
  Player.userName moved = Player.userName player →
  Player.isDead moved = false →
  roster_step s
    (Session.set_playersMap (obj_set k moved (Session.playersMap s)) s).
Proof.
  intros Hget Hid' Hname Hd. split; [split|]; simpl.
  - apply (obj_set_fmap _ k player); [done|]. simpl. by rewrite Hname.
  - done.
  - intros (Hnd & Hid & Hnda & Halive). split_and!; simpl.
    + by rewrite obj_set_keys by (by eexists).
    + apply obj_set_Forall; [done|]. simpl. rewrite Hid'.
      rewrite Forall_forall in Hid. apply (Hid (k, player)).
      by apply obj_get_elem_of.
    + done.
    + intros k' Hk'. rewrite obj_get_set. case_bool_decide; [by exists moved|].
      by apply Halive.
Qed.

Lemma roster_handlePlayerMove (socket : Socket.t) (gameId roomId : string)
    (direction : Js.val) :
  preserves (sessions_related roster_step)
    (handlePlayerMove socket gameId roomId direction).
Proof.
  intros w. unfold handlePlayerMove, session_of. munfold.
  destruct (obj_get gameId _) as [game|]; [|by case_bool_decide].
  destruct (find_room game roomId) as [a| |]; [|reflexivity..].
  destruct (Room.session (World.heap w !!! a)) as [s|] eqn:Hs; [|reflexivity].
  destruct (obj_get (Socket.id socket) _) as [player|] eqn:Hp; [|reflexivity].
  destruct (Player.isDead player) eqn:Hd; [reflexivity|].
  destruct (move_delta direction) as [dx dy].
  rewrite (update_session_with a _ w s Hs). simpl.
  apply (related_with_session roster_step w a s); [done|].
  apply (roster_step_move s _ player); [done|..];
    by destruct (Js.truthy_num dx || Js.truthy_num dy).
Qed.

Ltac roster_prim :=
  first
    [ apply related_heap_unchanged; intros ?;
      unfold emit, socket_join, socket_leave, clearInterval, update_game, getGame;
      munfold; simpl; try done; by case_match
    | apply related_update_session; [tc_solve..|]; intros ?;
      first [by apply roster_step_same | apply roster_step_reset]
    | apply related_update_room; [tc_solve..|];
      intros [? ? [?|]]; simpl; [eexists; split; reflexivity|reflexivity]
    | apply related_alloc_room; [tc_solve..|]; done
    | apply related_in_session; [tc_solve..|]; intros ?;
      first [apply roster_bullets_loop | apply roster_spawn] ].

Lemma roster_perform (act : Action) :
  preserves (sessions_related roster_step) (perform act).
Proof.
  destruct act; try apply roster_handlePlayerMove;
    unfold perform, requestRooms, joinRoom, leaveRoom, joinGameChannel,
    requestGameState, shoot, endGame, disconnect, fire,
    disconnect_lobby, disconnect_active,
    handleShootBullet, updateBullets, broadcastGameState,
    endAgarIoRoom, endAgarIoRoom_builtin, ensureSingleEmptyRoom, broadcastRooms, updateRoomCountForEveryone,
    session_of.
  all: preserve.
  all: roster_prim.
Qed.

(** ** The start of a session *)

Lemma obj_set_keys_add {A} (k : string) (v : A) (o : list (string * A)) :
  (obj_set k v o).*1 = set_add k o.*1.
Proof.
  unfold set_add. case_bool_decide as Hin.
  - apply obj_set_keys. destruct (obj_get k o) eqn:Hg; [by eexists|].
    by apply obj_get_None in Hg.
  - rewrite obj_set_absent by (by apply obj_get_None). by rewrite fmap_app.
Qed.

Lemma NoDup_set_add (k : string) (l : list string) : NoDup l → NoDup (set_add k l).
Proof.
  intros Hnd. unfold set_add. case_bool_decide; [done|].
  apply NoDup_app. split_and!; [done| |apply NoDup_singleton].
  intros x Hx ->%list_elem_of_singleton. done.
Qed.

Lemma elem_of_set_add (k k' : string) (l : list string) :
  k' ∈ set_add k l ↔ k' = k ∨ k' ∈ l.
Proof. unfold set_add. case_bool_decide; set_solver. Qed.

(** The two folds of [startAgarIoRoom] over the players. *)
Lemma foldl_roster (ps : list Player.t) (m : list (string * Player.t)) (al : list string) :
  NoDup m.*1 → al = m.*1 → Forall fresh_player m →
  Forall (λ p, fresh_player (Player.socketId p, p)) ps →
  NoDup (foldl (λ m p, obj_set (Player.socketId p) p m) m ps).*1
  ∧ foldl (λ s p, set_add (Player.socketId p) s) al ps
    = (foldl (λ m p, obj_set (Player.socketId p) p m) m ps).*1
  ∧ Forall fresh_player (foldl (λ m p, obj_set (Player.socketId p) p m) m ps)
  ∧ ∀ k, k ∈ (foldl (λ m p, obj_set (Player.socketId p) p m) m ps).*1
         ↔ k ∈ m.*1 ∨ k ∈ Player.socketId <$> ps.
Proof.
  revert m al. induction ps as [|p ps IH]; intros m al Hnd Hal Hm Hps; simpl.
  - split_and!; [done..|]. set_solver.
  - apply Forall_cons in Hps as [Hp Hps].
    destruct (IH (obj_set (Player.socketId p) p m) (set_add (Player.socketId p) al))
      as (H1 & H2 & H3 & H4).
    + rewrite obj_set_keys_add. by apply NoDup_set_add.
    + by rewrite obj_set_keys_add, Hal.
    + by apply obj_set_Forall.
    + done.
    + split_and!; [done..|]. intros k. rewrite H4, obj_set_keys_add, elem_of_set_add.
      set_solver.
Qed.

Lemma foldl_roster_NoDup (ps : list Player.t) (m : list (string * Player.t)) :
  NoDup (m.*1 ++ (Player.socketId <$> ps)) →
  foldl (λ m p, obj_set (Player.socketId p) p m) m ps
  = m ++ ((λ p, (Player.socketId p, p)) <$> ps).
Proof.
  revert m. induction ps as [|p ps IH]; intros m Hnd; simpl.
  - by rewrite app_nil_r.
  - assert (Player.socketId p ∉ m.*1) as Hp.
    { apply NoDup_app in Hnd as (_ & Hnd & _). intros Hin. apply (Hnd _ Hin). set_solver. }
    rewrite obj_set_absent by (by apply obj_get_None).
    rewrite IH; [by rewrite <- app_assoc|].
    rewrite fmap_app, <- app_assoc. done.
Qed.

Lemma imap_players (f : nat → Entry.t → Player.t) (es : list Entry.t) :
  (∀ i e, Player.socketId (f i e) = Entry.socketId e
          ∧ Player.userName (f i e) = Entry.userName e
          ∧ fresh_player (Player.socketId (f i e), f i e)) →
  Player.socketId <$> imap f es = Entry.socketId <$> es
  ∧ Player.userName <$> imap f es = Entry.userName <$> es
  ∧ Forall (λ p, fresh_player (Player.socketId p, p)) (imap f es).
Proof.
  revert f. induction es as [|e es IH]; intros f Hf; simpl; [done|].
  destruct (IH (f ∘ S)) as (H1 & H2 & H3); [intros i e'; apply Hf|].
  destruct (Hf 0 e) as (? & ? & ?).
  split_and!; [by f_equal..|]. by constructor.
Qed.

Lemma spawned_ids (rnd : nat → float) (es : list Entry.t) :
  Player.socketId <$> imap (spawn_player rnd) es = Entry.socketId <$> es
  ∧ Player.userName <$> imap (spawn_player rnd) es = Entry.userName <$> es
  ∧ Forall (λ p, fresh_player (Player.socketId p, p)) (imap (spawn_player rnd) es).
Proof. apply imap_players. intros i e. by split_and!. Qed.

Lemma fmap_pair_eq {A A' B C} (f1 : A → B) (f2 : A → C) (g1 : A' → B) (g2 : A' → C)
    (l : list A) (l' : list A') :
  f1 <$> l = g1 <$> l' → f2 <$> l = g2 <$> l' →
  (λ x, (f1 x, f2 x)) <$> l = (λ y, (g1 y, g2 y)) <$> l'.
Proof.
  revert l'. induction l as [|x l IH]; intros [|y l']; simpl; try done.
  intros [= ? ?] [= ? ?]. f_equal; [congruence|by apply IH].
Qed.

Lemma fresh_roster_ok (s : Session.t) :
  NoDup (Session.playersMap s).*1 →
  Session.alivePlayers s = (Session.playersMap s).*1 →
  Forall fresh_player (Session.playersMap s) →
  roster_ok s.
Proof.
  intros Hnd Hal Hfresh. split_and!; [done| |by rewrite Hal|].
  - eapply Forall_impl; [exact Hfresh|]. by intros kp (? & _).
  - intros k Hk. rewrite Hal in Hk.
    destruct (obj_get k (Session.playersMap s)) as [p|] eqn:Hp;
      [|by apply obj_get_None in Hp].
    exists p. split; [done|]. rewrite Forall_forall in Hfresh.
    by destruct (Hfresh (k, p) (obj_get_elem_of _ _ _ Hp)) as (_ & ? & _).
Qed.

(** X8: [startAgarIoRoom] on a room of the store returns and installs a new
    session: every socket id of [room.players] is a key of [playersMap] and
    alive, each player filed under its id, not dead, of mass 10 and at rest
    (with the names of [room.players] when no id is there twice); no bullet,
    an empty pool, the counter at 1 and no winner.  The timers the room held
    are cleared and two new ones are scheduled, which the session records;
    the lobby fields of the room, the registry and what was sent stay. *)
Theorem startAgarIoRoom_fresh_session (rnd : nat → float) (gameId : string)
    (a : nat) (w : World.t) (room : Room.t) :
  World.heap w !! a = Some room →
  ∃ s,
    startAgarIoRoom rnd gameId a w = Done () (final (startAgarIoRoom rnd gameId a w))
    ∧ World.heap (final (startAgarIoRoom rnd gameId a w))
      = <[a := Room.set_session (Some s) room]> (World.heap w)
    ∧ roster_ok s
    ∧ Session.alivePlayers s = (Session.playersMap s).*1
    ∧ (∀ k, k ∈ Session.alivePlayers s ↔ k ∈ Entry.socketId <$> Room.players room)
    ∧ Forall fresh_player (Session.playersMap s)
    ∧ (NoDup (Entry.socketId <$> Room.players room) →
       (λ kp, (kp.1, Player.userName kp.2)) <$> Session.playersMap s
       = (λ e, (Entry.socketId e, Entry.userName e)) <$> Room.players room)
    ∧ Session.records s = [] ∧ Session.bullets s = [] ∧ Session.bulletPool s = []
    ∧ Session.bulletIdCounter s = 1%float
    ∧ Session.winner s = None
    ∧ Session.simulationInterval s = Some (World.nextTimer w)
    ∧ Session.broadcastInterval s = Some (S (World.nextTimer w))
    ∧ World.timers (final (startAgarIoRoom rnd gameId a w))
      = cleared (Room.session room ≫= Session.broadcastInterval)
          (cleared (Room.session room ≫= Session.simulationInterval) (World.timers w))
        ++ [Timer.mk (World.nextTimer w) Simulation gameId a;
            Timer.mk (S (World.nextTimer w)) Broadcast gameId a]
    ∧ World.nextTimer (final (startAgarIoRoom rnd gameId a w)) = S (S (World.nextTimer w))
    ∧ World.games (final (startAgarIoRoom rnd gameId a w)) = World.games w
    ∧ World.sent (final (startAgarIoRoom rnd gameId a w)) = World.sent w.
Proof.
  intros Hroom.
  set (ps := imap (spawn_player rnd) (Room.players room)).
  destruct (spawned_ids rnd (Room.players room)) as (Hids & Hnames & Hfresh).
  fold ps in Hids, Hnames, Hfresh.
  destruct (foldl_roster ps [] [] (NoDup_nil_2) eq_refl (Forall_nil_2 _) Hfresh)
    as (Hnd & Hal & Hpm & Hkeys).
  exists (Session.mk (foldl (λ m p, obj_set (Player.socketId p) p m) [] ps)
            (foldl (λ s p, set_add (Player.socketId p) s) [] ps)
            [] [] 1 [] (Some (World.nextTimer w)) (Some (S (World.nextTimer w))) None).
  assert (World.heap w !!! a = room) as Hroom' by (by apply list_lookup_total_correct).
  unfold startAgarIoRoom, deref, update_room, setInterval, clearInterval. munfold.
  rewrite Hroom'. fold ps.
  split_and!; simpl; try done.
  - by destruct (option_bind _ _ Session.simulationInterval _);
      destruct (option_bind _ _ Session.broadcastInterval _).
  - destruct (option_bind _ _ Session.simulationInterval _);
      destruct (option_bind _ _ Session.broadcastInterval _); simpl;
      apply list_eq; intros i; rewrite list_lookup_alter, list_lookup_insert;
      (case_decide; subst; [rewrite Hroom; simpl|]);
      try (rewrite decide_True by (split; [done|by eapply lookup_lt_Some])); try done;
      case_decide; naive_solver.
  - by apply fresh_roster_ok.
  - intros k. rewrite Hal, Hkeys, Hids. set_solver.
  - intros Hndp. rewrite foldl_roster_NoDup by (simpl; by rewrite Hids).
    simpl. rewrite <- list_fmap_compose. by apply fmap_pair_eq.
  - destruct (option_bind _ _ Session.simulationInterval _);
      destruct (option_bind _ _ Session.broadcastInterval _); simpl;
      by rewrite <- app_assoc.
  - by destruct (option_bind _ _ Session.simulationInterval _);
      destruct (option_bind _ _ Session.broadcastInterval _).
  - by destruct (option_bind _ _ Session.simulationInterval _);
      destruct (option_bind _ _ Session.broadcastInterval _).
  - by destruct (option_bind _ _ Session.simulationInterval _);
      destruct (option_bind _ _ Session.broadcastInterval _).
Qed.

Lemma startAgarIoRoom_fresh_session_witness :
  ∃ s,
    World.heap session_world
    = <[0 := Room.set_session (Some s)
              (Room.mk (Some "r"%string)
                 [Entry.mk "A" "alice" true; Entry.mk "B" "bob" true] None)]>
        (World.heap lobby_world)
    ∧ roster_ok s
    ∧ Session.bulletIdCounter s = 1%float.
Proof.
  destruct (startAgarIoRoom_fresh_session sample_rnd "1" 0 lobby_world
              (Room.mk (Some "r"%string)
                 [Entry.mk "A" "alice" true; Entry.mk "B" "bob" true] None) eq_refl)
    as (s & _ & Hh & Hr & _ & _ & _ & _ & _ & _ & _ & Hc & _).
  exists s. split; [exact Hh|]. split; [exact Hr|exact Hc].
Defined.

Lemma startAgarIoRoom_roster (rnd : nat → float) (gameId : string) (a : nat)
    (w : World.t) :
  all_sessions roster_ok w →
  all_sessions roster_ok (final (startAgarIoRoom rnd gameId a w)).
Proof.
  intros Hall. destruct (World.heap w !! a) as [room|] eqn:Hroom.
  - set (ps := imap (spawn_player rnd) (Room.players room)).
    destruct (spawned_ids rnd (Room.players room)) as (_ & _ & Hfresh).
    destruct (foldl_roster _ [] [] (NoDup_nil_2) eq_refl (Forall_nil_2 _) Hfresh)
      as (Hnd & Hal & Hpm & _).
    destruct (startAgarIoRoom_heap rnd gameId a w) as (pm & alive & sim & bc & Hheap).
    assert (World.heap w !!! a = room) as Hroom' by (by apply list_lookup_total_correct).
    assert (roster_ok (Session.mk pm alive [] [] 1 [] sim bc None)) as Hok.
    { revert Hheap.
      unfold startAgarIoRoom, deref, update_room, setInterval, clearInterval. munfold.
      rewrite Hroom'.
      destruct (option_bind _ _ Session.simulationInterval _);
        destruct (option_bind _ _ Session.broadcastInterval _); simpl;
        intros Heq; apply (f_equal (λ l, Room.session <$> l !! a)) in Heq;
        rewrite !list_lookup_alter, !decide_True, Hroom in Heq by done;
        simpl in Heq; injection Heq as <- <- <- <-; by apply fresh_roster_ok. }
    intros b r s. rewrite Hheap, list_lookup_alter.
    case_decide; subst.
    + rewrite Hroom. simpl. by intros [= <-] [= <-].
    + apply Hall.
  - destruct (startAgarIoRoom_heap rnd gameId a w) as (pm & alive & sim & bc & Hheap).
    intros b r s. rewrite Hheap, list_lookup_alter.
    case_decide; subst; [by rewrite Hroom|apply Hall].
Qed.

Lemma roster_ok_snapshot (roomId : option string) (s : Session.t) :
  roster_ok s →
  ∃ snap, snapshot roomId s = Some snap
    ∧ Snapshot.p_socketId <$> Snapshot.players snap = Session.alivePlayers s
    ∧ length (Snapshot.bullets snap) = length (Session.bullets s).
Proof.
  intros (_ & Hid & _ & Halive). unfold snapshot.
  destruct (mapM (λ socketId, snapshot_player <$> obj_get socketId (Session.playersMap s))
              (Session.alivePlayers s)) as [playersData|] eqn:Hm.
  - simpl. eexists. split; [done|]. simpl. split; [|by rewrite length_fmap].
    apply mapM_Some_1 in Hm. clear Halive.
    induction Hm as [|k d l l' Hk _ IH]; simpl; [done|]. f_equal; [|done].
    destruct (obj_get k (Session.playersMap s)) as [p|] eqn:Hp; [|done].
    simpl in Hk. injection Hk as <-. simpl.
    rewrite Forall_forall in Hid. apply (Hid (k, p)). by apply obj_get_elem_of.
  - exfalso. apply eq_None_not_Some in Hm. apply Hm. apply mapM_is_Some.
    apply Forall_forall. intros k Hk. destruct (Halive k Hk) as (p & Hp & _).
    simpl. rewrite Hp. by eexists.
Qed.

(** X9: the players of a session are fixed at its start.  Across any event
    a session keeps the keys of [playersMap], in their order and with their
    names, and [alivePlayers] loses ids at most.  If the players of every
    session were well formed (one entry for each id, filed under the id of
    the player, every alive id naming a player that is not dead), they are
    well formed again, also in a session just started; and then the snapshot
    of a session is defined and lists the alive ids in their order. *)
Theorem roster_kept (act : Action) (w : World.t) :
  all_sessions roster_ok w →
  all_sessions roster_ok (final (perform act w))
  ∧ (∀ rnd gameId a, all_sessions roster_ok (final (startAgarIoRoom rnd gameId a w)))
  ∧ (∀ a s s', session_at w a = Some s →
       session_at (final (perform act w)) a = Some s' → same_roster s s')
  ∧ ∀ a s roomId, session_at w a = Some s →
      ∃ snap, snapshot roomId s = Some snap
        ∧ Snapshot.p_socketId <$> Snapshot.players snap = Session.alivePlayers s
        ∧ length (Snapshot.bullets snap) = length (Session.bullets s).
Proof.
  intros Hall. pose proof (roster_perform act w) as Hrel. split_and!.
  - apply (all_sessions_related roster_ok roster_step w); [|done..].
    intros s s' Hs [_ Hk]. by apply Hk.
  - intros rnd gameId a. by apply startAgarIoRoom_roster.
  - intros a s s' Hs Hs'.
    by destruct (sessions_related_at roster_step _ _ a s s' Hrel Hs Hs').
  - intros a s roomId Hs. apply roster_ok_snapshot.
    apply session_at_lookup in Hs as (r & Hr & Hs). by apply (Hall a r s).
Qed.

Lemma lobby_world_roster : all_sessions roster_ok lobby_world.
Proof. apply all_sessions_Forall. by repeat constructor. Qed.

Lemma session_world_roster : all_sessions roster_ok session_world.
Proof. apply startAgarIoRoom_roster, lobby_world_roster. Qed.

Lemma roster_kept_witness :
  all_sessions roster_ok session_world
  ∧ all_sessions roster_ok
      (final (perform (PlayerMove alice "1" "r" (Js.Str "up")) session_world)).
Proof.
  split; [exact session_world_roster|].
  exact (proj1 (roster_kept (PlayerMove alice "1" "r" (Js.Str "up")) session_world
                  session_world_roster)).
Defined.

(** ** The end request at the edges *)

Lemma gameEnded_events_app (w : World.t) (l : list Event) (w' : World.t) :
  World.sent w' = World.sent w ++ l →
  gameEnded_events w' = gameEnded_events w ++ filter (λ e, is_GameEnded e = true) l.
Proof. unfold gameEnded_events. intros ->. by rewrite filter_app. Qed.

Lemma end_world_games_kept (gameId : string) (a : nat) (w : World.t) (game : Game.t) :
  obj_get gameId (World.games w) = Some game →
  obj_get (Js.show (Room.id (World.heap w !!! a))) (Game.activeRooms game) = None →
  World.games (end_world gameId a w) = World.games w.
Proof.
  intros Hgame Hid. simpl. apply obj_alter_id. intros g Hg.
  assert (g = game) as -> by congruence.
  rewrite obj_delete_absent by done. apply set_activeRooms_eta.
Qed.

(** X10: [endAgarIoRoom] deletes the entry of [activeRooms] filed under
    [room.id], not the one the room was found under.  When the game holds the
    [io] reference and nothing is filed under the [id] field of the room
    (where it is unset, under ["undefined"]), an end request returns and
    emits [gameEnded] but leaves the registry as it was, so that a second
    end request runs the teardown again and emits [gameEnded] once more. *)
Theorem endGame_keeps_room_filed_elsewhere (w : World.t) (gameId roomId : string)
    (game : Game.t) (a : nat) :
  obj_get gameId (World.games w) = Some game →
  obj_get roomId (Game.activeRooms game) = Some a →
  Game.io game = true →
  obj_get (Js.show (Room.id (World.heap w !!! a))) (Game.activeRooms game) = None →
  ∃ w1 w2 ended_event,
    ended_event
    = GameEnded (channel_of (Game.id game) (Room.id (World.heap w !!! a)))
        (Room.id (World.heap w !!! a)) (session_at w a ≫= Session.winner)
    ∧ endGame gameId roomId w = Done () w1
    ∧ World.games w1 = World.games w
    ∧ World.sent w1 = World.sent w ++ [ended_event]
    ∧ endGame gameId roomId w1 = Done () w2
    ∧ World.games w2 = World.games w
    ∧ World.sent w2 = World.sent w ++ [ended_event; ended_event].
Proof.
  intros Hgame Ha Hio Hid.
  pose proof (end_world_games_kept gameId a w game Hgame Hid) as Hgames.
  set (w1 := end_world gameId a w).
  assert (Room.id (World.heap w1 !!! a) = Room.id (World.heap w !!! a)) as Hid1
    by apply id_at_end_world.
  assert (obj_get gameId (World.games w1) = Some game) as Hgame1
    by (unfold w1; by rewrite Hgames).
  eexists w1, (end_world gameId a w1), _. split; [reflexivity|].
  split_and!.
  - rewrite (endGame_first w gameId roomId game a Hgame Ha), endAgarIoRoom_spec.
    by rewrite Hgame; simpl; rewrite Hio.
  - done.
  - simpl. by rewrite Hgame; simpl; rewrite Hio.
  - rewrite (endGame_first w1 gameId roomId game a Hgame1 Ha), endAgarIoRoom_spec.
    by rewrite Hgame1; simpl; rewrite Hio.
  - rewrite <- Hgames. apply (end_world_games_kept gameId a w1 game Hgame1).
    by rewrite Hid1.
  - cbn [end_world World.sent]. rewrite Hgame1, Hid1.
    change (default inhabitant (Some game)) with game. rewrite Hio.
    pose proof (session_at_end_world gameId a w) as Hs. fold w1 in Hs.
    unfold session_at in *. rewrite Hs.
    assert (World.sent w1 = World.sent w ++
      [GameEnded (channel_of (Game.id game) (Room.id (World.heap w !!! a)))
         (Room.id (World.heap w !!! a))
         (Room.session (World.heap w !!! a) ≫= Session.winner)]) as ->.
    { simpl. by rewrite Hgame; simpl; rewrite Hio. }
    rewrite <- app_assoc. simpl. do 4 f_equal.
    by destruct (Room.session (World.heap w !!! a)).
Qed.

(** The started room of [session_world] with its [id] field unset. *)
Lemma endGame_keeps_room_filed_elsewhere_witness :
  ∃ w1 w2 ended_event,
    ended_event = GameEnded "1-undefined" None None
    ∧ endGame "1" "r" (final (update_room 0 (Room.set_id None) session_world))
      = Done () w1
    ∧ World.games w1 = World.games session_world
    ∧ World.sent w1 = [ended_event]
    ∧ endGame "1" "r" w1 = Done () w2
    ∧ World.games w2 = World.games session_world
    ∧ World.sent w2 = [ended_event; ended_event].
Proof.
  exact (endGame_keeps_room_filed_elsewhere
           (final (update_room 0 (Room.set_id None) session_world)) "1" "r"
           (Game.mk [("lobby", 1)] [("r", 0)] (Some "1"%string) true) 0
           eq_refl eq_refl eq_refl eq_refl).
Defined.

(** X11: an end request for a game that does not hold the [io] reference
    throws at the emission, after the teardown: the timers of the session are
    cleared and its live bullets are in the pool, but nothing was sent.  If
    the room is filed under its own [id], it is gone from the active rooms,
    and a later end request (for an id that names no property of
    [Object.prototype]) finds no room, so that no [gameEnded] is ever sent for
    the session.  If nothing is filed under the [id] of the room (where it is
    unset, under ["undefined"]), the room stays among the active rooms and a
    later end request throws again. *)
Theorem endGame_without_io_throws (w : World.t) (gameId roomId : string)
    (game : Game.t) (a : nat) (s : Session.t) :
  obj_get gameId (World.games w) = Some game →
  obj_get roomId (Game.activeRooms game) = Some a →
  session_at w a = Some s →
  Game.io game = false →
  ∃ w1 game1,
    endGame gameId roomId w = Threw w1
    ∧ World.sent w1 = World.sent w
    ∧ session_at w1 a = Some (ended s)
    ∧ (∀ h, Session.simulationInterval s = Some h ∨ Session.broadcastInterval s = Some h →
         scheduled w1 h = false)
    ∧ obj_get gameId (World.games w1) = Some game1
    ∧ (Room.id (World.heap w !!! a) = Some roomId →
       obj_get roomId (Game.activeRooms game1) = None
       ∧ (roomId ∉ prototype_keys → endGame gameId roomId w1 = Done () w1))
    ∧ (obj_get (Js.show (Room.id (World.heap w !!! a))) (Game.activeRooms game) = None →
       obj_get roomId (Game.activeRooms game1) = Some a
       ∧ endGame gameId roomId w1 = Threw w1).
Proof.
  intros Hgame Ha Hs Hio.
  set (key := Js.show (Room.id (World.heap w !!! a))).
  exists (end_world gameId a w),
    (Game.set_activeRooms (obj_delete key (Game.activeRooms game)) game).
  assert (obj_get gameId (World.games (end_world gameId a w))
          = Some (Game.set_activeRooms (obj_delete key (Game.activeRooms game)) game))
    as Hgame1.
  { simpl. rewrite obj_get_alter, bool_decide_eq_true_2, Hgame by done. done. }
  assert (World.sent (end_world gameId a w) = World.sent w) as Hsent.
  { simpl. rewrite Hgame. simpl. rewrite Hio. by rewrite app_nil_r. }
  split_and!.
  - rewrite (endGame_first w gameId roomId game a Hgame Ha), endAgarIoRoom_spec.
    by rewrite Hgame; simpl; rewrite Hio.
  - done.
  - by rewrite session_at_end_world, Hs.
  - intros h Hh. unfold scheduled. apply bool_decide_eq_false. simpl.
    unfold session_at in Hs. rewrite Hs. simpl.
    destruct Hh as [-> | ->].
    + apply not_scheduled_cleared, not_scheduled_cleared_eq.
    + apply not_scheduled_cleared_eq.
  - done.
  - intros Hid. unfold key. rewrite Hid. simpl. split; [apply obj_get_delete_eq|].
    intros Hown. unfold endGame, getGame. munfold. rewrite Hgame1. simpl.
    unfold key. rewrite Hid. simpl.
    by rewrite obj_get_delete_eq, bool_decide_eq_false_2.
  - intros Hfiled. simpl. rewrite obj_delete_absent by done. split; [done|].
    assert (obj_get gameId (World.games (end_world gameId a w)) = Some game) as Hg1.
    { rewrite Hgame1. f_equal. rewrite obj_delete_absent by done.
      apply set_activeRooms_eta. }
    rewrite (endGame_first _ gameId roomId game a Hg1 Ha), endAgarIoRoom_spec.
    rewrite Hg1. simpl. rewrite Hio. f_equal.
    rewrite end_world_twice, Hsent, drop_all, app_nil_r. rewrite <- Hsent.
    by destruct (end_world gameId a w).
Qed.

Lemma endGame_without_io_throws_witness :
  ∃ w1 game1,
    endGame "1" "r" (final (update_game "1" (Game.set_io false) session_world))
    = Threw w1
    ∧ World.sent w1 = []
    ∧ session_at w1 0 = Some (ended (the_session session_world 0))
    ∧ (∀ h, Session.simulationInterval (the_session session_world 0) = Some h
            ∨ Session.broadcastInterval (the_session session_world 0) = Some h →
         scheduled w1 h = false)
    ∧ obj_get "1" (World.games w1) = Some game1
    ∧ (Some "r"%string = Some "r"%string →
       obj_get "r" (Game.activeRooms game1) = None
       ∧ ("r" ∉ prototype_keys → endGame "1" "r" w1 = Done () w1))
    ∧ (obj_get "r" [("r", 0)] = None →
       obj_get "r" (Game.activeRooms game1) = Some 0
       ∧ endGame "1" "r" w1 = Threw w1).
Proof.
  exact (endGame_without_io_throws
           (final (update_game "1" (Game.set_io false) session_world)) "1" "r"
           (Game.mk [("lobby", 1)] [("r", 0)] (Some "1"%string) false) 0
           (the_session session_world 0)
           eq_refl eq_refl eq_refl eq_refl).
Defined.

Lemma joinGameChannel_effect (w : World.t) (socket : Socket.t) (gameId roomId : string)
    (game : Game.t) (a : nat) (room : Room.t) :
  obj_get gameId (World.games w) = Some game →
  obj_get roomId (Game.activeRooms game) = Some a →
  World.heap w !! a = Some room →
  obj_get gameId (World.games (final (joinGameChannel socket gameId roomId w)))
  = Some (Game.set_id (Some gameId) (Game.set_io true game))
  ∧ World.heap (final (joinGameChannel socket gameId roomId w)) !! a
    = Some (Room.set_id (Some roomId) room)
  ∧ World.sent (final (joinGameChannel socket gameId roomId w)) = World.sent w
  ∧ World.timers (final (joinGameChannel socket gameId roomId w)) = World.timers w.
Proof.
  intros Hgame Ha Hroom.
  unfold joinGameChannel, socket_join, update_game, the_game, update_room. munfold.
  simpl. rewrite Hgame. simpl.
  rewrite obj_get_alter, bool_decide_eq_true_2, Hgame by done. simpl. rewrite Ha.
  destruct (obj_get roomId (Game.rooms game)) as [a'|]; simpl.
  - split_and!; try done.
    + by rewrite obj_get_alter, bool_decide_eq_true_2, Hgame by done.
    + rewrite list_lookup_alter, decide_True by done.
      rewrite list_lookup_alter. case_decide; subst; rewrite Hroom; done.
  - split_and!; try done.
    + by rewrite obj_get_alter, bool_decide_eq_true_2, Hgame by done.
    + rewrite list_lookup_alter, decide_True by done. by rewrite Hroom.
Qed.

(** X12: after a socket joined the channel of an active room, an end request
    for the room returns whatever the game and the room held before: the
    join stored the [io] reference and the ids, so the teardown emits one
    [gameEnded] on the channel [gameId-roomId] with the room id and the
    winner of the session, and removes the room from the active rooms. *)
Theorem joinGameChannel_then_endGame (w : World.t) (socket : Socket.t)
    (gameId roomId : string) (game : Game.t) (a : nat) (room : Room.t) :
  obj_get gameId (World.games w) = Some game →
  obj_get roomId (Game.activeRooms game) = Some a →
  World.heap w !! a = Some room →
  ∃ w2 game2,
    endGame gameId roomId (final (joinGameChannel socket gameId roomId w)) = Done () w2
    ∧ World.sent w2
      = World.sent w ++
        [GameEnded (gameId +:+ "-" +:+ roomId) (Some roomId)
           (Room.session room ≫= Session.winner)]
    ∧ obj_get gameId (World.games w2) = Some game2
    ∧ obj_get roomId (Game.activeRooms game2) = None
    ∧ Game.rooms game2 = Game.rooms game
    ∧ session_at w2 a = ended <$> Room.session room.
Proof.
  intros Hgame Ha Hroom.
  destruct (joinGameChannel_effect w socket gameId roomId game a room Hgame Ha Hroom)
    as (Hgame1 & Hroom1 & Hsent1 & _).
  set (w1 := final (joinGameChannel socket gameId roomId w)) in *.
  set (game1 := Game.set_id (Some gameId) (Game.set_io true game)) in *.
  assert (World.heap w1 !!! a = Room.set_id (Some roomId) room) as Hroom1'
    by (by apply list_lookup_total_correct).
  exists (end_world gameId a w1),
    (Game.set_activeRooms (obj_delete roomId (Game.activeRooms game1)) game1).
  split_and!.
  - rewrite (endGame_first w1 gameId roomId game1 a Hgame1 Ha), endAgarIoRoom_spec.
    by rewrite Hgame1.
  - cbn [end_world World.sent]. rewrite Hgame1, Hroom1', Hsent1. done.
  - cbn [end_world World.games]. rewrite obj_get_alter, bool_decide_eq_true_2 by done.
    by rewrite Hgame1, Hroom1'.
  - simpl. apply obj_get_delete_eq.
  - done.
  - rewrite session_at_end_world. unfold session_at. by rewrite Hroom1'.
Qed.

Lemma joinGameChannel_then_endGame_witness :
  ∃ w2 game2,
    endGame "1" "r" (final (joinGameChannel alice "1" "r" session_world)) = Done () w2
    ∧ World.sent w2 = [GameEnded "1-r" (Some "r"%string) None]
    ∧ obj_get "1" (World.games w2) = Some game2
    ∧ obj_get "r" (Game.activeRooms game2) = None
    ∧ Game.rooms game2 = [("lobby"%string, 1)]
    ∧ session_at w2 0 = Some (ended (the_session session_world 0)).
Proof.
  exact (joinGameChannel_then_endGame session_world alice "1" "r"
           (Game.mk [("lobby", 1)] [("r", 0)] (Some "1"%string) true) 0
           (Room.mk (Some "r"%string)
              [Entry.mk "A" "alice" true; Entry.mk "B" "bob" true]
              (Some (the_session session_world 0)))
           eq_refl eq_refl eq_refl).
Defined.

(** ** Sockets in the rooms *)

#[global] Instance unique_kept_refl : Reflexive unique_kept.
Proof. intros w Hw. exact Hw. Qed.

#[global] Instance unique_kept_trans : Transitive unique_kept.
Proof. intros w1 w2 w3 H12 H23 H. by apply H23, H12. Qed.

Lemma unique_same {A} (m : M World.t A) :
  (∀ w, World.heap (final (m w)) = World.heap w) → preserves unique_kept m.
Proof. intros Hm w. unfold unique_kept, players_unique. by rewrite Hm. Qed.

Lemma unique_update_room (a : nat) (f : Room.t → Room.t) :
  (∀ r, NoDup (Entry.socketId <$> Room.players r) →
        NoDup (Entry.socketId <$> Room.players (f r))) →
  preserves unique_kept (update_room a f).
Proof.
  intros Hf w Hw b r. simpl. rewrite list_lookup_alter.
  case_decide; subst; [|apply Hw].
  destruct (World.heap w !! b) as [r0|] eqn:Hr0; simpl; [|done].
  intros [= <-]. apply Hf. by apply (Hw b).
Qed.

Lemma unique_update_room_sublist (a : nat) (f : Room.t → Room.t) :
  (∀ r, Room.players (f r) `sublist_of` Room.players r) →
  preserves unique_kept (update_room a f).
Proof.
  intros Hf. apply unique_update_room. intros r Hnd.
  eapply sublist_NoDup; [exact Hnd|]. by apply fmap_sublist.
Qed.

Lemma unique_in_session {A} (a : nat) (m : M Session.t A) :
  preserves unique_kept (in_session a m).
Proof.
  intros w. unfold in_session.
  destruct (Room.session (World.heap w !!! a)) as [s|]; [|reflexivity].
  pose proof (unique_update_room_sublist a (Room.set_session (Some (final (m s))))
                ltac:(done) w) as Hu.
  by destruct (m s).
Qed.

Lemma unique_alloc_room (r : Room.t) :
  Room.players r = [] → preserves unique_kept (alloc_room r).
Proof.
  intros Hr w Hw b r'. simpl. intros [?|[_ ?]]%lookup_app_Some; [by apply (Hw b)|].
  apply list_lookup_singleton_Some in H as [_ <-]. rewrite Hr. apply NoDup_nil_2.
Qed.

Ltac unique_prim :=
  first
    [ apply unique_same; intros ?;
      unfold emit, socket_join, socket_leave, clearInterval, update_game, getGame;
      munfold; simpl; try done; by case_match
    | apply unique_update_room_sublist; intros ?; simpl;
      first [done | apply sublist_filter | apply sublist_delete]
    | apply unique_in_session
    | apply unique_alloc_room; done ].

Lemma unique_ensureSingleEmptyRoom (gameId : string) :
  preserves unique_kept (ensureSingleEmptyRoom gameId).
Proof. unfold ensureSingleEmptyRoom. preserve; unique_prim. Qed.

Lemma find_is_socket_None (socket : Socket.t) (players : list Entry.t) :
  find (is_socket socket) players = None →
  Socket.id socket ∉ Entry.socketId <$> players.
Proof.
  induction players as [|e players IH]; simpl; [intros _; apply not_elem_of_nil|].
  unfold is_socket at 1. destruct (String.eqb _ _) eqn:He; [done|].
  apply String.eqb_neq in He. intros Hf. apply not_elem_of_cons. split; [done|auto].
Qed.

Lemma unique_joinRoom (socket : Socket.t) (gameId roomId : string)
    (userName : option string) :
  preserves unique_kept (joinRoom socket gameId roomId userName).
Proof.
  unfold joinRoom. apply (preserves_bind unique_kept); [unique_prim|]. intros game.
  destruct (obj_index roomId (Game.rooms game)) as [a| |]; [|preserve..].
  intros w. unfold deref. munfold.
  destruct (find (is_socket socket) (Room.players (World.heap w !!! a))) eqn:Hfind.
  { apply (unique_same (broadcastRooms gameId)). done. }
  apply find_is_socket_None in Hfind.
  unfold update_room, socket_join. munfold. simpl.
  match goal with
  | |- context [World.set_joined ?j (World.set_heap ?h w)] =>
      set (w1 := World.set_joined j (World.set_heap h w))
  end.
  assert (unique_kept w w1) as H1.
  { intros Hw b r. simpl. rewrite list_lookup_alter.
    case_decide; subst; [|apply Hw].
    destruct (World.heap w !! b) as [r0|] eqn:Hr0; simpl; [|done].
    intros [= <-]. simpl. rewrite fmap_app. simpl.
    rewrite (list_lookup_total_correct _ _ _ Hr0) in Hfind.
    apply NoDup_app. split_and!; [by apply (Hw b)| |apply NoDup_singleton].
    intros x Hx ->%list_elem_of_singleton. done. }
  etrans; [exact H1|].
  destruct (bool_decide (length _ = 1)).
  - pose proof (unique_ensureSingleEmptyRoom gameId w1) as He.
    destruct (ensureSingleEmptyRoom gameId w1) as [[] w2|w2]; [|exact He].
    etrans; [exact He|]. by apply (unique_same (broadcastRooms gameId)).
  - by apply (unique_same (broadcastRooms gameId)).
Qed.

Lemma unique_perform (act : Action) : preserves unique_kept (perform act).
Proof.
  destruct act; try apply unique_joinRoom;
    unfold perform, requestRooms, leaveRoom, joinGameChannel,
    requestGameState, playerMove, shoot, endGame, disconnect, fire,
    disconnect_lobby, disconnect_active,
    handlePlayerMove, handleShootBullet, updateBullets, broadcastGameState,
    endAgarIoRoom, endAgarIoRoom_builtin, broadcastRooms, updateRoomCountForEveryone,
    session_of, update_session.
  all: preserve.
  all: first [unique_prim | apply unique_ensureSingleEmptyRoom].
Qed.

(** X13: no socket is ever twice in a room.  If the socket ids of the
    [players] of every room are distinct, they are distinct again after any
    sequence of events: [joinRoom] pushes a socket only into a room that does
    not hold it, and nothing else adds to [players]. *)
Theorem no_socket_twice_in_a_room (acts : list Action) (w : World.t) :
  players_unique w → players_unique (run acts w).
Proof.
  revert w. induction acts as [|act acts IH]; intros w Hw; simpl; [done|].
  apply IH. by apply unique_perform.
Qed.

Lemma no_socket_twice_in_a_room_witness :
  players_unique initial_world
  ∧ players_unique
      (run [RequestRooms alice "1"; JoinRoom alice "1" "r" None;
            JoinRoom alice "1" "r" None] initial_world).
Proof.
  assert (players_unique initial_world) as H0.
  { intros a r Hr. simpl in Hr. by rewrite lookup_nil in Hr. }
  split; [exact H0|].
  exact (no_socket_twice_in_a_room
           [RequestRooms alice "1"; JoinRoom alice "1" "r" None;
            JoinRoom alice "1" "r" None] initial_world H0).
Defined.

(** Joining twice leaves one entry. *)
Example second_join_adds_nothing :
  Room.players <$>
    World.heap (run [RequestRooms alice "1"; JoinRoom alice "1" "r" None;
                     JoinRoom alice "1" "r" (Some "al"%string)] initial_world)
  = [[Entry.mk "A" "alice" false]; []].
Proof. by vm_compute. Qed.

(** ** A disconnect removes the socket *)

#[global] Instance cleaning_refl (socket : Socket.t) : Reflexive (cleaning socket).
Proof.
  intros w. split_and!; try done.
  - intros gameId game' entry Hg He. right. by exists game'.
  - intros gameId game' entry Hg He. right. by exists game'.
Qed.

#[global] Instance cleaning_trans (socket : Socket.t) : Transitive (cleaning socket).
Proof.
  intros w1 w2 w3 (Hu & Ha & Hn & Hr & Hact) (Hu' & Ha' & Hn' & Hr' & Hact').
  split_and!; [congruence|auto|auto|..].
  - intros gameId game3 entry Hg He.
    destruct (Hr' _ _ _ Hg He) as [?|(game2 & Hg2 & He2)]; [by left|].
    destruct (Hr _ _ _ Hg2 He2) as [?|?]; [left; auto|by right].
  - intros gameId game3 entry Hg He.
    destruct (Hact' _ _ _ Hg He) as [?|(game2 & Hg2 & He2)]; [by left|].
    destruct (Hact _ _ _ Hg2 He2) as [?|?]; [left; auto|by right].
Qed.

Lemma cleaning_same (socket : Socket.t) {A} (m : M World.t A) :
  (∀ w, World.heap (final (m w)) = World.heap w
        ∧ World.games (final (m w)) = World.games w
        ∧ World.userList (final (m w)) = World.userList w) →
  preserves (cleaning socket) m.
Proof.
  intros Hm w. destruct (Hm w) as (Hh & Hg & Hu).
  unfold cleaning, absent, players_unique. rewrite Hh, Hg, Hu.
  split_and!; try done.
  - intros gameId game' entry Hgame He. right. by exists game'.
  - intros gameId game' entry Hgame He. right. by exists game'.
Qed.

Lemma cleaning_update_room (socket : Socket.t) (a : nat) (f : Room.t → Room.t) :
  (∀ r, Room.players (f r) `sublist_of` Room.players r) →
  preserves (cleaning socket) (update_room a f).
Proof.
  intros Hf w. split_and!; simpl.
  - done.
  - intros b. unfold absent. simpl. rewrite lookup_total_alter.
    case_decide; [|done]. intros Hb Hin. apply Hb.
    eapply elem_of_sublist; [exact Hin|]. by apply fmap_sublist.
  - by apply (unique_update_room_sublist a f Hf w).
  - intros gameId game' entry Hgame He. right. by exists game'.
  - intros gameId game' entry Hgame He. right. by exists game'.
Qed.

Lemma cleaning_update_game (socket : Socket.t) (gameId : string) (f : Game.t → Game.t) :
  (∀ g, Game.rooms (f g) `sublist_of` Game.rooms g
        ∧ Game.activeRooms (f g) `sublist_of` Game.activeRooms g) →
  preserves (cleaning socket) (update_game gameId f).
Proof.
  intros Hf w. split_and!; simpl; try done.
  - intros k game' entry. rewrite obj_get_alter. case_bool_decide; subst.
    + destruct (obj_get gameId (World.games w)) as [g|]; simpl; [|done].
      intros [= <-] He. right. exists g. split; [done|].
      eapply elem_of_sublist; [exact He|]. apply Hf.
    + intros Hk He. right. by exists game'.
  - intros k game' entry. rewrite obj_get_alter. case_bool_decide; subst.
    + destruct (obj_get gameId (World.games w)) as [g|]; simpl; [|done].
      intros [= <-] He. right. exists g. split; [done|].
      eapply elem_of_sublist; [exact He|]. apply Hf.
    + intros Hk He. right. by exists game'.
Qed.

Lemma cleaning_getGame (socket : Socket.t) (gameId : string) :
  preserves (cleaning socket) (getGame gameId).
Proof.
  intros w. unfold getGame.
  destruct (obj_get gameId (World.games w)) as [g|] eqn:Hg; simpl; [reflexivity|].
  split_and!; simpl; try done.
  - intros k game' entry. destruct (decide (k = gameId)) as [->|Hne].
    + rewrite obj_get_app_r by done. simpl. rewrite bool_decide_eq_true_2 by done.
      intros [= <-]. simpl. by intros ?%elem_of_nil.
    + intros Hk He. right. exists game'. split; [|done].
      destruct (obj_get k (World.games w)) as [g'|] eqn:Hk'.
      * by rewrite (obj_get_app_l _ _ _ _ Hk') in Hk.
      * rewrite obj_get_app_r in Hk by done. simpl in Hk.
        by rewrite bool_decide_eq_false_2 in Hk.
  - intros k game' entry. destruct (decide (k = gameId)) as [->|Hne].
    + rewrite obj_get_app_r by done. simpl. rewrite bool_decide_eq_true_2 by done.
      intros [= <-]. simpl. by intros ?%elem_of_nil.
    + intros Hk He. right. exists game'. split; [|done].
      destruct (obj_get k (World.games w)) as [g'|] eqn:Hk'.
      * by rewrite (obj_get_app_l _ _ _ _ Hk') in Hk.
      * rewrite obj_get_app_r in Hk by done. simpl in Hk.
        by rewrite bool_decide_eq_false_2 in Hk.
Qed.

Lemma lookup_total_snoc_players (l : list Room.t) (roomId : option string) (b : nat) :
  Room.players ((l ++ [Room.mk roomId [] None]) !!! b) = Room.players (l !!! b).
Proof.
  destruct (decide (b < length l)) as [Hlt|Hge].
  - by rewrite lookup_total_app_l.
  - rewrite (list_lookup_total_alt l), (proj2 (lookup_ge_None l b)) by lia. simpl.
    destruct (decide (b = length l)) as [->|Hne].
    + by rewrite lookup_total_app_r, Nat.sub_diag.
    + rewrite list_lookup_total_alt, lookup_ge_None_2; [done|].
      rewrite length_app. simpl. lia.
Qed.

Lemma cleaning_ensureSingleEmptyRoom (socket : Socket.t) (gameId : string) :
  preserves (cleaning socket) (ensureSingleEmptyRoom gameId).
Proof.
  intros w. rewrite ensureSingleEmptyRoom_getGame.
  transitivity (final (getGame gameId w)); [apply cleaning_getGame|].
  destruct (getGame_Some gameId w) as [game Hgame].
  set (w0 := final (getGame gameId w)) in *.
  destruct (ensureSingleEmptyRoom_cases gameId game w0 Hgame)
    as [[_ ->]|(_ & roomId & _ & Hh & Hg)]; [reflexivity|].
  assert (World.userList (final (ensureSingleEmptyRoom gameId w0)) = World.userList w0)
    as Hu.
  { unfold ensureSingleEmptyRoom, getGame, alloc_room, update_game. munfold.
    rewrite Hgame. by destruct (emptyRooms w0 game). }
  assert (∀ b, Room.players (World.heap (final (ensureSingleEmptyRoom gameId w0)) !!! b)
               = Room.players (World.heap w0 !!! b)) as Hp.
  { intros b. rewrite Hh. apply lookup_total_snoc_players. }
  split_and!.
  - done.
  - intros b. unfold absent. by rewrite Hp.
  - intros Hw b r. rewrite Hh. intros [?|[_ Hl]]%lookup_app_Some; [by apply (Hw b)|].
    apply list_lookup_singleton_Some in Hl as [_ <-]. apply NoDup_nil_2.
  - intros k game' entry. rewrite Hg, obj_get_alter. case_bool_decide; subst.
    + rewrite Hgame. simpl. intros [= <-]. simpl.
      intros [He| ->%list_elem_of_singleton]%elem_of_app.
      * right. by exists game.
      * left. unfold absent. rewrite Hp. simpl.
        rewrite list_lookup_total_alt, lookup_ge_None_2 by done. simpl.
        apply not_elem_of_nil.
    + intros Hk He. right. by exists game'.
  - intros k game' entry. rewrite Hg, obj_get_alter. case_bool_decide; subst.
    + rewrite Hgame. simpl. intros [= <-]. simpl. intros He. right. by exists game.
    + intros Hk He. right. by exists game'.
Qed.

Ltac cleaning_prim :=
  first
    [ apply cleaning_ensureSingleEmptyRoom
    | apply cleaning_same; intros ?; unfold emit, broadcastRooms, the_game;
      munfold; simpl; done
    | apply cleaning_update_room; intros ?; simpl; apply sublist_delete
    | apply cleaning_update_game; intros ?; simpl;
      split; first [done | apply obj_delete_sublist] ].

Lemma cleaning_disconnect_lobby (socket : Socket.t) (gameId : string) entry :
  preserves (cleaning socket) (disconnect_lobby socket gameId entry).
Proof. unfold disconnect_lobby. preserve; cleaning_prim. Qed.

Lemma cleaning_disconnect_active (socket : Socket.t) (gameId : string) entry :
  preserves (cleaning socket) (disconnect_active socket gameId entry).
Proof. unfold disconnect_active. preserve; cleaning_prim. Qed.

Lemma findIndex_None (socket : Socket.t) (players : list Entry.t) :
  findIndex (is_socket socket) players = None →
  Socket.id socket ∉ Entry.socketId <$> players.
Proof.
  unfold findIndex. destruct (list_find _ _) as [[i x]|] eqn:Hf; [done|]. intros _.
  apply list_find_None in Hf. intros (e & He & Hin)%list_elem_of_fmap.
  rewrite Forall_forall in Hf. apply (Hf e Hin). unfold is_socket.
  apply String.eqb_eq. congruence.
Qed.

Lemma NoDup_delete_absent {A} (l : list A) (i : nat) (x : A) :
  NoDup l → l !! i = Some x → x ∉ delete i l.
Proof.
  revert i. induction l as [|y l IH]; intros [|i] Hnd Hx; simpl in *; try done.
  - injection Hx as ->. by apply NoDup_cons in Hnd as [? _].
  - apply NoDup_cons in Hnd as [Hy Hnd]. apply not_elem_of_cons. split; [|by apply IH].
    intros ->. apply Hy. by eapply list_elem_of_lookup_2.
Qed.

Lemma findIndex_Some (socket : Socket.t) (players : list Entry.t) (i : nat) :
  findIndex (is_socket socket) players = Some i →
  NoDup (Entry.socketId <$> players) →
  Socket.id socket ∉ Entry.socketId <$> delete i players.
Proof.
  unfold findIndex. destruct (list_find _ _) as [[j x]|] eqn:Hf; [|done].
  simpl. intros [= ->]. apply list_find_Some in Hf as (Hx & Hp & _).
  unfold is_socket in Hp. apply String.eqb_eq in Hp.
  intros Hnd. rewrite list_fmap_delete. apply NoDup_delete_absent; [done|].
  by rewrite list_lookup_fmap, Hx, <- Hp.
Qed.

Lemma disconnect_lobby_unfold (socket : Socket.t) (gameId roomId : string) (a : nat)
    (w : World.t) :
  disconnect_lobby socket gameId (roomId, a) w
  = match findIndex (is_socket socket) (Room.players (World.heap w !!! a)) with
    | None => Done () w
    | Some playerIndex =>
        (w ← get_state;
         game ← the_game gameId;
         room ← deref a;
         (if bool_decide (length (Room.players room) = 0)
             && bool_decide (1 < length (emptyRooms w game))
          then
            update_game gameId (λ g, Game.set_rooms
              (obj_delete roomId (Game.rooms g)) g);;
            ensureSingleEmptyRoom gameId
          else mret ());;
         broadcastRooms gameId)
          (World.set_heap
             (alter (λ r, Room.set_players (delete playerIndex (Room.players r)) r) a
                (World.heap w)) w)
    end.
Proof.
  unfold disconnect_lobby, deref, update_room. munfold.
  by destruct (findIndex _ _).
Qed.

Lemma ensureSingleEmptyRoom_returns (gameId : string) (w : World.t) :
  ensureSingleEmptyRoom gameId w = Done () (final (ensureSingleEmptyRoom gameId w)).
Proof.
  unfold ensureSingleEmptyRoom, getGame, alloc_room, update_game. munfold.
  destruct (obj_get gameId (World.games w)); by case_match.
Qed.

Lemma disconnect_lobby_returns (socket : Socket.t) (gameId : string)
    (entry : string * nat) (w : World.t) :
  disconnect_lobby socket gameId entry w
  = Done () (final (disconnect_lobby socket gameId entry w)).
Proof.
  destruct entry as [roomId a]. rewrite disconnect_lobby_unfold.
  destruct (findIndex _ _) as [i|]; [|done].
  unfold the_game, deref, update_game, broadcastRooms, emit. munfold. simpl.
  destruct (_ && _); [|done]. rewrite ensureSingleEmptyRoom_returns. done.
Qed.

Lemma absent_after_delete (socket : Socket.t) (w : World.t) (a i : nat) :
  players_unique w →
  findIndex (is_socket socket) (Room.players (World.heap w !!! a)) = Some i →
  absent socket
    (World.set_heap
       (alter (λ r, Room.set_players (delete i (Room.players r)) r) a (World.heap w)) w)
    a.
Proof.
  intros Hw Hfind. unfold absent. simpl. rewrite lookup_total_alter. case_decide as Ha.
  - simpl. apply (findIndex_Some _ _ _ Hfind).
    destruct Ha as [_ Ha]. apply (Hw a). by apply list_lookup_lookup_total_lt.
  - intros Hin. apply findIndex_None in Hin; [done|].
    rewrite list_lookup_total_alt, lookup_ge_None_2 by lia. done.
Qed.

(** The room of an entry the handler went through is without the socket. *)
Lemma disconnect_lobby_absent (socket : Socket.t) (gameId : string)
    (entry : string * nat) (w : World.t) :
  players_unique w →
  absent socket (final (disconnect_lobby socket gameId entry w)) entry.2.
Proof.
  intros Hw. destruct entry as [roomId a]. rewrite disconnect_lobby_unfold.
  destruct (findIndex _ _) as [i|] eqn:Hfind; [|by apply findIndex_None].
  match goal with
  | |- absent socket (final (?m ?w1)) _ =>
      assert (preserves (cleaning socket) m) as Hrest
  end.
  { unfold the_game, deref. preserve; cleaning_prim. }
  apply Hrest. by apply absent_after_delete.
Qed.

Lemma disconnect_active_absent (socket : Socket.t) (gameId : string)
    (entry : string * nat) (w : World.t) :
  players_unique w →
  absent socket (final (disconnect_active socket gameId entry w)) entry.2.
Proof.
  intros Hw. destruct entry as [roomId a]. rewrite disconnect_active_spec.
  unfold disconnect_active_effect.
  destruct (findIndex _ _) as [i|] eqn:Hfind; [|by apply findIndex_None].
  pose proof (absent_after_delete socket w a i Hw Hfind) as H1.
  destruct (bool_decide _); [|done]. cbn [final snd].
  match goal with
  | |- absent socket (final (broadcastRooms gameId ?w1)) _ =>
      assert (cleaning socket
        (World.set_heap
           (alter (λ r, Room.set_players (delete i (Room.players r)) r) a
              (World.heap w)) w)
        (final (broadcastRooms gameId w1))) as Hrest
  end.
  { etrans; [|apply (cleaning_same socket (broadcastRooms gameId)); by intros ?].
    apply (cleaning_update_game socket gameId _). intros g. simpl.
    split; [done|apply obj_delete_sublist]. }
  by apply Hrest.
Qed.

(** After a loop over entries, every room of the entries is without the
    socket. *)
Lemma for_each_absent (socket : Socket.t) (step : string * nat → M World.t unit)
    (l : list (string * nat)) (w : World.t) :
  (∀ entry, preserves (cleaning socket) (step entry)) →
  (∀ entry w, step entry w = Done () (final (step entry w))) →
  (∀ entry w, players_unique w → absent socket (final (step entry w)) entry.2) →
  players_unique w →
  ∀ entry, entry ∈ l → absent socket (final (for_each l step w)) entry.2.
Proof.
  intros Hclean Hret Hstep. revert w. induction l as [|e l IH]; intros w Hw entry Hin.
  - by apply elem_of_nil in Hin.
  - rewrite for_each_cons_final, Hret.
    pose proof (preserves_for_each (cleaning socket) l step Hclean
                  (final (step e w))) as (_ & Habs & _).
    apply elem_of_cons in Hin as [->|Hin].
    + apply Habs. by apply Hstep.
    + apply IH; [|done]. by apply (Hclean e w).
Qed.

Lemma for_each_returns {S A} (step : A → M S unit) (l : list A) (s : S) :
  (∀ x s, step x s = Done () (final (step x s))) →
  for_each l step s = Done () (final (for_each l step s)).
Proof.
  intros Hret. revert s. induction l as [|x l IH]; intros s; [done|].
  rewrite for_each_cons_final. simpl. munfold. rewrite Hret. apply IH.
Qed.

Lemma disconnect_active_returns (socket : Socket.t) (gameId : string)
    (entry : string * nat) (w : World.t) :
  disconnect_active socket gameId entry w
  = Done () (final (disconnect_active socket gameId entry w)).
Proof. destruct entry as [roomId a]. by rewrite disconnect_active_spec. Qed.

(** What the disconnect handler does for one game. *)
Lemma disconnect_game_unfold (socket : Socket.t) (gameId : string) (w : World.t) :
  (game ← the_game gameId;
   for_each (entries (Game.rooms game)) (disconnect_lobby socket gameId);;
   game ← the_game gameId;
   for_each (entries (Game.activeRooms game)) (disconnect_active socket gameId)) w
  = Done ()
      (final (for_each
         (entries (Game.activeRooms (default inhabitant (obj_get gameId (World.games
            (final (for_each
               (entries (Game.rooms
                  (default inhabitant (obj_get gameId (World.games w)))))
               (disconnect_lobby socket gameId) w)))))))
         (disconnect_active socket gameId)
         (final (for_each
            (entries (Game.rooms (default inhabitant (obj_get gameId (World.games w)))))
            (disconnect_lobby socket gameId) w)))).
Proof.
  unfold the_game. munfold.
  rewrite (for_each_returns (disconnect_lobby socket gameId))
    by apply disconnect_lobby_returns.
  rewrite (for_each_returns (disconnect_active socket gameId))
    by apply disconnect_active_returns.
  done.
Qed.

Lemma cleaning_disconnect_game (socket : Socket.t) (gameId : string) :
  preserves (cleaning socket)
    (game ← the_game gameId;
     for_each (entries (Game.rooms game)) (disconnect_lobby socket gameId);;
     game ← the_game gameId;
     for_each (entries (Game.activeRooms game)) (disconnect_active socket gameId)).
Proof.
  apply (preserves_bind (cleaning socket)); [by intros ?|]. intros game.
  apply (preserves_bind (cleaning socket)).
  { apply (preserves_for_each (cleaning socket)). apply cleaning_disconnect_lobby. }
  intros _. apply (preserves_bind (cleaning socket)); [by intros ?|]. intros game'.
  apply (preserves_for_each (cleaning socket)). apply cleaning_disconnect_active.
Qed.

Lemma disconnect_game_absent (socket : Socket.t) (gameId : string) (w : World.t) :
  players_unique w →
  ∀ game' entry,
    obj_get gameId (World.games (final
      ((game ← the_game gameId;
        for_each (entries (Game.rooms game)) (disconnect_lobby socket gameId);;
        game ← the_game gameId;
        for_each (entries (Game.activeRooms game)) (disconnect_active socket gameId)) w)))
    = Some game' →
    entry ∈ Game.rooms game' ++ Game.activeRooms game' →
    absent socket (final
      ((game ← the_game gameId;
        for_each (entries (Game.rooms game)) (disconnect_lobby socket gameId);;
        game ← the_game gameId;
        for_each (entries (Game.activeRooms game)) (disconnect_active socket gameId)) w))
      entry.2.
Proof.
  intros Hw game' entry. rewrite disconnect_game_unfold. cbn [final].
  set (l1 := entries (Game.rooms (default inhabitant (obj_get gameId (World.games w))))).
  set (wa := final (for_each l1 (disconnect_lobby socket gameId) w)).
  set (l2 := entries (Game.activeRooms
                (default inhabitant (obj_get gameId (World.games wa))))).
  set (wb := final (for_each l2 (disconnect_active socket gameId) wa)).
  pose proof (preserves_for_each (cleaning socket) l1 _
                (cleaning_disconnect_lobby socket gameId) w) as Ha.
  pose proof (preserves_for_each (cleaning socket) l2 _
                (cleaning_disconnect_active socket gameId) wa) as Hb.
  fold wa in Ha. fold wb in Hb.
  destruct Ha as (_ & Habs_a & Hu_a & Hrooms_a & _).
  destruct Hb as (_ & Habs_b & _ & Hrooms_b & Hact_b).
  pose proof (for_each_absent socket _ l1 w (cleaning_disconnect_lobby socket gameId)
                (disconnect_lobby_returns socket gameId)
                (disconnect_lobby_absent socket gameId) Hw) as Hl1.
  pose proof (for_each_absent socket _ l2 wa (cleaning_disconnect_active socket gameId)
                (disconnect_active_returns socket gameId)
                (disconnect_active_absent socket gameId) (Hu_a Hw)) as Hl2.
  fold wa in Hl1. fold wb in Hl2.
  intros Hgame [He|He]%elem_of_app.
  - destruct (Hrooms_b _ _ _ Hgame He) as [?|(ga & Hga & Hea)]; [done|].
    apply Habs_b.
    destruct (Hrooms_a _ _ _ Hga Hea) as [?|(g & Hg & Heg)]; [done|].
    apply Hl1. unfold l1. rewrite Hg. by apply elem_of_entries.
  - destruct (Hact_b _ _ _ Hgame He) as [?|(ga & Hga & Hea)]; [done|].
    apply Hl2. unfold l2. rewrite Hga. by apply elem_of_entries.
Qed.

Lemma disconnect_games_absent (socket : Socket.t) (ks : list string) (w : World.t) :
  players_unique w →
  ∀ gameId game' entry,
    gameId ∈ ks →
    obj_get gameId (World.games (final (for_each ks (λ gameId,
      game ← the_game gameId;
      for_each (entries (Game.rooms game)) (disconnect_lobby socket gameId);;
      game ← the_game gameId;
      for_each (entries (Game.activeRooms game)) (disconnect_active socket gameId)) w)))
    = Some game' →
    entry ∈ Game.rooms game' ++ Game.activeRooms game' →
    absent socket (final (for_each ks (λ gameId,
      game ← the_game gameId;
      for_each (entries (Game.rooms game)) (disconnect_lobby socket gameId);;
      game ← the_game gameId;
      for_each (entries (Game.activeRooms game)) (disconnect_active socket gameId)) w))
      entry.2.
Proof.
  revert w. induction ks as [|k ks IH]; intros w Hw gameId game' entry Hin.
  { by apply elem_of_nil in Hin. }
  rewrite for_each_cons_final, disconnect_game_unfold.
  pose proof (disconnect_game_absent socket k w Hw) as Hk.
  pose proof (cleaning_disconnect_game socket k w) as Hc.
  rewrite disconnect_game_unfold in Hk, Hc. cbn [final] in Hk, Hc.
  set (w1 := final (for_each _ (disconnect_active socket k) _)) in *.
  pose proof (preserves_for_each (cleaning socket) ks _
                (cleaning_disconnect_game socket) w1) as (_ & Habs & _ & Hrooms & Hact).
  destruct Hc as (_ & _ & Hu & _).
  destruct (decide (gameId ∈ ks)) as [Hks|Hks]; [by apply IH; auto|].
  apply elem_of_cons in Hin as [->|?]; [|done].
  intros Hgame [He|He]%elem_of_app.
  - destruct (Hrooms _ _ _ Hgame He) as [?|(g1 & Hg1 & He1)]; [done|].
    apply Habs. apply (Hk g1); [done|]. apply elem_of_app. by left.
  - destruct (Hact _ _ _ Hgame He) as [?|(g1 & Hg1 & He1)]; [done|].
    apply Habs. apply (Hk g1); [done|]. apply elem_of_app. by right.
Qed.

Lemma disconnect_unfold (socket : Socket.t) (w : World.t) :
  disconnect socket w
  = Done ()
      (final (for_each (entries (World.games w)).*1 (λ gameId,
         game ← the_game gameId;
         for_each (entries (Game.rooms game)) (disconnect_lobby socket gameId);;
         game ← the_game gameId;
         for_each (entries (Game.activeRooms game)) (disconnect_active socket gameId))
         (World.set_sent
            (World.sent w ++
             [Users (entries (obj_delete (Socket.id socket) (World.userList w)))])
            (World.set_userList (obj_delete (Socket.id socket) (World.userList w)) w)))).
Proof.
  unfold disconnect. set (body := λ gameId : string, _).
  unfold emit, mbind, M_bind, get_state, modify. cbn [World.games World.set_userList].
  rewrite (for_each_returns body (entries (World.games w)).*1); [done|].
  intros k s. unfold body. by rewrite disconnect_game_unfold.
Qed.

(** X14: the disconnect handler returns, and after it the socket is in no
    room of the registry, lobby or active, and not in the user list, if no
    room held a socket twice.  (It stays in [playersMap] and [alivePlayers]
    of the sessions.) *)
Theorem disconnect_removes_socket (socket : Socket.t) (w : World.t) :
  players_unique w →
  disconnect socket w = Done () (final (disconnect socket w))
  ∧ players_unique (final (disconnect socket w))
  ∧ gone socket (final (disconnect socket w)).
Proof.
  intros Hw. rewrite disconnect_unfold. cbn [final].
  set (w0 := World.set_sent _ (World.set_userList _ w)).
  set (body := λ gameId : string, _).
  assert (players_unique w0) as Hw0 by done.
  pose proof (preserves_for_each (cleaning socket) (entries (World.games w)).*1 body
                (cleaning_disconnect_game socket) w0)
    as (Hlist & _ & Hu & Hrooms & Hact).
  split; [done|]. split; [by apply Hu|]. split.
  - rewrite Hlist. simpl. apply obj_get_delete_eq.
  - intros gameId game' entry Hgame He.
    destruct (decide (gameId ∈ (World.games w).*1)) as [Hin|Hin].
    + apply (disconnect_games_absent socket _ w0 Hw0 gameId game'); [|done..].
      by rewrite entries_keys_perm.
    + apply obj_get_None in Hin.
      apply elem_of_app in He as [He|He].
      * destruct (Hrooms _ _ _ Hgame He) as [?|(g & Hg & _)]; [done|].
        simpl in Hg. congruence.
      * destruct (Hact _ _ _ Hgame He) as [?|(g & Hg & _)]; [done|].
        simpl in Hg. congruence.
Qed.

Lemma lobby_world_unique : players_unique lobby_world.
Proof.
  intros a r. destruct a as [|[|a]]; simpl; [| |done]; intros [= <-]; simpl.
  - apply NoDup_cons. split; [|apply NoDup_singleton].
    by intros [=]%list_elem_of_singleton.
  - apply NoDup_nil_2.
Qed.

Lemma disconnect_removes_socket_witness :
  players_unique lobby_world
  ∧ disconnect alice lobby_world = Done () (final (disconnect alice lobby_world))
  ∧ players_unique (final (disconnect alice lobby_world))
  ∧ gone alice (final (disconnect alice lobby_world)).
Proof.
  split; [exact lobby_world_unique|].
  exact (disconnect_removes_socket alice lobby_world lobby_world_unique).
Defined.

(** Alice disconnects from the room she shares with bob. *)
Example disconnect_leaves_the_others :
  Room.players <$> World.heap (final (disconnect alice lobby_world))
  = [[Entry.mk "B" "bob" true]; []]
  ∧ World.userList (final (disconnect alice lobby_world)) = [("B", "bob")]%string.
Proof. by vm_compute. Qed.

(** ** A session with at most one player *)

Lemma find_timer_fresh (h : nat) (old : list Timer.t) (t : Timer.t) (rest : list Timer.t) :
  Forall (λ t, Timer.handle t < h) old → Timer.handle t = h →
  find (λ t, bool_decide (Timer.handle t = h)) (old ++ t :: rest) = Some t.
Proof.
  intros Hold Ht. induction Hold as [|t0 old H0 _ IH]; simpl.
  - by rewrite bool_decide_eq_true_2.
  - rewrite bool_decide_eq_false_2 by lia. done.
Qed.

Lemma cleared_Forall (P : Timer.t → Prop) (h : option nat) (l : list Timer.t) :
  Forall P l → Forall P (cleared h l).
Proof.
  destruct h; [|done]. simpl. intros Hl. apply Forall_forall.
  intros t [_ Ht]%list_elem_of_filter. rewrite Forall_forall in Hl. auto.
Qed.

(** X15: a session started with at most one player ends at its first tick.
    When the room holds no player or one, the game holds the [io] reference
    and the timers are those [setInterval] gave out, the first run of the
    simulation task after [startAgarIoRoom] returns, records the player (or
    nobody) as winner, emits one [gameEnded] and leaves neither task of the
    room scheduled. *)
Theorem lone_player_session_ends_at_once (rnd : nat → float) (gameId : string)
    (a : nat) (w : World.t) (room : Room.t) (game : Game.t) :
  World.heap w !! a = Some room →
  length (Room.players room) ≤ 1 →
  obj_get gameId (World.games w) = Some game →
  Game.io game = true →
  timers_ok w →
  ∃ w2,
    fire (World.nextTimer w) (final (startAgarIoRoom rnd gameId a w)) = Done () w2
    ∧ World.sent w2
      = World.sent w ++
        [GameEnded (channel_of (Game.id game) (Room.id room)) (Room.id room)
           (Entry.userName <$> head (Room.players room))]
    ∧ Session.winner <$> session_at w2 a
      = Some (Entry.userName <$> head (Room.players room))
    ∧ scheduled w2 (World.nextTimer w) = false
    ∧ scheduled w2 (S (World.nextTimer w)) = false.
Proof.
  intros Hroom Hlen Hgame Hio Htimers.
  rewrite startAgarIoRoom_spec. cbn [final].
  assert (World.heap w !!! a = room) as Hroom' by (by apply list_lookup_total_correct).
  assert (a < length (World.heap w)) as Ha by (by eapply lookup_lt_Some).
  set (n := World.nextTimer w).
  set (w1 := start_world rnd gameId a w).
  set (s0 := started rnd room n (S n)).
  assert (session_at w1 a = Some s0) as Hs0.
  { unfold session_at, w1, start_world. cbn [World.heap].
    rewrite lookup_total_alter, decide_True by done. by rewrite Hroom'. }
  assert (fire n w1 = updateBullets gameId a w1) as ->.
  { unfold fire. munfold. unfold w1, start_world at 1. cbn [World.timers].
    rewrite (find_timer_fresh n _ (Timer.mk n Simulation gameId a)); [done| |done].
    by do 2 apply cleared_Forall. }
  assert (Session.bullets s0 = []) as Hb by done.
  assert (win_check s0 = true ∧ sole_winner s0 = Entry.userName <$> head (Room.players room))
    as [Hwin Hsole].
  { unfold win_check, sole_winner, s0, started.
    destruct (Room.players room) as [|e [|e' l]]; simpl in *; [done| |lia].
    unfold set_add. simpl. rewrite bool_decide_eq_true_2 by done. done. }
  assert (updateBullets gameId a w1
          = endAgarIoRoom gameId a
              (with_session a (Session.set_winner (sole_winner s0) s0) w1)) as ->.
  { unfold updateBullets, deref, session_of. munfold.
    pose proof Hs0 as Hs0'. unfold session_at in Hs0'. rewrite Hs0', Hb.
    rewrite (in_session_Done a _ w1 s0 s0 [] Hs0) by done.
    pose proof (session_at_with_session w1 a s0) as Hs1.
    unfold session_at in Hs1. rewrite Hs1 by (unfold w1; simpl; by rewrite length_alter).
    unfold win_check in Hwin. rewrite Hwin.
    rewrite (update_session_with a _ _ s0)
      by (apply session_at_with_session; unfold w1; simpl; by rewrite length_alter).
    by rewrite with_session_twice. }
  set (w1' := with_session a (Session.set_winner (sole_winner s0) s0) w1).
  assert (session_at w1' a = Some (Session.set_winner (sole_winner s0) s0)) as Hs1'.
  { apply session_at_with_session. unfold w1. simpl. by rewrite length_alter. }
  assert (Room.id (World.heap w1' !!! a) = Room.id room) as Hid.
  { unfold w1', with_session, w1, start_world. cbn [World.heap World.set_heap].
    rewrite !(lookup_total_alter_proj Room.id) by done. by rewrite Hroom'. }
  rewrite endAgarIoRoom_spec.
  assert (obj_get gameId (World.games w1') = Some game) as Hgame1 by done.
  rewrite Hgame1. change (default inhabitant (Some game)) with game.
  rewrite Hio. eexists. split; [reflexivity|].
  split_and!.
  - cbn [end_world World.sent]. rewrite Hgame1, Hid.
    change (default inhabitant (Some game)) with game. rewrite Hio.
    unfold session_at in Hs1'. rewrite Hs1'. simpl. by rewrite Hsole.
  - rewrite session_at_end_world, Hs1'. simpl. by rewrite Hsole.
  - unfold scheduled. apply bool_decide_eq_false. cbn [end_world World.timers].
    unfold session_at in Hs1'. rewrite Hs1'. simpl.
    apply (not_scheduled_cleared n (Some (S n))), (not_scheduled_cleared_eq n).
  - unfold scheduled. apply bool_decide_eq_false. cbn [end_world World.timers].
    unfold session_at in Hs1'. rewrite Hs1'. simpl.
    apply (not_scheduled_cleared_eq (S n)).
Qed.

(** Alice alone in a room of the lobby. *)
Lemma lone_player_session_ends_at_once_witness :
  ∃ w2,
    fire 0 (final (startAgarIoRoom sample_rnd "1" 0
                     (final (disconnect bob lobby_world)))) = Done () w2
    ∧ World.sent w2
      = World.sent (final (disconnect bob lobby_world)) ++
        [GameEnded "1-r" (Some "r"%string) (Some "alice"%string)]
    ∧ Session.winner <$> session_at w2 0 = Some (Some "alice"%string)
    ∧ scheduled w2 0 = false
    ∧ scheduled w2 1 = false.
Proof.
  exact (lone_player_session_ends_at_once sample_rnd "1" 0
           (final (disconnect bob lobby_world))
           (Room.mk (Some "r"%string) [Entry.mk "A" "alice" true] None)
           (Game.mk [("lobby", 1)] [("r", 0)] (Some "1"%string) true)
           eq_refl (le_n 1) eq_refl eq_refl (Forall_nil_2 _)).
Defined.

(** ** The user list *)

Lemma obj_delete_set {A} (k : string) (v : A) (o : list (string * A)) :
  obj_delete k (obj_set k v o) = obj_delete k o.
Proof.
  unfold obj_delete. induction o as [|[k' v'] o IH]; simpl.
  - rewrite filter_cons_False by (simpl; auto). done.
  - case_bool_decide; subst.
    + rewrite !filter_cons_False by (simpl; auto). done.
    + rewrite !filter_cons_True by done. by rewrite IH.
Qed.

Lemma obj_set_NoDup {A} (k : string) (v : A) (o : list (string * A)) :
  NoDup o.*1 → NoDup (obj_set k v o).*1.
Proof. intros Hnd. rewrite obj_set_keys_add. by apply NoDup_set_add. Qed.

Lemma disconnect_userList (socket : Socket.t) (w : World.t) :
  World.userList (final (disconnect socket w))
  = obj_delete (Socket.id socket) (World.userList w).
Proof.
  rewrite disconnect_unfold. cbn [final].
  match goal with
  | |- World.userList (final (for_each ?ks ?body ?w0)) = _ =>
      pose proof (preserves_for_each (cleaning socket) ks body
                    (cleaning_disconnect_game socket) w0) as (Hlist & _)
  end.
  by rewrite Hlist.
Qed.

(** X16: the ["user name"] handler takes any string, the empty one too: it
    files the name under the socket id in the user list, leaving the other
    users and their order, sets it on the socket and emits the whole list,
    as [Object.values] orders it, without calling the callback.  Anything else leaves the state as it is:
    the callback is called with a failure, and where the client passed none
    the handler throws.  A later disconnect takes the entry out again, so
    that the user list is the one before the name was set, less the
    socket. *)
Theorem user_name_files_the_name (socket : Socket.t) (userName : Js.val)
    (callback : bool) (w : World.t) :
  match userName with
  | Js.Str name =>
      ∃ w1, user_name socket userName callback w
            = Done (Socket.mk (Socket.id socket) (Some name), None) w1
        ∧ World.userList w1 = obj_set (Socket.id socket) name (World.userList w)
        ∧ obj_get (Socket.id socket) (World.userList w1) = Some name
        ∧ (∀ k, k ≠ Socket.id socket →
             obj_get k (World.userList w1) = obj_get k (World.userList w))
        ∧ (NoDup (World.userList w).*1 → NoDup (World.userList w1).*1)
        ∧ World.sent w1 = World.sent w ++ [Users (entries (World.userList w1))]
        ∧ World.heap w1 = World.heap w ∧ World.games w1 = World.games w
        ∧ World.userList
            (final (disconnect (Socket.mk (Socket.id socket) (Some name)) w1))
          = obj_delete (Socket.id socket) (World.userList w)
  | _ =>
      user_name socket userName callback w
      = if callback then Done (socket, Some (Reply.mk false "Invalid user name.")) w
        else Threw w
  end.
Proof.
  destruct userName as [| | | |name|]; try (by destruct callback).
  eexists. split; [reflexivity|]. simpl. split_and!; try done.
  - rewrite obj_get_set. by rewrite bool_decide_eq_true_2.
  - intros k Hk. rewrite obj_get_set. by rewrite bool_decide_eq_false_2.
  - apply obj_set_NoDup.
  - rewrite disconnect_userList. simpl. apply obj_delete_set.
Qed.

Lemma user_name_files_the_name_witness :
  ∃ w1, user_name alice (Js.Str "al") false lobby_world
        = Done (Socket.mk "A" (Some "al"%string), None) w1
    ∧ World.userList w1 = [("A", "al"); ("B", "bob")]%string
    ∧ World.sent w1 = [Users [("A", "al"); ("B", "bob")]%string]
    ∧ World.userList (final (disconnect (Socket.mk "A" (Some "al"%string)) w1))
      = [("B", "bob")]%string.
Proof.
  destruct (user_name_files_the_name alice (Js.Str "al") false lobby_world)
    as (w1 & Heq & Hlist & _ & _ & _ & Hsent & _ & _ & Hd).
  exists w1. split; [exact Heq|]. split; [exact Hlist|].
  split; [by rewrite Hsent, Hlist|exact Hd].
Defined.

(** ** Joining and leaving a room *)

Lemma find_is_socket_Some (socket : Socket.t) (players : list Entry.t) (e : Entry.t) :
  find (is_socket socket) players = Some e →
  Socket.id socket ∈ Entry.socketId <$> players.
Proof.
  induction players as [|e' players IH]; simpl; [done|].
  unfold is_socket at 1. destruct (String.eqb _ _) eqn:He.
  - apply String.eqb_eq in He. intros _. rewrite <- He. by left.
  - intros Hf. right. auto.
Qed.

Lemma display_name_cases (userName : option string) (socket : Socket.t) :
  display_name userName socket ≠ ""%string
  ∧ match userName with
    | Some name =>
        if bool_decide (name = ""%string)
        then display_name userName socket = display_name None socket
        else display_name userName socket = name
    | None =>
        match Socket.userName socket with
        | Some name =>
            display_name None socket
            = if bool_decide (name = ""%string) then "Unknown"%string else name
        | None => display_name None socket = "Unknown"%string
        end
    end.
Proof.
  unfold display_name, Js.or_else, Js.truthy_opt, Js.truthy_str.
  destruct userName as [name|]; destruct (Socket.userName socket) as [name'|]; simpl;
    repeat (case_bool_decide; simpl); subst; done.
Qed.

Lemma ensureSingleEmptyRoom_effect (gameId : string) (game : Game.t) (w : World.t) :
  obj_get gameId (World.games w) = Some game →
  (∀ b r, World.heap w !! b = Some r →
     World.heap (final (ensureSingleEmptyRoom gameId w)) !! b = Some r)
  ∧ (∃ game', obj_get gameId (World.games (final (ensureSingleEmptyRoom gameId w)))
              = Some game'
       ∧ ∀ roomId a, obj_get roomId (Game.rooms game) = Some a →
           obj_get roomId (Game.rooms game') = Some a)
  ∧ World.joined (final (ensureSingleEmptyRoom gameId w)) = World.joined w.
Proof.
  intros Hgame.
  assert (World.joined (final (ensureSingleEmptyRoom gameId w)) = World.joined w) as Hj.
  { unfold ensureSingleEmptyRoom, getGame, alloc_room, update_game. munfold.
    rewrite Hgame. by case_match. }
  destruct (ensureSingleEmptyRoom_cases gameId game w Hgame)
    as [[_ Heq]|(_ & roomId' & _ & Hh & Hg)].
  - rewrite Heq in *. simpl. split_and!; [done| |done]. by exists game.
  - split_and!; [| |done].
    + intros b r Hr. rewrite Hh. by apply lookup_app_l_Some.
    + eexists. rewrite Hg, obj_get_alter, bool_decide_eq_true_2, Hgame by done.
      split; [reflexivity|]. simpl. intros roomId a Ha. by apply obj_get_app_l.
Qed.

Lemma joinRoom_effect (socket : Socket.t) (gameId roomId : string)
    (userName : option string) (w : World.t) (game : Game.t) (a : nat) (room : Room.t) :
  obj_get gameId (World.games w) = Some game →
  obj_get roomId (Game.rooms game) = Some a →
  World.heap w !! a = Some room →
  joinRoom socket gameId roomId userName w
  = Done () (final (joinRoom socket gameId roomId userName w))
  ∧ World.heap (final (joinRoom socket gameId roomId userName w)) !! a
    = Some (if bool_decide (Socket.id socket ∈ Entry.socketId <$> Room.players room)
            then room
            else Room.set_players
                   (Room.players room ++
                    [Entry.mk (Socket.id socket) (display_name userName socket) false])
                   room)
  ∧ (∀ b r, b ≠ a → World.heap w !! b = Some r →
       World.heap (final (joinRoom socket gameId roomId userName w)) !! b = Some r)
  ∧ (∃ game', obj_get gameId
                (World.games (final (joinRoom socket gameId roomId userName w)))
              = Some game'
       ∧ obj_get roomId (Game.rooms game') = Some a)
  ∧ (Socket.id socket ∉ Entry.socketId <$> Room.players room →
     (Socket.id socket, channel_of (Some gameId) (Some roomId))
     ∈ World.joined (final (joinRoom socket gameId roomId userName w))).
Proof.
  intros Hgame Ha Hroom.
  assert (World.heap w !!! a = room) as Hroom' by (by apply list_lookup_total_correct).
  unfold joinRoom, getGame, deref. munfold. rewrite Hgame, Ha, Hroom'.
  destruct (find (is_socket socket) (Room.players room)) as [e|] eqn:Hfind.
  - apply find_is_socket_Some in Hfind. rewrite bool_decide_eq_true_2 by done.
    unfold broadcastRooms, the_game, emit. munfold. simpl.
    split_and!; try done. by exists game.
  - apply find_is_socket_None in Hfind. rewrite bool_decide_eq_false_2 by done.
    unfold update_room, socket_join. munfold. cbn [World.heap World.set_heap
      World.joined World.set_joined].
    match goal with
    | |- context [World.set_joined ?j (World.set_heap ?h w)] =>
        set (w1 := World.set_joined j (World.set_heap h w))
    end.
    assert (World.heap w1 !! a = Some (Room.set_players
      (Room.players room ++
       [Entry.mk (Socket.id socket) (display_name userName socket) false]) room)) as H1.
    { unfold w1. simpl. rewrite list_lookup_alter, decide_True by done. by rewrite Hroom. }
    assert (∀ b r, b ≠ a → World.heap w !! b = Some r → World.heap w1 !! b = Some r)
      as H1'.
    { intros b r Hb Hr. unfold w1. simpl. by rewrite list_lookup_alter, decide_False. }
    assert ((Socket.id socket, channel_of (Some gameId) (Some roomId)) ∈ World.joined w1)
      as Hj1.
    { unfold w1. simpl. case_bool_decide; [done|]. set_solver. }
    assert (obj_get gameId (World.games w1) = Some game) as Hgame1 by done.
    destruct (bool_decide (length _ = 1)).
    + rewrite ensureSingleEmptyRoom_returns.
      destruct (ensureSingleEmptyRoom_effect gameId game w1 Hgame1)
        as (Hh & (game' & Hg' & Hrooms) & Hj).
      unfold broadcastRooms, the_game, emit. munfold. simpl.
      split_and!; try done.
      * by apply Hh.
      * intros b r Hb Hr. apply Hh. by apply H1'.
      * exists game'. split; [done|]. by apply Hrooms.
      * intros _. by rewrite Hj.
    + unfold broadcastRooms, the_game, emit. munfold. simpl.
      split_and!; try done. by exists game.
Qed.

(** X17: [joinRoom] into a lobby room puts the socket in [room.players]
    once: a socket that is there already is not added again, another one is
    appended, not ready, under the name of the request, or else the name of
    the socket, or else ["Unknown"] (an empty name counts as none, so that
    the name filed is never empty), and joins the channel of the room.  The
    handler returns, the room stays in [game.rooms] and the other rooms of
    the store stay as they are. *)
Theorem joinRoom_adds_entry (socket : Socket.t) (gameId roomId : string)
    (userName : option string) (w : World.t) (game : Game.t) (a : nat) (room : Room.t) :
  obj_get gameId (World.games w) = Some game →
  obj_get roomId (Game.rooms game) = Some a →
  World.heap w !! a = Some room →
  joinRoom socket gameId roomId userName w
  = Done () (final (joinRoom socket gameId roomId userName w))
  ∧ World.heap (final (joinRoom socket gameId roomId userName w)) !! a
    = Some (if bool_decide (Socket.id socket ∈ Entry.socketId <$> Room.players room)
            then room
            else Room.set_players
                   (Room.players room ++
                    [Entry.mk (Socket.id socket) (display_name userName socket) false])
                   room)
  ∧ display_name userName socket ≠ ""%string
  ∧ (∀ name, userName = Some name → name ≠ ""%string →
       display_name userName socket = name)
  ∧ (∀ name, userName = None ∨ userName = Some ""%string →
       Socket.userName socket = Some name → name ≠ ""%string →
       display_name userName socket = name)
  ∧ (userName = None ∨ userName = Some ""%string →
     Socket.userName socket = None ∨ Socket.userName socket = Some ""%string →
     display_name userName socket = "Unknown"%string)
  ∧ (∀ b r, b ≠ a → World.heap w !! b = Some r →
       World.heap (final (joinRoom socket gameId roomId userName w)) !! b = Some r)
  ∧ (∃ game', obj_get gameId
                (World.games (final (joinRoom socket gameId roomId userName w)))
              = Some game'
       ∧ obj_get roomId (Game.rooms game') = Some a)
  ∧ (Socket.id socket ∉ Entry.socketId <$> Room.players room →
     (Socket.id socket, channel_of (Some gameId) (Some roomId))
     ∈ World.joined (final (joinRoom socket gameId roomId userName w))).
Proof.
  intros Hgame Ha Hroom.
  destruct (joinRoom_effect socket gameId roomId userName w game a room Hgame Ha Hroom)
    as (Hret & Hh & Hothers & Hreg & Hj).
  destruct (display_name_cases userName socket) as [Hne Hcases].
  split_and!; try done.
  - intros name -> Hname. by rewrite bool_decide_eq_false_2 in Hcases.
  - intros name Hu Hs Hname.
    assert (display_name userName socket = display_name None socket) as ->.
    { destruct Hu as [->| ->]; [done|]. by rewrite bool_decide_eq_true_2 in Hcases. }
    destruct (display_name_cases None socket) as [_ Hc]. rewrite Hs in Hc.
    by rewrite bool_decide_eq_false_2 in Hc.
  - intros Hu Hs.
    assert (display_name userName socket = display_name None socket) as ->.
    { destruct Hu as [->| ->]; [done|]. by rewrite bool_decide_eq_true_2 in Hcases. }
    destruct (display_name_cases None socket) as [_ Hc].
    destruct Hs as [Hs|Hs]; rewrite Hs in Hc; [done|].
    by rewrite bool_decide_eq_true_2 in Hc.
Qed.

Lemma joinRoom_adds_entry_witness :
  World.heap (final (joinRoom (Socket.mk "C" (Some ""%string)) "1" "lobby" None
                       lobby_world)) !! 1
  = Some (Room.mk (Some "lobby"%string) [Entry.mk "C" "Unknown" false] None).
Proof.
  destruct (joinRoom_adds_entry (Socket.mk "C" (Some ""%string)) "1" "lobby" None
              lobby_world (Game.mk [("lobby", 1)] [("r", 0)] (Some "1"%string) true) 1
              (Room.mk (Some "lobby"%string) [] None) eq_refl eq_refl eq_refl)
    as (_ & Hh & _).
  exact Hh.
Defined.

Lemma leaveRoom_effect (socket : Socket.t) (gameId roomId : string) (w : World.t)
    (game : Game.t) (a : nat) :
  obj_get gameId (World.games w) = Some game →
  obj_get roomId (Game.rooms game) = Some a →
  leaveRoom socket gameId roomId w
  = Done () (final (leaveRoom socket gameId roomId w))
  ∧ World.heap (final (leaveRoom socket gameId roomId w))
    = alter (λ r, Room.set_players
               (filter (λ p, is_socket socket p = false) (Room.players r)) r)
        a (World.heap w)
  ∧ World.joined (final (leaveRoom socket gameId roomId w))
    = filter (λ sc, sc ≠ (Socket.id socket, channel_of (Some gameId) (Some roomId)))
        (World.joined w).
Proof.
  intros Hgame Ha.
  unfold leaveRoom, getGame, socket_leave, update_room, update_game, the_game, deref,
    updateRoomCountForEveryone, broadcastRooms, emit. munfold. rewrite Hgame, Ha.
  simpl. by destruct (_ && _).
Qed.

Lemma filter_is_socket_absent (socket : Socket.t) (players : list Entry.t) :
  Socket.id socket ∉ Entry.socketId <$> players →
  filter (λ p, is_socket socket p = false) players = players.
Proof.
  intros Hin. induction players as [|e players IH]; [done|].
  simpl in Hin. apply not_elem_of_cons in Hin as [Hne Hin].
  rewrite filter_cons_True.
  - by rewrite IH.
  - unfold is_socket. apply String.eqb_neq. congruence.
Qed.

(** X18: joining a room and leaving it again restores its players.  For a
    socket that was not in the room, [joinRoom] followed by [leaveRoom]
    returns and leaves [room.players] as it was before the two, the socket
    out of the channel of the room, and the other rooms of the store as they
    were. *)
Theorem join_then_leave_restores_players (socket : Socket.t) (gameId roomId : string)
    (userName : option string) (w : World.t) (game : Game.t) (a : nat) (room : Room.t) :
  obj_get gameId (World.games w) = Some game →
  obj_get roomId (Game.rooms game) = Some a →
  World.heap w !! a = Some room →
  Socket.id socket ∉ Entry.socketId <$> Room.players room →
  leaveRoom socket gameId roomId (final (joinRoom socket gameId roomId userName w))
  = Done () (final (leaveRoom socket gameId roomId
                      (final (joinRoom socket gameId roomId userName w))))
  ∧ World.heap (final (leaveRoom socket gameId roomId
                         (final (joinRoom socket gameId roomId userName w)))) !! a
    = Some room
  ∧ ((Socket.id socket, channel_of (Some gameId) (Some roomId))
     ∉ World.joined (final (leaveRoom socket gameId roomId
                              (final (joinRoom socket gameId roomId userName w)))))
  ∧ ∀ b r, World.heap w !! b = Some r →
      World.heap (final (leaveRoom socket gameId roomId
                           (final (joinRoom socket gameId roomId userName w)))) !! b
      = Some r.
Proof.
  intros Hgame Ha Hroom Hout.
  destruct (joinRoom_effect socket gameId roomId userName w game a room Hgame Ha Hroom)
    as (_ & Hh & Hothers & (game1 & Hgame1 & Ha1) & _).
  rewrite bool_decide_eq_false_2 in Hh by done.
  set (w1 := final (joinRoom socket gameId roomId userName w)) in *.
  destruct (leaveRoom_effect socket gameId roomId w1 game1 a Hgame1 Ha1)
    as (Hret & Hh2 & Hj2).
  assert (World.heap (final (leaveRoom socket gameId roomId w1)) !! a = Some room) as Hback.
  { rewrite Hh2, list_lookup_alter, decide_True, Hh by done. simpl.
    rewrite filter_app, filter_is_socket_absent by done.
    rewrite filter_cons_False, filter_nil, app_nil_r.
    - by destruct room.
    - unfold is_socket. simpl. by rewrite String.eqb_refl. }
  split_and!; [done..| |].
  - rewrite Hj2. intros [Hne _]%list_elem_of_filter. done.
  - intros b r Hr. destruct (decide (b = a)) as [->|Hne]; [congruence|].
    rewrite Hh2, list_lookup_alter, decide_False by done. by apply Hothers.
Qed.

Lemma join_then_leave_restores_players_witness :
  World.heap (final (leaveRoom alice "1" "lobby"
                       (final (joinRoom alice "1" "lobby" None lobby_world)))) !! 1
  = Some (Room.mk (Some "lobby"%string) [] None).
Proof.
  destruct (join_then_leave_restores_players alice "1" "lobby" None lobby_world
              (Game.mk [("lobby", 1)] [("r", 0)] (Some "1"%string) true) 1
              (Room.mk (Some "lobby"%string) [] None) eq_refl eq_refl eq_refl)
    as (_ & Hh & _).
  - apply not_elem_of_nil.
  - exact Hh.
Defined.

(** ** The periodic tasks *)

#[global] Instance timers_shrink_refl : Reflexive timers_shrink.
Proof. by intros w. Qed.

#[global] Instance timers_shrink_trans : Transitive timers_shrink.
Proof. intros w1 w2 w3 [? ?] [? ?]. split; [by etrans|congruence]. Qed.

Lemma timers_same {A} (m : M World.t A) :
  (∀ w, World.timers (final (m w)) = World.timers w
        ∧ World.nextTimer (final (m w)) = World.nextTimer w) →
  preserves timers_shrink m.
Proof. intros Hm w. destruct (Hm w) as [Ht Hn]. split; [by rewrite Ht|done]. Qed.

Lemma timers_in_session {A} (a : nat) (m : M Session.t A) :
  preserves timers_shrink (in_session a m).
Proof.
  apply timers_same. intros w. unfold in_session.
  destruct (Room.session _); [|done]. by destruct (m _).
Qed.

Lemma timers_clearInterval (h : nat) : preserves timers_shrink (clearInterval h).
Proof. intros w. split; [apply sublist_filter|done]. Qed.

Ltac timers_prim :=
  first
    [ apply timers_clearInterval
    | apply timers_in_session
    | apply timers_same; intros ?;
      unfold emit, socket_join, socket_leave, update_game, update_room, alloc_room,
        getGame;
      munfold; simpl; try done; by case_match ].

Lemma timers_perform (act : Action) : preserves timers_shrink (perform act).
Proof.
  destruct act; unfold perform, requestRooms, joinRoom, leaveRoom, joinGameChannel,
    requestGameState, playerMove, shoot, endGame, disconnect, fire,
    disconnect_lobby, disconnect_active,
    handlePlayerMove, handleShootBullet, updateBullets, broadcastGameState,
    endAgarIoRoom, endAgarIoRoom_builtin, ensureSingleEmptyRoom, broadcastRooms, updateRoomCountForEveryone,
    session_of, update_session.
  all: preserve.
  all: timers_prim.
Qed.

Lemma sessions_stay (w w' : World.t) (a : nat) :
  sessions_related (rtc bullet_step) w w' →
  is_Some (session_at w a) → is_Some (session_at w' a).
Proof.
  intros Hrel [s Hs]. apply session_at_lookup in Hs as (r & Hr & Hs).
  specialize (Hrel a). rewrite Hr, Hs in Hrel.
  destruct Hrel as (r' & Hr' & s' & Hs' & _). exists s'.
  apply session_at_lookup. eauto.
Qed.

Lemma updateBullets_returns (w : World.t) (gameId : string) (a : nat) :
  is_Some (session_at w a) → holds_io w gameId →
  updateBullets gameId a w = Done () (final (updateBullets gameId a w)).
Proof.
  intros [s Hs] Hio. pose proof (session_at_lt _ _ _ Hs) as Ha.
  destruct (bullets_loop_spec (length (Session.bullets s)) s) as (s1 & Hloop & _);
    [done|].
  unfold updateBullets, deref, session_of. munfold.
  pose proof Hs as Hs'. unfold session_at in Hs'. rewrite Hs'.
  rewrite (in_session_Done a _ w s s1 _ Hs Hloop).
  pose proof (session_at_with_session w a s1 Ha) as Hs1.
  pose proof Hs1 as Hs1'. unfold session_at in Hs1'. rewrite Hs1'.
  destruct (_ && _); [|done].
  rewrite (update_session_with a _ _ s1 Hs1). rewrite endAgarIoRoom_spec.
  unfold holds_io in Hio. cbn [World.games with_session World.set_heap].
  by rewrite Hio.
Qed.

Lemma broadcastGameState_returns (w : World.t) (io : bool)
    (gameId roomId : option string) (a : nat) (s : Session.t) :
  session_at w a = Some s → roster_ok s →
  broadcastGameState io gameId roomId a w
  = Done () (final (broadcastGameState io gameId roomId a w)).
Proof.
  intros Hs Hok. unfold broadcastGameState, deref, emit. munfold.
  destruct io; simpl; [|done]. unfold session_at in Hs. rewrite Hs.
  by destruct (roster_ok_snapshot roomId s Hok) as (snap & -> & _).
Qed.

Lemma session_at_start_world (rnd : nat → float) (gameId : string) (a b : nat)
    (w : World.t) :
  a < length (World.heap w) →
  is_Some (session_at w b) ∨ b = a →
  is_Some (session_at (start_world rnd gameId a w) b).
Proof.
  intros Ha Hb. unfold session_at, start_world. cbn [World.heap].
  rewrite lookup_total_alter. case_decide as Hd; [by eexists|].
  destruct Hb as [Hb| ->]; [done|]. destruct Hd. done.
Qed.

Lemma elem_of_cleared (t : Timer.t) (h : option nat) (l : list Timer.t) :
  t ∈ cleared h l → t ∈ l.
Proof. destruct h; [|done]. simpl. by intros [_ ?]%list_elem_of_filter. Qed.

Lemma startAgarIoRoom_timers (rnd : nat → float) (gameId : string) (a : nat)
    (w : World.t) :
  a < length (World.heap w) →
  (timers_live w → timers_live (final (startAgarIoRoom rnd gameId a w)))
  ∧ (timers_ok w → timers_ok (final (startAgarIoRoom rnd gameId a w))).
Proof.
  intros Ha. rewrite startAgarIoRoom_spec. cbn [final]. split.
  - intros Hlive t. unfold start_world at 1. cbn [World.timers].
    intros [Ht|Ht]%elem_of_app; apply session_at_start_world; try done.
    + left. apply Hlive. by do 2 apply elem_of_cleared in Ht.
    + right. apply elem_of_cons in Ht as [->|Ht]; [done|].
      by apply list_elem_of_singleton in Ht as ->.
  - intros Hok. unfold timers_ok, start_world. cbn [World.timers World.nextTimer].
    apply Forall_app. split.
    + do 2 apply cleared_Forall. eapply Forall_impl; [exact Hok|].
      intros t Ht. simpl in *. lia.
    + repeat constructor; simpl; lia.
Qed.

(** X19: the periodic tasks do not throw.  In a world where every scheduled
    task belongs to a room with a session and the players of every session
    are well formed, a task that comes due returns: the broadcast task
    always, the simulation task when its game holds the [io] reference (it
    throws without it only at the end of the session, in the teardown).  No
    event schedules a task or gives out a handle, and the two conditions
    hold again after any event and after the start of a session on a room of
    the store. *)
Theorem timer_tasks_return (act : Action) (h : nat) (w : World.t) :
  timers_live w →
  all_sessions roster_ok w →
  (∀ t, find (λ t, bool_decide (Timer.handle t = h)) (World.timers w) = Some t →
        Timer.task t = Simulation → holds_io w (Timer.game t)) →
  fire h w = Done () (final (fire h w))
  ∧ timers_live (final (perform act w))
  ∧ all_sessions roster_ok (final (perform act w))
  ∧ timers_shrink w (final (perform act w))
  ∧ ∀ rnd gameId a, a < length (World.heap w) →
      timers_live (final (startAgarIoRoom rnd gameId a w))
      ∧ all_sessions roster_ok (final (startAgarIoRoom rnd gameId a w))
      ∧ (timers_ok w → timers_ok (final (startAgarIoRoom rnd gameId a w))).
Proof.
  intros Hlive Hroster Hio. split_and!.
  - unfold fire. munfold.
    destruct (find _ _) as [t|] eqn:Hfind; [|done].
    assert (is_Some (session_at w (Timer.room t))) as Hs.
    { apply Hlive. apply find_some in Hfind as [Hin _]. by apply list_elem_of_In. }
    destruct (Timer.task t) eqn:Htask.
    + apply updateBullets_returns; [done|]. by apply Hio.
    + unfold the_game, deref. destruct Hs as [s Hs].
      apply (broadcastGameState_returns _ _ _ _ _ s Hs).
      apply session_at_lookup in Hs as (r & Hr & Hs).
      by apply (Hroster (Timer.room t) r).
  - intros t Ht. destruct (timers_perform act w) as [Hsub _].
    apply (sessions_stay w); [apply related_perform|].
    apply Hlive. by eapply elem_of_sublist.
  - apply (all_sessions_related roster_ok roster_step w); [|done|apply roster_perform].
    intros s s' Hs [_ Hk]. by apply Hk.
  - apply timers_perform.
  - intros rnd gameId a Ha.
    destruct (startAgarIoRoom_timers rnd gameId a w Ha) as [Hl Hk].
    split_and!; [by apply Hl|by apply startAgarIoRoom_roster|done].
Qed.

Lemma session_world_timers_live : timers_live session_world.
Proof.
  apply (startAgarIoRoom_timers sample_rnd "1" 0 lobby_world); [simpl; lia|].
  intros t Ht. by apply elem_of_nil in Ht.
Qed.

Lemma timer_tasks_return_witness :
  fire 0 session_world = Done () (final (fire 0 session_world))
  ∧ timers_live (final (perform (Shoot alice "1" "r" (Js.Str "charged") east)
                          session_world)).
Proof.
  destruct (timer_tasks_return (Shoot alice "1" "r" (Js.Str "charged") east) 0
              session_world session_world_timers_live session_world_roster)
    as (Hfire & Hlive & _).
  - intros t [= <-] _. reflexivity.
  - split; [exact Hfire|exact Hlive].
Defined.
